(** * LogFlux C SDK: entry model, wire encoder, transport and client facade

    A shallow embedding of [logflux_client.c] / [logflux_client.h].

    The C program works on heap-allocated structs and strings, on sockets
    and on a few files.  It is modelled here as a state-and-fault monad over
    a [world]: a heap of blocks indexed by locations, a scripted allocator
    (so that every [malloc]/[calloc]/[realloc]/[strdup] may fail), scripted
    results for the socket calls, the trace of I/O performed, and the
    read-only environment (environment variables, files, clock).

    A run that leaves defined C behaviour (a read through a dangling or null
    pointer, a write past the end of a buffer, a double free) ends in
    [Fault]. *)

From stdpp Require Import gmap strings list fin_maps pretty.
From Stdlib Require Import ZArith Ascii Lia.

Set Default Proof Using "Type".

(** ** Enumerations of the header file *)

Inductive logflux_error_t :=
| LOGFLUX_OK
| LOGFLUX_ERROR_INVALID_PARAM
| LOGFLUX_ERROR_MEMORY
| LOGFLUX_ERROR_CONNECTION
| LOGFLUX_ERROR_TIMEOUT
| LOGFLUX_ERROR_FORMAT
| LOGFLUX_ERROR_NOT_CONNECTED.

Definition is_ok (r : logflux_error_t) : bool :=
  match r with LOGFLUX_OK => true | _ => false end.

(** Levels, entry types and connection types are C enums, that is, [int]s:
    a caller can pass any integer, and the setters check the range. *)
Definition LOGFLUX_LEVEL_EMERGENCY : Z := 0.
Definition LOGFLUX_LEVEL_ALERT : Z := 1.
Definition LOGFLUX_LEVEL_CRITICAL : Z := 2.
Definition LOGFLUX_LEVEL_ERROR : Z := 3.
Definition LOGFLUX_LEVEL_WARNING : Z := 4.
Definition LOGFLUX_LEVEL_NOTICE : Z := 5.
Definition LOGFLUX_LEVEL_INFO : Z := 6.
Definition LOGFLUX_LEVEL_DEBUG : Z := 7.

Definition LOGFLUX_TYPE_LOG : Z := 1.
Definition LOGFLUX_TYPE_METRIC : Z := 2.
Definition LOGFLUX_TYPE_TRACE : Z := 3.
Definition LOGFLUX_TYPE_EVENT : Z := 4.
Definition LOGFLUX_TYPE_AUDIT : Z := 5.

Definition LOGFLUX_CONN_UNIX : Z := 0.
Definition LOGFLUX_CONN_TCP : Z := 1.

(** ** Structs *)

Abbreviation loc := positive.

(** [logflux_config_t].  The three [char] arrays hold NUL-terminated
    strings; they are kept as their string contents. *)
Record logflux_config_t := Config {
  connection_type : Z;
  socket_path : string;     (* char socket_path[256]   *)
  host : string;            (* char host[256]          *)
  port : Z;                 (* uint16_t                *)
  shared_secret : string;   (* char shared_secret[128] *)
  timeout_ms : Z;           (* uint32_t                *)
  retry_count : Z;          (* uint32_t                *)
  retry_delay_ms : Z        (* uint32_t                *)
}.

(** [struct logflux_client]. *)
Record logflux_client := Client {
  config : logflux_config_t;
  socket_fd : Z;
  connected : bool
}.

(** [struct logflux_entry]; a pointer field is [None] when it is NULL.
    [count] and [capacity] are [size_t]; they count array cells of a live
    allocation and stay far below the word size. *)
Record logflux_entry := Entry {
  entry_id : option loc;
  entry_message : option loc;
  entry_source : option loc;
  entry_level : Z;
  entry_type : Z;
  entry_timestamp : Z;
  labels_keys : option loc;
  labels_values : option loc;
  labels_count : nat;
  labels_capacity : nat
}.

(** What [calloc] returns: all bytes zero. *)
Definition zero_config : logflux_config_t :=
  Config 0 "" "" 0 "" 0 0 0.
Definition zero_client : logflux_client :=
  Client zero_config 0 false.
Definition zero_entry : logflux_entry :=
  Entry None None None 0 0 0 None None 0 0.

(** ** The heap *)

Inductive block :=
| BStr (s : string)                   (* a NUL-terminated string; [strdup] *)
| BBuf (cap : Z) (s : string)         (* [malloc (cap)] used as a text buffer:
                                         the string it currently holds *)
| BArr (cells : list (option loc))    (* [char* a[capacity]]; [None] is a
                                         cell that was never written *)
| BEntry (e : logflux_entry)
| BClient (c : logflux_client).

(** ** The world *)

Inductive event :=
| EvSocket (domain fd : Z)
| EvSetsockopt (fd opt ms ret : Z)
| EvConnect (fd : Z) (addr : string) (prt ret : Z)
| EvSend (fd : Z) (data : string) (ret : Z)
| EvClose (fd : Z)
| EvFopen (path : string).

Record world := World {
  heap : gmap loc block;
  allocs : list bool;      (* does the next allocation succeed?  When the
                              script is used up, every allocation succeeds *)
  syscalls : list Z;       (* results of the next socket(), setsockopt(),
                              connect(), send(); used up: they succeed *)
  trace : list event;      (* I/O performed so far, oldest first *)
  uuids : list string;     (* what uuid_generate/uuid_unparse produce next *)
  clock : Z;               (* time(NULL) *)
  environ : string -> option string;   (* getenv *)
  files : string -> option string;     (* contents of the readable files *)
  inet_pton : string -> Z;             (* inet_pton(AF_INET, host, ..) *)
  realloc_moves : bool     (* does a successful realloc move the block? *)
}.

Definition set_heap (h : gmap loc block) (w : world) : world :=
  World h (allocs w) (syscalls w) (trace w) (uuids w) (clock w)
        (environ w) (files w) (inet_pton w) (realloc_moves w).
Definition set_allocs (a : list bool) (w : world) : world :=
  World (heap w) a (syscalls w) (trace w) (uuids w) (clock w)
        (environ w) (files w) (inet_pton w) (realloc_moves w).
Definition set_syscalls (s : list Z) (w : world) : world :=
  World (heap w) (allocs w) s (trace w) (uuids w) (clock w)
        (environ w) (files w) (inet_pton w) (realloc_moves w).
Definition set_trace (t : list event) (w : world) : world :=
  World (heap w) (allocs w) (syscalls w) t (uuids w) (clock w)
        (environ w) (files w) (inet_pton w) (realloc_moves w).
Definition set_uuids (u : list string) (w : world) : world :=
  World (heap w) (allocs w) (syscalls w) (trace w) u (clock w)
        (environ w) (files w) (inet_pton w) (realloc_moves w).
Definition set_realloc_moves (b : bool) (w : world) : world :=
  World (heap w) (allocs w) (syscalls w) (trace w) (uuids w) (clock w)
        (environ w) (files w) (inet_pton w) b.

(** ** The monad of C computations *)

Inductive outcome (A : Type) :=
| Ret (a : A) (w : world)
| Fault.
Arguments Ret {A} a w.
Arguments Fault {A}.

Definition M (A : Type) : Type := world -> outcome A.

Definition ret {A} (a : A) : M A := fun w => Ret a w.
Definition fault {A} : M A := fun _ => Fault.
Definition bind {A B} (m : M A) (k : A -> M B) : M B :=
  fun w => match m w with Ret a w' => k a w' | Fault => Fault end.

Declare Scope prog_scope.
Delimit Scope prog_scope with prog.
Bind Scope prog_scope with M.
Notation "x <- c1 ;; c2" := (bind c1 (fun x => c2))
  (at level 100, c1 at next level, right associativity) : prog_scope.
Notation "c1 ;; c2" := (bind c1 (fun _ => c2))
  (at level 100, right associativity) : prog_scope.
Open Scope prog_scope.

(** ** Allocator *)

(** Takes the next answer of the scripted allocator. *)
Definition next_alloc (w : world) : bool * world :=
  match allocs w with
  | [] => (true, w)
  | b :: rest => (b, set_allocs rest w)
  end.

(** [malloc]/[calloc]/[strdup]: a fresh block holding [b], or NULL. *)
Definition alloc (b : block) : M (option loc) := fun w =>
  let '(ok, w1) := next_alloc w in
  if ok then
    let l := fresh (dom (heap w1)) in
    Ret (Some l) (set_heap (<[l := b]> (heap w1)) w1)
  else Ret None w1.

(** [free (p)]: nothing for NULL; releasing a block that is not live is
    undefined. *)
Definition free (p : option loc) : M unit := fun w =>
  match p with
  | None => Ret tt w
  | Some l =>
    match heap w !! l with
    | Some _ => Ret tt (set_heap (delete l (heap w)) w)
    | None => Fault
    end
  end.

Definition load (l : loc) : M block := fun w =>
  match heap w !! l with
  | Some b => Ret b w
  | None => Fault
  end.

Definition store (l : loc) (b : block) : M unit := fun w =>
  match heap w !! l with
  | Some _ => Ret tt (set_heap (<[l := b]> (heap w)) w)
  | None => Fault
  end.

Definition load_entry (l : loc) : M logflux_entry :=
  b <- load l ;;
  match b with BEntry e => ret e | _ => fault end.

Definition load_client (l : loc) : M logflux_client :=
  b <- load l ;;
  match b with BClient c => ret c | _ => fault end.

(** Reading a string through a [char*]. *)
Definition read_str (h : gmap loc block) (p : option loc) : option string :=
  match p with
  | None => None
  | Some l => match h !! l with Some (BStr s) => Some s | _ => None end
  end.

(** Reading [arr[i]] of a [char**] and the string it points to. *)
Definition read_cell (h : gmap loc block) (arr : option loc) (i : nat)
  : option string :=
  match arr with
  | None => None
  | Some a =>
    match h !! a with
    | Some (BArr cells) =>
      match cells !! i with
      | Some c => read_str h c
      | None => None
      end
    | _ => None
    end
  end.

Definition load_str (p : option loc) : M string := fun w =>
  match read_str (heap w) p with
  | Some s => Ret s w
  | None => Fault
  end.

Definition load_cell_str (arr : option loc) (i : nat) : M string := fun w =>
  match read_cell (heap w) arr i with
  | Some s => Ret s w
  | None => Fault
  end.

(** [arr[i]] itself, a [char*]. *)
Definition load_cell (arr : option loc) (i : nat) : M (option loc) :=
  match arr with
  | None => fault
  | Some a =>
    b <- load a ;;
    match b with
    | BArr cells =>
      match cells !! i with
      | Some (Some c) => ret (Some c)
      | _ => fault
      end
    | _ => fault
    end
  end.

(** [arr[i] = p]. *)
Definition store_cell (arr : option loc) (i : nat) (p : option loc) : M unit :=
  match arr with
  | None => fault
  | Some a =>
    b <- load a ;;
    match b with
    | BArr cells =>
      if decide (i < length cells)
      then store a (BArr (<[i := p]> cells))
      else fault
    | _ => fault
    end
  end.

(** [realloc (p, n * sizeof (char* ))].  On failure the old block is left as
    it is and NULL is returned.  On success the block has [n] cells, the old
    ones first; it either stays where it is, or moves to a new location and
    the old pointer no longer designates a live block. *)
Definition realloc (p : option loc) (n : nat) : M (option loc) := fun w =>
  let '(ok, w1) := next_alloc w in
  if ok then
    match p with
    | None =>
      let l := fresh (dom (heap w1)) in
      Ret (Some l) (set_heap (<[l := BArr (replicate n None)]> (heap w1)) w1)
    | Some old =>
      match heap w1 !! old with
      | Some (BArr cells) =>
        let cells' := take n cells ++ replicate (n - length cells) None in
        if realloc_moves w1 then
          let l := fresh (dom (heap w1)) in
          Ret (Some l)
              (set_heap (<[l := BArr cells']> (delete old (heap w1))) w1)
        else
          Ret (Some old) (set_heap (<[old := BArr cells']> (heap w1)) w1)
      | _ => Fault
      end
    end
  else Ret None w1.

Definition strdup (s : string) : M (option loc) := alloc (BStr s).

Definition time : M Z := fun w => Ret (clock w) w.

(** A counting loop: [for (i = start; i < start + n; i++) body (i)]. *)
Fixpoint for_range (start n : nat) (body : nat -> M unit) : M unit :=
  match n with
  | 0 => ret tt
  | S n' => body start ;; for_range (S start) n' body
  end.

Definition is_null {A} (p : option A) : bool :=
  match p with None => true | Some _ => false end.

(** ** Log entries *)

Definition nil_uuid : string := "00000000-0000-0000-0000-000000000000".

(** [uuid_generate] followed by [uuid_unparse]: the next identifier. *)
Definition uuid_generate : M string := fun w =>
  match uuids w with
  | [] => Ret nil_uuid w
  | u :: rest => Ret u (set_uuids rest w)
  end.

Definition generate_uuid : M (option loc) :=
  uuid <- uuid_generate ;;
  alloc (BStr uuid).

(** The label loop of [logflux_entry_free]. *)
Definition free_labels (e : logflux_entry) : M unit :=
  for_range 0 (labels_count e) (fun i =>
    k <- load_cell (labels_keys e) i ;;
    free k ;;
    v <- load_cell (labels_values e) i ;;
    free v).

Definition logflux_entry_free (entry : option loc) : M unit :=
  match entry with
  | None => ret tt
  | Some p =>
    e <- load_entry p ;;
    free (entry_id e) ;;
    free (entry_message e) ;;
    free (entry_source e) ;;
    free_labels e ;;
    free (labels_keys e) ;;
    free (labels_values e) ;;
    free (Some p)
  end.

Definition logflux_entry_new (message : option string) : M (option loc) :=
  match message with
  | None => ret None
  | Some msg =>
    entry <- alloc (BEntry zero_entry) ;;
    match entry with
    | None => ret None
    | Some p =>
      i <- generate_uuid ;;
      m <- strdup msg ;;
      s <- strdup "c-sdk" ;;
      t <- time ;;
      store p (BEntry (Entry i m s LOGFLUX_LEVEL_INFO LOGFLUX_TYPE_LOG t
                             None None 0 0)) ;;
      if is_null i || is_null m || is_null s then
        logflux_entry_free (Some p) ;;
        ret None
      else ret (Some p)
    end
  end.

Definition set_entry_level (level : Z) (e : logflux_entry) : logflux_entry :=
  Entry (entry_id e) (entry_message e) (entry_source e) level (entry_type e)
        (entry_timestamp e) (labels_keys e) (labels_values e)
        (labels_count e) (labels_capacity e).
Definition set_entry_type (type : Z) (e : logflux_entry) : logflux_entry :=
  Entry (entry_id e) (entry_message e) (entry_source e) (entry_level e) type
        (entry_timestamp e) (labels_keys e) (labels_values e)
        (labels_count e) (labels_capacity e).
Definition set_entry_source (s : option loc) (e : logflux_entry)
  : logflux_entry :=
  Entry (entry_id e) (entry_message e) s (entry_level e) (entry_type e)
        (entry_timestamp e) (labels_keys e) (labels_values e)
        (labels_count e) (labels_capacity e).
Definition set_entry_timestamp (t : Z) (e : logflux_entry) : logflux_entry :=
  Entry (entry_id e) (entry_message e) (entry_source e) (entry_level e)
        (entry_type e) t (labels_keys e) (labels_values e)
        (labels_count e) (labels_capacity e).
Definition set_labels (k v : option loc) (cnt cap : nat) (e : logflux_entry)
  : logflux_entry :=
  Entry (entry_id e) (entry_message e) (entry_source e) (entry_level e)
        (entry_type e) (entry_timestamp e) k v cnt cap.

Definition logflux_entry_set_level (entry : option loc) (level : Z)
  : M logflux_error_t :=
  match entry with
  | None => ret LOGFLUX_ERROR_INVALID_PARAM
  | Some p =>
    if (level <? LOGFLUX_LEVEL_EMERGENCY)%Z || (LOGFLUX_LEVEL_DEBUG <? level)%Z
    then ret LOGFLUX_ERROR_INVALID_PARAM
    else
      e <- load_entry p ;;
      store p (BEntry (set_entry_level level e)) ;;
      ret LOGFLUX_OK
  end.

Definition logflux_entry_set_type (entry : option loc) (type : Z)
  : M logflux_error_t :=
  match entry with
  | None => ret LOGFLUX_ERROR_INVALID_PARAM
  | Some p =>
    if (type <? LOGFLUX_TYPE_LOG)%Z || (LOGFLUX_TYPE_AUDIT <? type)%Z
    then ret LOGFLUX_ERROR_INVALID_PARAM
    else
      e <- load_entry p ;;
      store p (BEntry (set_entry_type type e)) ;;
      ret LOGFLUX_OK
  end.

Definition logflux_entry_set_source (entry : option loc)
  (source : option string) : M logflux_error_t :=
  match entry, source with
  | Some p, Some src =>
    new_source <- strdup src ;;
    if is_null new_source then ret LOGFLUX_ERROR_MEMORY
    else
      e <- load_entry p ;;
      free (entry_source e) ;;
      store p (BEntry (set_entry_source new_source e)) ;;
      ret LOGFLUX_OK
  | _, _ => ret LOGFLUX_ERROR_INVALID_PARAM
  end.

Definition logflux_entry_set_timestamp (entry : option loc) (timestamp : Z)
  : M logflux_error_t :=
  match entry with
  | None => ret LOGFLUX_ERROR_INVALID_PARAM
  | Some p =>
    e <- load_entry p ;;
    store p (BEntry (set_entry_timestamp timestamp e)) ;;
    ret LOGFLUX_OK
  end.

Definition logflux_entry_add_label (entry : option loc)
  (key value : option string) : M logflux_error_t :=
  match entry, key, value with
  | Some p, Some k, Some v =>
    let append : M logflux_error_t :=
      key_copy <- strdup k ;;
      value_copy <- strdup v ;;
      if is_null key_copy || is_null value_copy then
        free key_copy ;;
        free value_copy ;;
        ret LOGFLUX_ERROR_MEMORY
      else
        e <- load_entry p ;;
        store_cell (labels_keys e) (labels_count e) key_copy ;;
        store_cell (labels_values e) (labels_count e) value_copy ;;
        store p (BEntry (set_labels (labels_keys e) (labels_values e)
                                    (S (labels_count e))
                                    (labels_capacity e) e)) ;;
        ret LOGFLUX_OK in
    e <- load_entry p ;;
    (* Expand labels array if needed *)
    if decide (labels_capacity e <= labels_count e) then
      let new_capacity :=
        if decide (labels_capacity e = 0) then 4 else labels_capacity e * 2 in
      new_keys <- realloc (labels_keys e) new_capacity ;;
      new_values <- realloc (labels_values e) new_capacity ;;
      if is_null new_keys || is_null new_values then
        free new_keys ;;
        free new_values ;;
        ret LOGFLUX_ERROR_MEMORY
      else
        store p (BEntry (set_labels new_keys new_values (labels_count e)
                                    new_capacity e)) ;;
        append
    else append
  | _, _, _ => ret LOGFLUX_ERROR_INVALID_PARAM
  end.

(** *** What an entry holds, read through its pointers *)

Record entry_view := View {
  view_id : string;
  view_message : string;
  view_source : string;
  view_level : Z;
  view_type : Z;
  view_timestamp : Z;
  view_labels : list (string * string)
}.

Definition read_label (h : gmap loc block) (e : logflux_entry) (i : nat)
  : option (string * string) :=
  match read_cell h (labels_keys e) i, read_cell h (labels_values e) i with
  | Some k, Some v => Some (k, v)
  | _, _ => None
  end.

(** The label pairs [0 .. count-1]; [None] when one of them cannot be read
    (an array or a string that is no longer live). *)
Definition read_labels (h : gmap loc block) (e : logflux_entry)
  : option (list (string * string)) :=
  mapM (read_label h e) (seq 0 (labels_count e)).

Definition read_entry (h : gmap loc block) (p : loc) : option entry_view :=
  match h !! p with
  | Some (BEntry e) =>
    match read_str h (entry_id e), read_str h (entry_message e),
          read_str h (entry_source e), read_labels h e with
    | Some i, Some m, Some s, Some ls =>
      Some (View i m s (entry_level e) (entry_type e) (entry_timestamp e) ls)
    | _, _, _, _ => None
    end
  | _ => None
  end.

(** ** Text formatting *)

Definition dquote : string := String "034"%char EmptyString.
Definition newline : string := String "010"%char EmptyString.

Definition quoted (s : string) : string := dquote +:+ s +:+ dquote.

Definition INT_MAX : Z := 2147483647.

(** [a - b] computed in [size_t] (64 bits). *)
Definition size_sub (a b : Z) : Z := ((a - b) mod 2 ^ 64)%Z.

(** The string held by a buffer after [t] and its terminator are written at
    offset [off] of a buffer that held [s]. *)
Definition write_at (s : string) (off : nat) (t : string) : string :=
  if decide (off <= String.length s) then String.substring 0 off s +:+ t else s.

(** [snprintf (buf + off, size, ..)] where the format expands to [text].
    At most [size - 1] characters and a terminator are written; with
    [size = 0] nothing is.  The result is the length of [text], whatever was
    written (negative when that length does not fit an [int]).  A write that
    does not lie inside the block is undefined. *)
Definition snprintf (buf : loc) (off size : Z) (text : string) : M Z :=
  b <- load buf ;;
  match b with
  | BBuf cap s =>
    let n := Z.of_nat (String.length text) in
    let result := if (n <=? INT_MAX)%Z then n else (-1)%Z in
    if (size =? 0)%Z then ret result
    else
      let written := Z.min n (size - 1) in
      if (0 <=? off)%Z && (off + written + 1 <=? cap)%Z then
        store buf (BBuf cap (write_at s (Z.to_nat off)
                                      (String.substring 0 (Z.to_nat written) text))) ;;
        ret result
      else fault
  | _ => fault
  end.

(** The expansions of the format strings of [entry_to_json]. *)
Definition fmt_header (id message source : string) (type level timestamp : Z)
  : string :=
  "{" +:+ quoted "id" +:+ ":" +:+ quoted id +:+ ","
  +:+ quoted "message" +:+ ":" +:+ quoted message +:+ ","
  +:+ quoted "source" +:+ ":" +:+ quoted source +:+ ","
  +:+ quoted "entry_type" +:+ ":" +:+ pretty type +:+ ","
  +:+ quoted "level" +:+ ":" +:+ pretty level +:+ ","
  +:+ quoted "timestamp" +:+ ":" +:+ pretty timestamp.

Definition fmt_secret (secret : string) : string :=
  "," +:+ quoted "shared_secret" +:+ ":" +:+ quoted secret.

Definition fmt_labels_open : string := "," +:+ quoted "labels" +:+ ":{".

Definition fmt_label (k v : string) : string := quoted k +:+ ":" +:+ quoted v.

(** ** Wire encoder *)

Definition buffer_size : Z := 4096.

(** The label loop of [entry_to_json]: cells [i .. i+n-1]. *)
Fixpoint json_labels (json : loc) (e : logflux_entry) (i n : nat) (len : Z)
  : M Z :=
  match n with
  | 0 => ret len
  | S n' =>
    len <- (if decide (0 < i) then
              c <- snprintf json len (size_sub buffer_size len) "," ;;
              ret (len + c)%Z
            else ret len) ;;
    k <- load_cell_str (labels_keys e) i ;;
    v <- load_cell_str (labels_values e) i ;;
    c <- snprintf json len (size_sub buffer_size len) (fmt_label k v) ;;
    json_labels json e (S i) n' (len + c)%Z
  end.

Definition entry_to_json (entry : loc) (shared_secret : option string)
  : M (option loc) :=
  json <- alloc (BBuf buffer_size EmptyString) ;;
  match json with
  | None => ret None
  | Some j =>
    e <- load_entry entry ;;
    id <- load_str (entry_id e) ;;
    message <- load_str (entry_message e) ;;
    source <- load_str (entry_source e) ;;
    len <- snprintf j 0 buffer_size
             (fmt_header id message source (entry_type e) (entry_level e)
                         (entry_timestamp e)) ;;
    (* Add shared secret for TCP connections *)
    len <- (match shared_secret with
            | Some secret =>
              if decide (0 < String.length secret) then
                c <- snprintf j len (size_sub buffer_size len)
                       (fmt_secret secret) ;;
                ret (len + c)%Z
              else ret len
            | None => ret len
            end) ;;
    (* Add labels *)
    len <- (if decide (0 < labels_count e) then
              c <- snprintf j len (size_sub buffer_size len) fmt_labels_open ;;
              len <- json_labels j e 0 (labels_count e) (len + c)%Z ;;
              c <- snprintf j len (size_sub buffer_size len) "}" ;;
              ret (len + c)%Z
            else ret len) ;;
    snprintf j len (size_sub buffer_size len) "}" ;;
    ret (Some j)
  end.

(** ** Transport *)

Definition next_syscall (default : Z) : M Z := fun w =>
  match syscalls w with
  | [] => Ret default w
  | r :: rest => Ret r (set_syscalls rest w)
  end.

Definition emit (ev : event) : M unit := fun w =>
  Ret tt (set_trace (trace w ++ [ev]) w).

Definition AF_UNIX : Z := 1.
Definition AF_INET : Z := 2.
Definition SO_RCVTIMEO : Z := 20.
Definition SO_SNDTIMEO : Z := 21.
Definition sun_path_size : Z := 108.

Definition sys_socket (domain : Z) : M Z :=
  fd <- next_syscall 3 ;;
  emit (EvSocket domain fd) ;;
  ret fd.

Definition sys_setsockopt (fd opt ms : Z) : M Z :=
  r <- next_syscall 0 ;;
  emit (EvSetsockopt fd opt ms r) ;;
  ret r.

Definition sys_connect (fd : Z) (addr : string) (prt : Z) : M Z :=
  r <- next_syscall 0 ;;
  emit (EvConnect fd addr prt r) ;;
  ret r.

(** [send (fd, data, len, 0)]: the number of bytes accepted, or -1. *)
Definition sys_send (fd : Z) (data : string) (len : Z) : M Z :=
  r <- next_syscall len ;;
  emit (EvSend fd data r) ;;
  ret r.

Definition sys_close (fd : Z) : M unit := emit (EvClose fd).

Definition set_client_fd (fd : Z) (c : logflux_client) : logflux_client :=
  Client (config c) fd (connected c).
Definition set_client_connected (b : bool) (c : logflux_client)
  : logflux_client :=
  Client (config c) (socket_fd c) b.

Definition update_client (client : loc) (f : logflux_client -> logflux_client)
  : M unit :=
  c <- load_client client ;;
  store client (BClient (f c)).

Definition set_socket_timeout (fd timeout : Z) : M logflux_error_t :=
  r1 <- sys_setsockopt fd SO_RCVTIMEO timeout ;;
  if (r1 <? 0)%Z then ret LOGFLUX_ERROR_TIMEOUT
  else
    r2 <- sys_setsockopt fd SO_SNDTIMEO timeout ;;
    if (r2 <? 0)%Z then ret LOGFLUX_ERROR_TIMEOUT else ret LOGFLUX_OK.

(** The common failure exit of the two connect functions. *)
Definition drop_socket (client : loc) (fd : Z) (r : logflux_error_t)
  : M logflux_error_t :=
  sys_close fd ;;
  update_client client (set_client_fd (-1)) ;;
  ret r.

Definition connect_unix_socket (client : loc) : M logflux_error_t :=
  fd <- sys_socket AF_UNIX ;;
  update_client client (set_client_fd fd) ;;
  if (fd <? 0)%Z then ret LOGFLUX_ERROR_CONNECTION
  else
    c <- load_client client ;;
    t <- set_socket_timeout fd (timeout_ms (config c)) ;;
    if negb (is_ok t) then drop_socket client fd LOGFLUX_ERROR_TIMEOUT
    else
      let path_len := Z.of_nat (String.length (socket_path (config c))) in
      if (sun_path_size <=? path_len)%Z
      then drop_socket client fd LOGFLUX_ERROR_INVALID_PARAM
      else
        r <- sys_connect fd (socket_path (config c)) 0 ;;
        if (r <? 0)%Z then drop_socket client fd LOGFLUX_ERROR_CONNECTION
        else ret LOGFLUX_OK.

Definition connect_tcp_socket (client : loc) : M logflux_error_t :=
  fd <- sys_socket AF_INET ;;
  update_client client (set_client_fd fd) ;;
  if (fd <? 0)%Z then ret LOGFLUX_ERROR_CONNECTION
  else
    c <- load_client client ;;
    t <- set_socket_timeout fd (timeout_ms (config c)) ;;
    if negb (is_ok t) then drop_socket client fd LOGFLUX_ERROR_TIMEOUT
    else
      parsed <- (fun w => Ret (inet_pton w (host (config c))) w) ;;
      if (parsed <=? 0)%Z
      then drop_socket client fd LOGFLUX_ERROR_CONNECTION
      else
        r <- sys_connect fd (host (config c)) (port (config c)) ;;
        if (r <? 0)%Z then drop_socket client fd LOGFLUX_ERROR_CONNECTION
        else ret LOGFLUX_OK.

Definition send_json_data (client json : loc) : M logflux_error_t :=
  b <- load json ;;
  match b with
  | BBuf _ text =>
    let json_len := Z.of_nat (String.length text) in
    let total_len := (json_len + 1)%Z in   (* Add newline *)
    data <- alloc (BBuf (total_len + 1) EmptyString) ;;
    match data with
    | None => ret LOGFLUX_ERROR_MEMORY
    | Some d =>
      snprintf d 0 (total_len + 1) (text +:+ newline) ;;
      c <- load_client client ;;
      bd <- load d ;;
      match bd with
      | BBuf _ payload =>
        sent <- sys_send (socket_fd c) payload total_len ;;
        free (Some d) ;;
        if (sent <? 0)%Z || negb (sent =? total_len)%Z
        then ret LOGFLUX_ERROR_CONNECTION
        else ret LOGFLUX_OK
      | _ => fault
      end
    end
  | _ => fault
  end.

(** ** Secret discovery *)

Definition getenv (name : string) : M (option string) := fun w =>
  Ret (environ w name) w.

(** [fopen (path, r)]: the contents of the file, or NULL. *)
Definition fopen (path : string) : M (option string) := fun w =>
  Ret (files w path) (set_trace (trace w ++ [EvFopen path]) w).

(** The characters [fgets] stores: at most [n], stopping after a newline. *)
Fixpoint read_line (n : nat) (s : string) : string :=
  match n, s with
  | S n', String c s' =>
    if Ascii.eqb c "010"%char then String c EmptyString
    else String c (read_line n' s')
  | _, _ => EmptyString
  end.

(** [fgets (buf, size, file)] at the start of a file: NULL at end of file. *)
Definition fgets (size : nat) (content : string) : option string :=
  match content with
  | EmptyString => None
  | _ => Some (read_line (size - 1) content)
  end.

(** Remove trailing newline *)
Fixpoint strip_newline (s : string) : string :=
  match s with
  | EmptyString => EmptyString
  | String c EmptyString =>
    if Ascii.eqb c "010"%char then EmptyString else s
  | String c s' => String c (strip_newline s')
  end.

(** [logflux_load_shared_secret (secret, size)].  [secret] is the buffer
    ([None] for NULL) given by what it holds; the result carries what it
    holds afterwards. *)
Definition logflux_load_shared_secret (secret : option string) (size : nat)
  : M (logflux_error_t * option string) :=
  match secret with
  | None => ret (LOGFLUX_ERROR_INVALID_PARAM, secret)
  | Some old =>
    if decide (size = 0) then ret (LOGFLUX_ERROR_INVALID_PARAM, secret)
    else
      xdg_runtime <- getenv "XDG_RUNTIME_DIR" ;;
      secret_path <-
        (match xdg_runtime with
         | Some dir =>
           ret (String.substring 0 511 (dir +:+ "/logflux/agent.secret"))
         | None =>
           home <- getenv "HOME" ;;
           match home with
           | Some dir =>
             ret (String.substring 0 511
                    (dir +:+ "/.logflux/runtime/agent.secret"))
           | None => ret "/tmp/.logflux-runtime/agent.secret"
           end
         end) ;;
      file <- fopen secret_path ;;
      match file with
      | None => ret (LOGFLUX_ERROR_CONNECTION, secret)
      | Some content =>
        match fgets size content with
        | None => ret (LOGFLUX_ERROR_FORMAT, secret)
        | Some line => ret (LOGFLUX_OK, Some (strip_newline line))
        end
      end
  end.

(** ** Client *)

Definition set_config_secret (s : string) (c : logflux_config_t)
  : logflux_config_t :=
  Config (connection_type c) (socket_path c) (host c) (port c) s
         (timeout_ms c) (retry_count c) (retry_delay_ms c).

(** [strncpy (dst, src, n)] into a zero-filled [dst] of more than [n]
    bytes: the string [dst] then holds. *)
Definition strncpy (src : string) (n : nat) : string := String.substring 0 n src.

Definition logflux_client_new_unix (socket_path : option string)
  : M (option loc) :=
  match socket_path with
  | None => ret None
  | Some path =>
    client <- alloc (BClient zero_client) ;;
    match client with
    | None => ret None
    | Some p =>
      store p (BClient
        (Client (Config LOGFLUX_CONN_UNIX (strncpy path 255) EmptyString 0
                        EmptyString 10000 3 1000)
                (-1) false)) ;;
      ret (Some p)
    end
  end.

Definition logflux_client_new_tcp (host : option string) (port : Z)
  : M (option loc) :=
  match host with
  | None => ret None
  | Some h =>
    if (port =? 0)%Z then ret None
    else
      client <- alloc (BClient zero_client) ;;
      match client with
      | None => ret None
      | Some p =>
        let c := Client (Config LOGFLUX_CONN_TCP EmptyString (strncpy h 255)
                                port EmptyString 10000 3 1000)
                        (-1) false in
        store p (BClient c) ;;
        (* Auto-load shared secret for TCP connections *)
        r <- logflux_load_shared_secret (Some (shared_secret (config c))) 128 ;;
        store p (BClient
          (Client (set_config_secret (default EmptyString (snd r)) (config c))
                  (socket_fd c) (connected c))) ;;
        ret (Some p)
      end
  end.

Definition logflux_client_new_config (config : option logflux_config_t)
  : M (option loc) :=
  match config with
  | None => ret None
  | Some cfg =>
    client <- alloc (BClient zero_client) ;;
    match client with
    | None => ret None
    | Some p =>
      store p (BClient (Client cfg (-1) false)) ;;
      ret (Some p)
    end
  end.

Definition logflux_client_connect (client : option loc) : M logflux_error_t :=
  match client with
  | None => ret LOGFLUX_ERROR_INVALID_PARAM
  | Some p =>
    c <- load_client p ;;
    if connected c then ret LOGFLUX_OK
    else
      result <- (if (connection_type (config c) =? LOGFLUX_CONN_UNIX)%Z
                 then connect_unix_socket p
                 else connect_tcp_socket p) ;;
      (if is_ok result
       then update_client p (set_client_connected true)
       else ret tt) ;;
      ret result
  end.

Definition logflux_client_is_connected (client : option loc) : M bool :=
  match client with
  | None => ret false
  | Some p =>
    c <- load_client p ;;
    ret (connected c && (0 <=? socket_fd c)%Z)
  end.

Definition logflux_client_send_entry (client entry : option loc)
  : M logflux_error_t :=
  match client, entry with
  | Some p, Some e =>
    c <- load_client p ;;
    if negb (connected c) then ret LOGFLUX_ERROR_NOT_CONNECTED
    else
      let secret :=
        if (connection_type (config c) =? LOGFLUX_CONN_TCP)%Z
        then Some (shared_secret (config c)) else None in
      json <- entry_to_json e secret ;;
      match json with
      | None => ret LOGFLUX_ERROR_MEMORY
      | Some j =>
        result <- send_json_data p j ;;
        free (Some j) ;;
        ret result
      end
  | _, _ => ret LOGFLUX_ERROR_INVALID_PARAM
  end.

Definition logflux_client_send_log (client : option loc)
  (message : option string) : M logflux_error_t :=
  match client, message with
  | Some p, Some msg =>
    entry <- logflux_entry_new message ;;
    match entry with
    | None => ret LOGFLUX_ERROR_MEMORY
    | Some e =>
      result <- logflux_client_send_entry client entry ;;
      logflux_entry_free entry ;;
      ret result
    end
  | _, _ => ret LOGFLUX_ERROR_INVALID_PARAM
  end.

(** The loop of [logflux_client_send_batch]: entries [i .. i+n-1].  The
    array [entries] is given by the addresses [&entries[k]] of its
    elements; an index past its end is an access outside the array. *)
Fixpoint send_batch_loop (client : option loc) (entries : list loc)
  (i n : nat) : M logflux_error_t :=
  match n with
  | 0 => ret LOGFLUX_OK
  | S n' =>
    match entries !! i with
    | None => fault
    | Some e =>
      result <- logflux_client_send_entry client (Some e) ;;
      if negb (is_ok result) then ret result
      else send_batch_loop client entries (S i) n'
    end
  end.

Definition logflux_client_send_batch (client : option loc)
  (entries : option (list loc)) (count : nat) : M logflux_error_t :=
  match client, entries with
  | Some p, Some es =>
    if decide (count = 0) then ret LOGFLUX_ERROR_INVALID_PARAM
    else
      c <- load_client p ;;
      if negb (connected c) then ret LOGFLUX_ERROR_NOT_CONNECTED
      else
        (* For simplicity, send entries one by one *)
        send_batch_loop client es 0 count
  | _, _ => ret LOGFLUX_ERROR_INVALID_PARAM
  end.

Definition logflux_client_close (client : option loc) : M logflux_error_t :=
  match client with
  | None => ret LOGFLUX_ERROR_INVALID_PARAM
  | Some p =>
    c <- load_client p ;;
    (if (0 <=? socket_fd c)%Z then
       sys_close (socket_fd c) ;;
       update_client p (set_client_fd (-1))
     else ret tt) ;;
    update_client p (set_client_connected false) ;;
    ret LOGFLUX_OK
  end.

Definition logflux_client_free (client : option loc) : M unit :=
  match client with
  | None => ret tt
  | Some p =>
    logflux_client_close client ;;
    free client
  end.

(** * Properties *)

(** ** Basic facts about the monad and the allocator *)

Lemma bind_ret {A B} (m : M A) (k : A -> M B) (w w' : world) (a : A) :
  m w = Ret a w' -> bind m k w = k a w'.
Proof. unfold bind. by intros ->. Qed.

Lemma bind_fault {A B} (m : M A) (k : A -> M B) (w : world) :
  m w = Fault -> bind m k w = Fault.
Proof. unfold bind. by intros ->. Qed.

Lemma bind_inv {A B} (m : M A) (k : A -> M B) (w w2 : world) (b : B) :
  bind m k w = Ret b w2 -> exists a w1, m w = Ret a w1 /\ k a w1 = Ret b w2.
Proof. unfold bind. destruct (m w) as [a w1|]; [eauto | done]. Qed.

Lemma next_alloc_heap w : heap (next_alloc w).2 = heap w.
Proof. unfold next_alloc. by destruct (allocs w). Qed.

Lemma next_alloc_trace w : trace (next_alloc w).2 = trace w.
Proof. unfold next_alloc. by destruct (allocs w). Qed.

Lemma next_alloc_allocs w : allocs (next_alloc w).2 = tail (allocs w).
Proof. unfold next_alloc. by destruct (allocs w) eqn:E; simpl; rewrite ?E. Qed.

Lemma next_alloc_ok w : (next_alloc w).1 = hd true (allocs w).
Proof. unfold next_alloc. by destruct (allocs w). Qed.

(** The location an allocation in [w] returns. *)
Definition next_loc (w : world) : loc := fresh (dom (heap w)).

Lemma next_loc_fresh w : heap w !! next_loc w = None.
Proof. unfold next_loc. apply (not_elem_of_dom (D:=gset loc)). apply is_fresh. Qed.

Lemma alloc_success b w :
  hd true (allocs w) = true ->
  alloc b w = Ret (Some (next_loc w))
                  (set_heap (<[next_loc w := b]> (heap w)) (next_alloc w).2).
Proof.
  intros Hok. unfold alloc, next_loc.
  pose proof (next_alloc_ok w) as H1. pose proof (next_alloc_heap w) as H2.
  destruct (next_alloc w) as [ok w1]; simpl in *.
  rewrite H1, Hok, H2. done.
Qed.

Lemma alloc_failure b w :
  hd true (allocs w) = false ->
  alloc b w = Ret None (next_alloc w).2.
Proof.
  intros Hok. unfold alloc.
  pose proof (next_alloc_ok w) as H1.
  destruct (next_alloc w) as [ok w1]; simpl in *.
  by rewrite H1, Hok.
Qed.

Lemma load_client_at p c w :
  heap w !! p = Some (BClient c) -> load_client p w = Ret c w.
Proof. intros H. unfold load_client, bind, load. by rewrite H. Qed.

Lemma load_entry_at p e w :
  heap w !! p = Some (BEntry e) -> load_entry p w = Ret e w.
Proof. intros H. unfold load_entry, bind, load. by rewrite H. Qed.

Lemma store_at p b b0 w :
  heap w !! p = Some b0 ->
  store p b w = Ret tt (set_heap (<[p := b]> (heap w)) w).
Proof. intros H. unfold store. by rewrite H. Qed.

(** ** [logflux_entry_set_level] *)

(** C8. [set_level] answers [InvalidParam] when the entry is absent or the
    level is outside 0..7, and otherwise (entry present, level in 0..7) it
    succeeds and the entry's level is the given one, nothing else of the
    world changing. *)
Theorem set_level_total_on_valid (entry : option loc) (level : Z) (w : world) :
  ((entry = None \/ level < 0 \/ 7 < level)%Z ->
     logflux_entry_set_level entry level w
     = Ret LOGFLUX_ERROR_INVALID_PARAM w)
  /\
  (forall p e, entry = Some p -> heap w !! p = Some (BEntry e) ->
     (0 <= level <= 7)%Z ->
     logflux_entry_set_level entry level w
     = Ret LOGFLUX_OK (set_heap (<[p := BEntry (set_entry_level level e)]> (heap w)) w)
     /\ entry_level (set_entry_level level e) = level).
Proof.
  split.
  - intros H. unfold logflux_entry_set_level.
    destruct entry as [p|]; [|done].
    unfold LOGFLUX_LEVEL_EMERGENCY, LOGFLUX_LEVEL_DEBUG.
    destruct H as [H|[H|H]]; [done| |].
    + apply Z.ltb_lt in H. by rewrite H.
    + apply Z.ltb_lt in H. rewrite H. by rewrite orb_true_r.
  - intros p e -> Hp [Hlo Hhi]. split; [|done].
    unfold logflux_entry_set_level.
    unfold LOGFLUX_LEVEL_EMERGENCY, LOGFLUX_LEVEL_DEBUG.
    apply Z.ltb_ge in Hlo. apply Z.ltb_ge in Hhi. rewrite Hlo, Hhi. simpl.
    rewrite (bind_ret _ _ _ _ _ (load_entry_at _ _ _ Hp)).
    rewrite (bind_ret _ _ _ _ _ (store_at _ _ _ _ Hp)). done.
Qed.

(** ** [logflux_client_send_entry] on a client that is not connected *)

(** C5. On a client that is not connected, [send_entry] answers
    [NotConnected] and leaves the world as it was: nothing is allocated,
    encoded or written to a socket. *)
Theorem send_entry_not_connected (p e : loc) (c : logflux_client) (w : world) :
  heap w !! p = Some (BClient c) ->
  connected c = false ->
  logflux_client_send_entry (Some p) (Some e) w
  = Ret LOGFLUX_ERROR_NOT_CONNECTED w.
Proof.
  intros Hp Hc. unfold logflux_client_send_entry.
  rewrite (bind_ret _ _ _ _ _ (load_client_at _ _ _ Hp)).
  by rewrite Hc.
Qed.

(** ** [logflux_client_connect] *)

Lemma connect_connected (p : loc) (c : logflux_client) (w : world) :
  heap w !! p = Some (BClient c) ->
  connected c = true ->
  logflux_client_connect (Some p) w = Ret LOGFLUX_OK w.
Proof.
  intros Hp Hc. unfold logflux_client_connect.
  rewrite (bind_ret _ _ _ _ _ (load_client_at _ _ _ Hp)).
  by rewrite Hc.
Qed.

Lemma connect_ok_connected (p : loc) (w w1 : world) :
  logflux_client_connect (Some p) w = Ret LOGFLUX_OK w1 ->
  exists c, heap w1 !! p = Some (BClient c) /\ connected c = true.
Proof.
  unfold logflux_client_connect. intros H.
  apply bind_inv in H as (c & w0 & Hload & H).
  assert (w0 = w /\ heap w !! p = Some (BClient c)) as [-> Hp].
  { unfold load_client, bind, load, ret, fault in Hload.
    destruct (heap w !! p) as [[]|]; simplify_eq/=; done. }
  destruct (connected c) eqn:Hc.
  { unfold ret in H. simplify_eq. eauto. }
  apply bind_inv in H as (r & w2 & _ & H).
  apply bind_inv in H as (u & w3 & Hupd & H).
  unfold ret in H. simplify_eq. simpl in Hupd.
  unfold update_client in Hupd.
  apply bind_inv in Hupd as (c2 & w4 & Hload2 & Hst).
  unfold store in Hst. destruct (heap w4 !! p); simplify_eq/=.
  eexists. rewrite lookup_insert_eq. split; [done|done].
Qed.

(** C6. [connect] on a connected client answers [Success] at once and
    leaves the world as it was, so the client keeps its socket descriptor and
    stays connected; in particular a second [connect] after a successful one
    changes nothing. *)
Theorem connect_idempotent (p : loc) (w : world) :
  (forall c, heap w !! p = Some (BClient c) -> connected c = true ->
     logflux_client_connect (Some p) w = Ret LOGFLUX_OK w)
  /\
  (forall w1, logflux_client_connect (Some p) w = Ret LOGFLUX_OK w1 ->
     logflux_client_connect (Some p) w1 = Ret LOGFLUX_OK w1).
Proof.
  split.
  - intros c. apply connect_connected.
  - intros w1 H. apply connect_ok_connected in H as (c & Hp & Hc).
    by apply (connect_connected p c).
Qed.

(** ** Strings *)

Lemma str_app_cons (c : ascii) (s t : string) :
  String c s +:+ t = String c (s +:+ t).
Proof. reflexivity. Qed.

Lemma str_app_nil_l (t : string) : EmptyString +:+ t = t.
Proof. reflexivity. Qed.

Lemma str_app_assoc (s1 s2 s3 : string) :
  (s1 +:+ s2) +:+ s3 = s1 +:+ (s2 +:+ s3).
Proof.
  induction s1 as [|c s1 IH]; [done|].
  by rewrite !str_app_cons, IH.
Qed.

Lemma str_app_nil_r (s : string) : s +:+ EmptyString = s.
Proof.
  induction s as [|c s IH]; [done|]. by rewrite str_app_cons, IH.
Qed.

Lemma str_length_app (s1 s2 : string) :
  String.length (s1 +:+ s2) = String.length s1 + String.length s2.
Proof.
  induction s1 as [|c s1 IH]; [done|].
  rewrite str_app_cons. simpl. by rewrite IH.
Qed.

Lemma substring_all (n : nat) (s : string) :
  String.length s <= n -> String.substring 0 n s = s.
Proof.
  revert n. induction s as [|c s IH]; intros [|n] H; simpl in *;
    try done; try lia.
  rewrite IH; [done | lia].
Qed.

Lemma substring_length (n : nat) (s : string) :
  String.length (String.substring 0 n s) = n `min` String.length s.
Proof.
  revert n. induction s as [|c s IH]; intros [|n]; simpl; try done.
  by rewrite IH.
Qed.

Lemma substring_app_l (n : nat) (s t : string) :
  String.length s <= n ->
  String.substring 0 n (s +:+ t)
  = s +:+ String.substring 0 (n - String.length s) t.
Proof.
  revert n. induction s as [|c s IH]; intros n H; simpl in *.
  - by rewrite str_app_nil_l, Nat.sub_0_r.
  - destruct n as [|n]; [lia|]. rewrite !str_app_cons. simpl.
    rewrite IH; [done | lia].
Qed.

Lemma substring_app_ge (n : nat) (s t : string) :
  n <= String.length s ->
  String.substring 0 n (s +:+ t) = String.substring 0 n s.
Proof.
  revert n. induction s as [|c s IH]; intros n H; simpl in *.
  - assert (n = 0) as -> by lia. by destruct t.
  - destruct n as [|n]; [done|]. rewrite ?str_app_cons. simpl.
    rewrite IH; [done | lia].
Qed.

Lemma substring_min (n : nat) (t : string) :
  String.substring 0 (String.length t `min` n) t = String.substring 0 n t.
Proof.
  destruct (decide (n <= String.length t)) as [H|H].
  - by rewrite Nat.min_r.
  - rewrite Nat.min_l by lia. rewrite !substring_all; [done | lia | lia].
Qed.

(** ** The encoder's buffer *)

(** What a 4096-byte buffer holds of a text. *)
Definition trunc (s : string) : string := String.substring 0 4095 s.

(** The world [w] where the buffer [j] holds [s]. *)
Definition with_buf (j : loc) (s : string) (w : world) : world :=
  set_heap (<[j := BBuf buffer_size s]> (heap w)) w.

Lemma with_buf_with_buf j s1 s2 w :
  with_buf j s2 (with_buf j s1 w) = with_buf j s2 w.
Proof. unfold with_buf, set_heap. simpl. by rewrite insert_insert_eq. Qed.

Lemma with_buf_lookup j s w :
  heap (with_buf j s w) !! j = Some (BBuf buffer_size s).
Proof. unfold with_buf. simpl. by rewrite lookup_insert_eq. Qed.

Lemma with_buf_lookup_ne j s w l :
  l <> j -> heap (with_buf j s w) !! l = heap w !! l.
Proof. intros. unfold with_buf. simpl. by rewrite lookup_insert_ne. Qed.

Lemma with_buf_id j s w :
  heap w !! j = Some (BBuf buffer_size s) -> with_buf j s w = w.
Proof.
  intros H. unfold with_buf, set_heap. rewrite insert_id by done.
  by destruct w.
Qed.

Lemma size_sub_in_buffer (n : nat) :
  n <= 4096 ->
  size_sub buffer_size (Z.of_nat n) = (4096 - Z.of_nat n)%Z.
Proof.
  intros H. unfold size_sub, buffer_size. apply Z.mod_small. lia.
Qed.

(** One [snprintf] at the end of the text [P] emitted so far: while [P] has
    not run past the buffer, the buffer then holds what fits of [P +:+ t],
    and the call returns the full length of [t]. *)
Lemma snprintf_emit (j : loc) (P t : string) (w : world) :
  String.length P <= 4096 ->
  (Z.of_nat (String.length t) <= INT_MAX)%Z ->
  snprintf j (Z.of_nat (String.length P))
           (size_sub buffer_size (Z.of_nat (String.length P))) t
           (with_buf j (trunc P) w)
  = Ret (Z.of_nat (String.length t)) (with_buf j (trunc (P +:+ t)) w).
Proof.
  intros HP Ht. unfold snprintf.
  erewrite bind_ret; [| by unfold load; rewrite with_buf_lookup].
  rewrite size_sub_in_buffer by done.
  apply Z.leb_le in Ht. rewrite Ht.
  destruct (decide (String.length P = 4096)) as [Heq|Hne].
  - rewrite Heq. simpl. unfold ret. f_equal.
    unfold trunc. rewrite substring_app_ge by lia. done.
  - assert ((4096 - Z.of_nat (String.length P) =? 0)%Z = false) as ->
      by (apply Z.eqb_neq; lia).
    assert ((0 <=? Z.of_nat (String.length P))%Z = true) as ->
      by (apply Z.leb_le; lia).
    assert ((Z.of_nat (String.length P)
             + Z.of_nat (String.length t)
               `min` (4096 - Z.of_nat (String.length P) - 1) + 1
             <=? buffer_size)%Z = true) as ->
      by (apply Z.leb_le; unfold buffer_size; lia).
    simpl.
    assert (write_at (trunc P) (Z.to_nat (Z.of_nat (String.length P)))
              (String.substring 0
                 (Z.to_nat (Z.of_nat (String.length t)
                            `min` (4096 - Z.of_nat (String.length P) - 1))) t)
            = trunc (P +:+ t)) as ->.
    { unfold write_at, trunc.
      rewrite (substring_all 4095 P) by lia.
      rewrite Nat2Z.id. rewrite decide_True by lia.
      rewrite (substring_all _ P) by lia.
      rewrite substring_app_l by lia. f_equal.
      replace (Z.to_nat (Z.of_nat (String.length t)
                         `min` (4096 - Z.of_nat (String.length P) - 1)))
        with (String.length t `min` (4095 - String.length P)) by lia.
      apply substring_min. }
    erewrite (bind_ret _ _ _ (with_buf j (trunc (P +:+ t)) w) tt); [done|].
    unfold store. rewrite with_buf_lookup.
    f_equal. apply (with_buf_with_buf j (trunc P) (trunc (P +:+ t)) w).
Qed.

Lemma length_emit (P t : string) :
  (Z.of_nat (String.length P) + Z.of_nat (String.length t))%Z
  = Z.of_nat (String.length (P +:+ t)).
Proof. rewrite str_length_app. lia. Qed.

Lemma snprintf_bind {B} (j : loc) (P t : string) (w : world) (k : Z -> M B) :
  String.length P <= 4096 ->
  String.length t <= 4096 ->
  bind (snprintf j (Z.of_nat (String.length P))
                 (size_sub buffer_size (Z.of_nat (String.length P))) t) k
       (with_buf j (trunc P) w)
  = k (Z.of_nat (String.length t)) (with_buf j (trunc (P +:+ t)) w).
Proof.
  intros HP Ht. apply bind_ret, snprintf_emit; [done|].
  unfold INT_MAX. lia.
Qed.

(** Reads are not disturbed by the buffer, a block of its own. *)
Lemma read_str_fresh h (j : loc) b p s :
  h !! j = None -> read_str h p = Some s ->
  read_str (<[j := b]> h) p = Some s.
Proof.
  intros Hj. unfold read_str. destruct p as [l|]; [|done].
  destruct (decide (l = j)) as [->|Hne].
  - by rewrite Hj.
  - by rewrite lookup_insert_ne.
Qed.

Lemma read_cell_fresh h (j : loc) b arr i s :
  h !! j = None -> read_cell h arr i = Some s ->
  read_cell (<[j := b]> h) arr i = Some s.
Proof.
  intros Hj. unfold read_cell. destruct arr as [a|]; [|done].
  destruct (decide (a = j)) as [->|Hne].
  - by rewrite Hj.
  - rewrite lookup_insert_ne by done.
    destruct (h !! a) as [[]|]; try done.
    destruct (cells !! i); [|done]. by apply read_str_fresh.
Qed.

Lemma load_str_with_buf j s0 w p s :
  heap w !! j = None -> read_str (heap w) p = Some s ->
  load_str p (with_buf j s0 w) = Ret s (with_buf j s0 w).
Proof.
  intros Hj Hs. unfold load_str. simpl.
  by rewrite (read_str_fresh _ _ _ _ _ Hj Hs).
Qed.

Lemma load_cell_str_with_buf j s0 w arr i s :
  heap w !! j = None -> read_cell (heap w) arr i = Some s ->
  load_cell_str arr i (with_buf j s0 w) = Ret s (with_buf j s0 w).
Proof.
  intros Hj Hs. unfold load_cell_str. simpl.
  by rewrite (read_cell_fresh _ _ _ _ _ _ Hj Hs).
Qed.

(** The text the label loop emits for the pairs [ls], the first of which
    has index [i]. *)
Fixpoint labels_text (i : nat) (ls : list (string * string)) : string :=
  match ls with
  | [] => EmptyString
  | kv :: rest =>
    (if decide (0 < i) then "," else EmptyString)
    +:+ fmt_label kv.1 kv.2 +:+ labels_text (S i) rest
  end.

Lemma json_labels_emit (j : loc) (e : logflux_entry) (w : world) :
  heap w !! j = None ->
  forall (n i : nat) (ls : list (string * string)) (P : string),
  Forall2 (fun x y => read_label (heap w) e x = Some y) (seq i n) ls ->
  String.length (P +:+ labels_text i ls) <= 4096 ->
  json_labels j e i n (Z.of_nat (String.length P)) (with_buf j (trunc P) w)
  = Ret (Z.of_nat (String.length (P +:+ labels_text i ls)))
        (with_buf j (trunc (P +:+ labels_text i ls)) w).
Proof.
  intros Hj. induction n as [|n IH]; intros i ls P Hread Hlen.
  - apply Forall2_nil_inv_l in Hread as ->. simpl.
    by rewrite str_app_nil_r.
  - simpl in Hread. apply Forall2_cons_inv_l in Hread
      as ([k v] & ls' & Hkv & Hrest & ->).
    unfold read_label in Hkv.
    destruct (read_cell (heap w) (labels_keys e) i) as [k'|] eqn:Hk; [|done].
    destruct (read_cell (heap w) (labels_values e) i) as [v'|] eqn:Hv;
      [|done].
    simplify_eq.
    simpl labels_text in *. simpl json_labels.
    set (sep := if decide (0 < i) then "," else EmptyString) in *.
    rewrite <- !str_app_assoc in *.
    rewrite !str_length_app in Hlen.
    assert ((len <- (if decide (0 < i)
                     then c <- snprintf j (Z.of_nat (String.length P))
                            (size_sub buffer_size
                               (Z.of_nat (String.length P))) "," ;;
                          ret (Z.of_nat (String.length P) + c)%Z
                     else ret (Z.of_nat (String.length P))) ;;
             k0 <- load_cell_str (labels_keys e) i ;;
             v0 <- load_cell_str (labels_values e) i ;;
             c <- snprintf j len (size_sub buffer_size len)
                    (fmt_label k0 v0) ;;
             json_labels j e (S i) n (len + c)%Z)
              (with_buf j (trunc P) w)
            = json_labels j e (S i) n
                (Z.of_nat (String.length ((P +:+ sep) +:+ fmt_label k v)))
                (with_buf j (trunc ((P +:+ sep) +:+ fmt_label k v)) w)) as ->.
    { assert (forall K : Z -> M Z,
        bind (if decide (0 < i)
              then c <- snprintf j (Z.of_nat (String.length P))
                     (size_sub buffer_size (Z.of_nat (String.length P)))
                     "," ;;
                   ret (Z.of_nat (String.length P) + c)%Z
              else ret (Z.of_nat (String.length P))) K
             (with_buf j (trunc P) w)
        = K (Z.of_nat (String.length (P +:+ sep)))
            (with_buf j (trunc (P +:+ sep)) w)) as Hfirst.
      { intros K. subst sep. destruct (decide (0 < i)).
        - unfold bind at 1. rewrite snprintf_bind; [|lia|simpl; lia].
          unfold ret. by rewrite length_emit.
        - unfold bind, ret. by rewrite str_app_nil_r. }
      rewrite Hfirst.
      erewrite bind_ret; [| by apply load_cell_str_with_buf].
      erewrite bind_ret; [| by apply load_cell_str_with_buf].
      rewrite snprintf_bind; [| rewrite str_length_app; lia | lia].
      by rewrite length_emit. }
    apply IH; [done|]. rewrite !str_length_app. lia.
Qed.

(** The text [entry_to_json] builds, piece by piece as the code emits it. *)
Definition secret_text (secret : option string) : string :=
  match secret with
  | Some s => if decide (0 < String.length s) then fmt_secret s else EmptyString
  | None => EmptyString
  end.

Definition labels_part (ls : list (string * string)) : string :=
  if decide (0 < length ls)
  then fmt_labels_open +:+ labels_text 0 ls +:+ "}"
  else EmptyString.

Definition json_text (v : entry_view) (secret : option string) : string :=
  fmt_header (view_id v) (view_message v) (view_source v)
             (view_type v) (view_level v) (view_timestamp v)
  +:+ secret_text secret +:+ labels_part (view_labels v) +:+ "}".

Lemma snprintf_first {B} (j : loc) (t : string) (w : world) (k : Z -> M B) :
  String.length t <= 4096 ->
  bind (snprintf j 0 buffer_size t) k (with_buf j EmptyString w)
  = k (Z.of_nat (String.length t)) (with_buf j (trunc t) w).
Proof.
  intros Ht.
  exact (snprintf_bind j EmptyString t w k (Nat.le_0_l _) Ht).
Qed.

Lemma read_entry_inv h p v :
  read_entry h p = Some v ->
  exists e, h !! p = Some (BEntry e)
    /\ read_str h (entry_id e) = Some (view_id v)
    /\ read_str h (entry_message e) = Some (view_message v)
    /\ read_str h (entry_source e) = Some (view_source v)
    /\ entry_level e = view_level v
    /\ entry_type e = view_type v
    /\ entry_timestamp e = view_timestamp v
    /\ read_labels h e = Some (view_labels v).
Proof.
  unfold read_entry. intros H.
  destruct (h !! p) as [[| | |e|]|]; try done.
  destruct (read_str h (entry_id e)) eqn:E1; [|done].
  destruct (read_str h (entry_message e)) eqn:E2; [|done].
  destruct (read_str h (entry_source e)) eqn:E3; [|done].
  destruct (read_labels h e) eqn:E4; [|done].
  simplify_eq. exists e. simpl. done.
Qed.

Lemma read_labels_inv h e ls :
  read_labels h e = Some ls ->
  length ls = labels_count e
  /\ Forall2 (fun x y => read_label h e x = Some y) (seq 0 (labels_count e)) ls.
Proof.
  unfold read_labels. intros H. apply mapM_Some_1 in H.
  split; [|done].
  apply Forall2_length in H. by rewrite length_seq in H.
Qed.

(** The encoder on an entry whose text is at most 4097 characters: the
    buffer it returns holds the first 4095 characters of the text. *)
Lemma entry_to_json_text (entry : loc) (secret : option string)
  (w : world) (v : entry_view) :
  read_entry (heap w) entry = Some v ->
  hd true (allocs w) = true ->
  String.length (json_text v secret) <= 4097 ->
  entry_to_json entry secret w
  = Ret (Some (next_loc w))
        (with_buf (next_loc w) (trunc (json_text v secret)) (next_alloc w).2).
Proof.
  intros Hv Hok Hlen.
  apply read_entry_inv in Hv
    as (e & He & Hid & Hmsg & Hsrc & Hlvl & Hty & Hts & Hls).
  apply read_labels_inv in Hls as [Hcount Hls].
  unfold json_text in *.
  set (hdr := fmt_header _ _ _ _ _ _) in *.
  rewrite !str_length_app in Hlen.
  change (String.length "}") with 1 in Hlen.
  pose proof (next_loc_fresh w) as Hj.
  pose proof (next_alloc_heap w) as Hheap.
  set (j := next_loc w) in *. set (w0 := (next_alloc w).2) in *.
  rewrite <- Hheap in *.
  unfold entry_to_json.
  erewrite bind_ret; [| apply alloc_success, Hok].
  fold j w0. rewrite <- Hheap.
  change (set_heap (<[j:=BBuf buffer_size EmptyString]> (heap w0)) w0)
    with (with_buf j EmptyString w0).
  erewrite (bind_ret _ _ _ _ e).
  2:{ apply load_entry_at. rewrite with_buf_lookup_ne; [done|].
      intros ->. by rewrite Hj in He. }
  erewrite bind_ret; [| by apply load_str_with_buf].
  erewrite bind_ret; [| by apply load_str_with_buf].
  erewrite bind_ret; [| by apply load_str_with_buf].
  rewrite Hty, Hlvl, Hts. fold hdr.
  rewrite snprintf_first by lia.
  (* the secret *)
  assert (forall K : Z -> M (option loc),
    bind (match secret with
          | Some s =>
            if decide (0 < String.length s)
            then c <- snprintf j (Z.of_nat (String.length hdr))
                   (size_sub buffer_size (Z.of_nat (String.length hdr)))
                   (fmt_secret s) ;;
                 ret (Z.of_nat (String.length hdr) + c)%Z
            else ret (Z.of_nat (String.length hdr))
          | None => ret (Z.of_nat (String.length hdr))
          end) K (with_buf j (trunc hdr) w0)
    = K (Z.of_nat (String.length (hdr +:+ secret_text secret)))
        (with_buf j (trunc (hdr +:+ secret_text secret)) w0)) as ->.
  { intros K. unfold secret_text in *. destruct secret as [s|].
    - destruct (decide (0 < String.length s)).
      + unfold bind at 1. rewrite snprintf_bind by lia.
        unfold ret. by rewrite length_emit.
      + unfold bind, ret. by rewrite str_app_nil_r.
    - unfold bind, ret. by rewrite str_app_nil_r. }
  set (P2 := hdr +:+ secret_text secret).
  assert (String.length P2 = String.length hdr
                             + String.length (secret_text secret)) as HP2
    by apply str_length_app.
  (* the labels *)
  assert (forall K : Z -> M (option loc),
    bind (if decide (0 < labels_count e)
          then c <- snprintf j (Z.of_nat (String.length P2))
                 (size_sub buffer_size (Z.of_nat (String.length P2)))
                 fmt_labels_open ;;
               len <- json_labels j e 0 (labels_count e)
                        (Z.of_nat (String.length P2) + c)%Z ;;
               c0 <- snprintf j len (size_sub buffer_size len) "}" ;;
               ret (len + c0)%Z
          else ret (Z.of_nat (String.length P2)))
         K (with_buf j (trunc P2) w0)
    = K (Z.of_nat (String.length (P2 +:+ labels_part (view_labels v))))
        (with_buf j (trunc (P2 +:+ labels_part (view_labels v))) w0)) as ->.
  { intros K. unfold labels_part in *. rewrite Hcount in *.
    destruct (decide (0 < labels_count e)).
    - rewrite !str_length_app in Hlen.
      change (String.length "}") with 1 in Hlen.
      unfold bind at 1. rewrite snprintf_bind by lia.
      rewrite length_emit.
      erewrite bind_ret.
      2:{ apply json_labels_emit; [done|done|].
          rewrite !str_length_app. lia. }
      rewrite snprintf_bind;
        [| rewrite !str_length_app; lia | simpl; lia].
      unfold ret. rewrite length_emit.
      by rewrite !str_app_assoc.
    - unfold bind, ret. by rewrite str_app_nil_r. }
  set (P3 := P2 +:+ labels_part (view_labels v)).
  assert (String.length P3 = String.length P2
            + String.length (labels_part (view_labels v))) as HP3
    by apply str_length_app.
  rewrite snprintf_bind; [| lia | simpl; lia].
  unfold ret. subst P3 P2. by rewrite !str_app_assoc.
Qed.

(** ** The transport of one payload *)

Lemma next_alloc_snd w : (next_alloc w).2 = set_allocs (tail (allocs w)) w.
Proof. destruct w as [h a s t u c en fl ip mv]. by destruct a. Qed.

Lemma next_loc_set_allocs a w : next_loc (set_allocs a w) = next_loc w.
Proof. done. Qed.

(** What [send] answers in [w] to a request for [len] bytes. *)
Definition send_result (len : Z) (w : world) : Z := hd len (syscalls w).

Definition send_status (sent total_len : Z) : logflux_error_t :=
  if (sent <? 0)%Z || negb (sent =? total_len)%Z
  then LOGFLUX_ERROR_CONNECTION else LOGFLUX_OK.

Lemma send_json_data_run (p j : loc) (c : logflux_client) (cap : Z)
  (text : string) (w : world) :
  heap w !! p = Some (BClient c) ->
  heap w !! j = Some (BBuf cap text) ->
  hd true (allocs w) = true ->
  let total_len := (Z.of_nat (String.length text) + 1)%Z in
  let sent := send_result total_len w in
  send_json_data p j w
  = Ret (send_status sent total_len)
        (set_trace (trace w ++ [EvSend (socket_fd c) (text +:+ newline) sent])
           (set_syscalls (tail (syscalls w))
              (set_allocs (tail (allocs w)) w))).
Proof.
  intros Hp Hj Hok total_len sent.
  unfold send_json_data.
  erewrite bind_ret; [| by unfold load; rewrite Hj].
  cbv beta iota.
  erewrite bind_ret; [| by apply alloc_success].
  cbv beta iota.
  fold total_len. rewrite next_alloc_snd.
  set (d := next_loc w).
  pose proof (next_loc_fresh w) as Hd. fold d in Hd.
  assert (p <> d) as Hpd by (intros ->; by rewrite Hd in Hp).
  set (w1 := set_heap _ _).
  assert (snprintf d 0 (total_len + 1) (text +:+ newline) w1
          = Ret (if (Z.of_nat (String.length (text +:+ newline)) <=? INT_MAX)%Z
                 then Z.of_nat (String.length (text +:+ newline)) else (-1)%Z)
                (set_heap (<[d := BBuf (total_len + 1) (text +:+ newline)]>
                             (heap w))
                          (set_allocs (tail (allocs w)) w))) as Hsn.
  { unfold snprintf.
    erewrite bind_ret;
      [| by unfold load; subst w1; simpl; rewrite lookup_insert_eq].
    assert (Z.of_nat (String.length (text +:+ newline)) = total_len) as Hlen.
    { rewrite str_length_app. simpl. subst total_len. lia. }
    rewrite Hlen.
    assert ((total_len + 1 =? 0)%Z = false) as ->
      by (apply Z.eqb_neq; subst total_len; lia).
    replace (total_len `min` (total_len + 1 - 1))%Z with total_len by lia.
    assert ((0 <=? 0)%Z && (0 + total_len + 1 <=? total_len + 1)%Z = true)
      as -> by (apply andb_true_iff; split; apply Z.leb_le; lia).
    erewrite bind_ret; [done|].
    unfold store. subst w1. simpl. rewrite lookup_insert_eq.
    unfold set_heap. simpl. rewrite insert_insert_eq.
    unfold write_at. rewrite decide_True by (simpl; lia).
    simpl String.substring at 1. rewrite str_app_nil_l.
    rewrite substring_all; [done|]. lia. }
  erewrite bind_ret; [| exact Hsn].
  erewrite (bind_ret _ _ _ _ c).
  2:{ apply load_client_at. simpl. by rewrite lookup_insert_ne. }
  erewrite bind_ret;
    [| by unfold load; simpl; rewrite lookup_insert_eq].
  cbv beta iota.
  unfold sys_send, next_syscall, emit, free, bind, ret. simpl.
  fold sent. fold (send_status sent total_len).
  destruct (syscalls w) as [|r rest] eqn:Hsys; simpl;
    rewrite lookup_insert_eq; f_equal;
    unfold set_heap, set_trace, set_syscalls, set_allocs; simpl;
    rewrite delete_insert_id by done; rewrite ?Hsys;
    subst sent; unfold send_result, send_status; rewrite Hsys; simpl;
    by destruct (_ || _).
Qed.

(** The secret [logflux_client_send_entry] hands to the encoder. *)
Definition client_secret (c : logflux_client) : option string :=
  if (connection_type (config c) =? LOGFLUX_CONN_TCP)%Z
  then Some (shared_secret (config c)) else None.

(** [send_entry] on a connected client, when its two allocations succeed
    and the text is at most 4097 characters: one [send] of what the buffer
    holds and a newline; all memory is released again. *)
Lemma send_entry_run (p e : loc) (c : logflux_client) (v : entry_view)
  (w : world) :
  heap w !! p = Some (BClient c) ->
  connected c = true ->
  read_entry (heap w) e = Some v ->
  hd true (allocs w) = true ->
  hd true (tail (allocs w)) = true ->
  String.length (json_text v (client_secret c)) <= 4097 ->
  let payload := trunc (json_text v (client_secret c)) in
  let total_len := (Z.of_nat (String.length payload) + 1)%Z in
  let sent := send_result total_len w in
  logflux_client_send_entry (Some p) (Some e) w
  = Ret (send_status sent total_len)
        (set_trace (trace w ++ [EvSend (socket_fd c) (payload +:+ newline) sent])
           (set_syscalls (tail (syscalls w))
              (set_allocs (tail (tail (allocs w))) w))).
Proof.
  intros Hp Hc Hv Hok1 Hok2 Hlen payload total_len sent.
  unfold logflux_client_send_entry.
  erewrite bind_ret; [| by apply load_client_at].
  rewrite Hc. change (negb true) with false. cbv beta iota zeta.
  fold (client_secret c).
  erewrite bind_ret; [| by apply entry_to_json_text].
  cbv beta iota. fold payload. rewrite next_alloc_snd.
  pose proof (next_loc_fresh w) as Hj. set (j := next_loc w) in *.
  assert (p <> j) as Hpj by (intros ->; by rewrite Hj in Hp).
  erewrite bind_ret.
  2:{ eapply (send_json_data_run p j c buffer_size payload).
      - rewrite with_buf_lookup_ne; done.
      - apply with_buf_lookup.
      - done. }
  unfold free, bind, ret. simpl. rewrite lookup_insert_eq.
  f_equal. unfold set_heap, set_trace, set_syscalls, set_allocs. simpl.
  by rewrite delete_insert_id.
Qed.

(** ** The wire format, as the specification words it *)

Definition json_string_field (key value : string) : string :=
  quoted key +:+ ":" +:+ quoted value.

Definition json_number_field (key : string) (n : Z) : string :=
  quoted key +:+ ":" +:+ pretty n.

(** A JSON object: its fields, comma-separated, between braces. *)
Definition json_object (fields : list string) : string :=
  "{" +:+ String.concat "," fields +:+ "}".

(** [shared_secret] is included iff a non-empty secret was supplied. *)
Definition secret_field (secret : option string) : list string :=
  match secret with
  | Some s =>
    if decide (s = EmptyString) then []
    else [json_string_field "shared_secret" s]
  | None => []
  end.

(** [labels] is included iff at least one label exists: a nested object of
    the pairs in insertion order, duplicates and all. *)
Definition labels_field (ls : list (string * string)) : list string :=
  match ls with
  | [] => []
  | _ :: _ =>
    [quoted "labels" +:+ ":"
     +:+ json_object (map (fun kv => json_string_field kv.1 kv.2) ls)]
  end.

Definition wire_payload (v : entry_view) (secret : option string) : string :=
  json_object
    ([json_string_field "id" (view_id v);
      json_string_field "message" (view_message v);
      json_string_field "source" (view_source v);
      json_number_field "entry_type" (view_type v);
      json_number_field "level" (view_level v);
      json_number_field "timestamp" (view_timestamp v)]
     ++ secret_field secret ++ labels_field (view_labels v)).

Lemma concat_cons2 (sep x y : string) (l : list string) :
  String.concat sep (x :: y :: l) = x +:+ sep +:+ String.concat sep (y :: l).
Proof. reflexivity. Qed.

Lemma labels_text_cons (i : nat) kv (ls : list (string * string)) :
  labels_text i (kv :: ls)
  = (if decide (0 < i) then "," else EmptyString)
    +:+ fmt_label kv.1 kv.2 +:+ labels_text (S i) ls.
Proof. reflexivity. Qed.

Lemma labels_text_succ (i : nat) (ls : list (string * string)) :
  0 < i ->
  labels_text i ls
  = match ls with
    | [] => EmptyString
    | _ :: _ =>
      "," +:+ String.concat ","
                (map (fun kv => json_string_field kv.1 kv.2) ls)
    end.
Proof.
  revert i. induction ls as [|kv ls IH]; intros i Hi; [done|].
  rewrite labels_text_cons. rewrite decide_True by done.
  rewrite (IH (S i)) by lia.
  destruct ls as [|kv' ls]; simpl map.
  - by rewrite str_app_nil_r.
  - rewrite concat_cons2. done.
Qed.

Lemma labels_text_0 (kv : string * string) (ls : list (string * string)) :
  labels_text 0 (kv :: ls)
  = String.concat "," (map (fun kv => json_string_field kv.1 kv.2) (kv :: ls)).
Proof.
  rewrite labels_text_cons. rewrite decide_False by lia.
  rewrite str_app_nil_l, labels_text_succ by lia.
  destruct ls as [|kv' ls]; simpl map.
  - by rewrite str_app_nil_r.
  - by rewrite concat_cons2.
Qed.

(** The text the code builds is the payload of the specification. *)
Lemma json_text_wire_payload (v : entry_view) (secret : option string) :
  json_text v secret = wire_payload v secret.
Proof.
  unfold json_text, wire_payload, json_object, fmt_header.
  assert (secret_text secret
          = match secret_field secret with
            | [] => EmptyString
            | f :: _ => "," +:+ f
            end
          /\ (secret_field secret = []
              \/ exists f, secret_field secret = [f])) as [-> Hs].
  { unfold secret_text, secret_field. destruct secret as [s|]; [|by auto].
    destruct (decide (0 < String.length s)) as [H|H],
      (decide (s = EmptyString)) as [E|E].
    - subst. simpl in H. lia.
    - split; [done | eauto].
    - auto.
    - destruct s; simpl in H; [done | lia]. }
  assert (labels_part (view_labels v)
          = match labels_field (view_labels v) with
            | [] => EmptyString
            | f :: _ => "," +:+ f
            end
          /\ (labels_field (view_labels v) = []
              \/ exists f, labels_field (view_labels v) = [f])) as [-> Hl].
  { unfold labels_part, labels_field. destruct (view_labels v) as [|kv ls].
    - rewrite decide_False by (simpl; lia). auto.
    - rewrite decide_True by (simpl; lia). rewrite labels_text_0.
      split; [| eauto].
      unfold fmt_labels_open, json_object. by rewrite !str_app_assoc. }
  destruct Hs as [-> | [fs ->]], Hl as [-> | [fl ->]]; simpl app;
    rewrite ?concat_cons2; unfold json_string_field, json_number_field;
    rewrite ?str_app_assoc, ?str_app_nil_l; reflexivity.
Qed.

(** ** Concrete runs *)

(** A world with an empty heap, an allocator and sockets that never fail,
    no environment variable and no file. *)
Definition empty_world : world :=
  World ∅ [] [] [] [] 1700000000
        (fun _ => None) (fun _ => None) (fun _ => 1%Z) true.

(** What a program leaves of [empty_world]. *)
Definition run {A} (m : M A) : option (A * world) :=
  match m empty_world with
  | Ret a w => Some (a, w)
  | Fault => None
  end.

Fixpoint filler (n : nat) : string :=
  match n with
  | 0 => EmptyString
  | S n' => String "x"%char (filler n')
  end.

(** An entry with two labels under the same key, and a connected TCP client
    without secret. *)
Definition sample_program : M (loc * loc) :=
  e <- logflux_entry_new (Some "hello") ;;
  logflux_entry_add_label e (Some "a") (Some "1") ;;
  logflux_entry_add_label e (Some "a") (Some "2") ;;
  c <- logflux_client_new_tcp (Some "127.0.0.1") 8080 ;;
  logflux_client_connect c ;;
  match e, c with
  | Some e, Some c => ret (e, c)
  | _, _ => fault
  end.

Definition sample_entry : loc :=
  Eval vm_compute in
    match run sample_program with Some (ec, _) => ec.1 | None => 1%positive end.
Definition sample_client : loc :=
  Eval vm_compute in
    match run sample_program with Some (ec, _) => ec.2 | None => 1%positive end.
Definition sample_world : world :=
  match run sample_program with Some (_, w) => w | None => empty_world end.

Definition sample_view : entry_view :=
  View nil_uuid "hello" "c-sdk" 6 1 1700000000 [("a", "1"); ("a", "2")].

(** An entry whose text is 4096 characters long: one more than fits. *)
Definition long_message : string := filler 3973.
Definition long_entry : loc :=
  Eval vm_compute in
    match run (logflux_entry_new (Some long_message)) with
    | Some (Some e, _) => e
    | _ => 1%positive
    end.
Definition long_world : world :=
  match run (logflux_entry_new (Some long_message)) with
  | Some (_, w) => w
  | None => empty_world
  end.
Definition long_view : entry_view :=
  View nil_uuid long_message "c-sdk" 6 1 1700000000 [].

(** An entry with a label whose text is 4097 characters long. *)
Definition labelled_program : M loc :=
  e <- logflux_entry_new (Some (filler 3955)) ;;
  logflux_entry_add_label e (Some "k") (Some "v") ;;
  match e with Some e => ret e | None => fault end.
Definition labelled_world : world :=
  match run labelled_program with Some (_, w) => w | None => empty_world end.
Definition labelled_view : entry_view :=
  View nil_uuid (filler 3955) "c-sdk" 6 1 1700000000 [("k", "v")].

(** ** The wire encoder *)

(** C1, as amended.  For every entry, read through its pointers as [v], and
    every optional secret: when the buffer is allocated and the payload is
    at most 4095 characters, the encoder returns a buffer that holds
    exactly [wire_payload v secret], the JSON object with the keys id,
    message, source, entry_type, level, timestamp in this order, then
    shared_secret iff a non-empty secret was supplied, then labels iff there
    is a label, its pairs in insertion order and not deduplicated.
    [send_entry] on a connected client supplies the configured secret iff
    the connection type is TCP, and sends this payload and a newline. *)
Theorem encoder_wire_format (entry : loc) (secret : option string)
  (w : world) (v : entry_view) :
  read_entry (heap w) entry = Some v ->
  hd true (allocs w) = true ->
  String.length (wire_payload v secret) <= 4095 ->
  entry_to_json entry secret w
  = Ret (Some (next_loc w))
        (with_buf (next_loc w) (wire_payload v secret) (next_alloc w).2)
  /\
  (forall (p : loc) (c : logflux_client),
     heap w !! p = Some (BClient c) ->
     connected c = true ->
     secret = client_secret c ->
     hd true (tail (allocs w)) = true ->
     let total_len :=
       (Z.of_nat (String.length (wire_payload v secret)) + 1)%Z in
     let sent := send_result total_len w in
     logflux_client_send_entry (Some p) (Some entry) w
     = Ret (send_status sent total_len)
           (set_trace
              (trace w ++ [EvSend (socket_fd c)
                                  (wire_payload v secret +:+ newline) sent])
              (set_syscalls (tail (syscalls w))
                 (set_allocs (tail (tail (allocs w))) w))))
  /\
  (forall c : logflux_client,
     secret_field (client_secret c) <> []
     <-> connection_type (config c) = LOGFLUX_CONN_TCP
         /\ shared_secret (config c) <> EmptyString).
Proof.
  intros Hv Hok Hlen.
  assert (trunc (json_text v secret) = wire_payload v secret) as Htr.
  { rewrite json_text_wire_payload. by apply substring_all. }
  split; [|split].
  - rewrite <- Htr. apply entry_to_json_text; [done | done |].
    rewrite json_text_wire_payload. lia.
  - intros p c Hp Hc -> Hok2 total_len sent.
    pose proof (send_entry_run p entry c v w Hp Hc Hv Hok Hok2) as Hrun.
    rewrite Htr in Hrun. apply Hrun.
    rewrite json_text_wire_payload. lia.
  - intros c. unfold client_secret, secret_field.
    destruct (connection_type (config c) =? LOGFLUX_CONN_TCP)%Z eqn:Hty.
    + apply Z.eqb_eq in Hty.
      destruct (decide (shared_secret (config c) = EmptyString)) as [E|E].
      * split; [done | by intros [_ ?]].
      * split; [done | by intros _].
    + apply Z.eqb_neq in Hty. split; [done | by intros [? _]].
Qed.

Lemma encoder_wire_format_witness :
  entry_to_json sample_entry (Some EmptyString) sample_world
  = Ret (Some (next_loc sample_world))
        (with_buf (next_loc sample_world)
           (wire_payload sample_view (Some EmptyString))
           (next_alloc sample_world).2).
Proof.
  apply (encoder_wire_format sample_entry (Some EmptyString) sample_world
           sample_view).
  - vm_compute. reflexivity.
  - vm_compute. reflexivity.
  - apply Nat.leb_le. vm_compute. reflexivity.
Defined.

(** C1, as stated, fails: the entry of [long_world] has a payload of 4096
    characters, and the buffer the encoder returns holds 4095 characters,
    without the closing brace, not the payload. *)
Lemma encoder_drops_closing_brace :
  read_entry (heap long_world) long_entry = Some long_view
  /\ exists (j : loc) (w' : world) (s : string),
       entry_to_json long_entry None long_world = Ret (Some j) w'
       /\ heap w' !! j = Some (BBuf buffer_size s)
       /\ String.length s = 4095
       /\ String.length (wire_payload long_view None) = 4096
       /\ s <> wire_payload long_view None.
Proof.
  split; [vm_compute; reflexivity|].
  pose proof (entry_to_json_text long_entry None long_world long_view) as H.
  eexists _, _, _. split; [apply H|].
  - vm_compute. reflexivity.
  - vm_compute. reflexivity.
  - apply Nat.leb_le. vm_compute. reflexivity.
  - rewrite with_buf_lookup. split; [done|].
    assert (String.length (wire_payload long_view None) = 4096) as Hlen
      by (vm_compute; reflexivity).
    assert (String.length (trunc (json_text long_view None)) = 4095) as Hs.
    { unfold trunc. rewrite substring_length, json_text_wire_payload, Hlen.
      reflexivity. }
    split; [done|]. split; [done|].
    intros Heq. rewrite Heq, Hlen in Hs. lia.
Qed.

Definition labelled_entry : loc :=
  Eval vm_compute in
    match run labelled_program with Some (e, _) => e | None => 1%positive end.

Lemma entry_to_json_alloc_failure (entry : loc) (secret : option string)
  (w : world) :
  hd true (allocs w) = false ->
  entry_to_json entry secret w = Ret None (next_alloc w).2.
Proof.
  intros H. unfold entry_to_json.
  erewrite bind_ret; [| by apply alloc_failure]. done.
Qed.

(** C2, as amended.  The encoder answers no output only when the allocation
    of its buffer fails.  For an entry whose payload is 4096 or 4097
    characters long, one or two more than the buffer holds, it returns the
    buffer with the first 4095 characters of the payload: a truncated
    payload and no failure. *)
Theorem encoder_truncates_silently (entry : loc) (secret : option string)
  (w : world) (v : entry_view) :
  read_entry (heap w) entry = Some v ->
  4095 < String.length (wire_payload v secret) <= 4097 ->
  (hd true (allocs w) = true ->
   entry_to_json entry secret w
   = Ret (Some (next_loc w))
         (with_buf (next_loc w)
            (String.substring 0 4095 (wire_payload v secret))
            (next_alloc w).2)
   /\ String.length (String.substring 0 4095 (wire_payload v secret)) = 4095)
  /\
  (hd true (allocs w) = false ->
   entry_to_json entry secret w = Ret None (next_alloc w).2).
Proof.
  intros Hv [Hlo Hhi]. split.
  - intros Hok. split.
    + rewrite <- json_text_wire_payload.
      apply entry_to_json_text; [done | done |].
      rewrite json_text_wire_payload. lia.
    + rewrite substring_length. lia.
  - apply entry_to_json_alloc_failure.
Qed.

Lemma encoder_truncates_silently_witness :
  entry_to_json labelled_entry None labelled_world
  = Ret (Some (next_loc labelled_world))
        (with_buf (next_loc labelled_world)
           (String.substring 0 4095 (wire_payload labelled_view None))
           (next_alloc labelled_world).2)
  /\ String.length
       (String.substring 0 4095 (wire_payload labelled_view None)) = 4095.
Proof.
  apply (encoder_truncates_silently labelled_entry None labelled_world
           labelled_view).
  - vm_compute. reflexivity.
  - split; apply Nat.leb_le; vm_compute; reflexivity.
  - vm_compute. reflexivity.
Defined.

(** C2, as stated, fails: the payload of the entry of [labelled_world] has
    4097 characters and does not fit the buffer, yet the encoder returns a
    buffer, which holds 4095 characters. *)
Lemma encoder_returns_truncated_payload :
  read_entry (heap labelled_world) labelled_entry = Some labelled_view
  /\ String.length (wire_payload labelled_view None) = 4097
  /\ exists (j : loc) (w' : world) (s : string),
       entry_to_json labelled_entry None labelled_world = Ret (Some j) w'
       /\ heap w' !! j = Some (BBuf buffer_size s)
       /\ String.length s = 4095.
Proof.
  split; [vm_compute; reflexivity|].
  split; [vm_compute; reflexivity|].
  pose proof (entry_to_json_text labelled_entry None labelled_world
                labelled_view) as H.
  eexists _, _, _. split; [apply H|].
  - vm_compute. reflexivity.
  - vm_compute. reflexivity.
  - apply Nat.leb_le. vm_compute. reflexivity.
  - rewrite with_buf_lookup. split; [done|].
    unfold trunc. rewrite substring_length, json_text_wire_payload.
    vm_compute. reflexivity.
Qed.

(** *** Beyond the buffer *)

(** Once the running length has passed the end of the buffer, the next
    [snprintf] writes outside it. *)
Lemma snprintf_overrun (j : loc) (P t s : string) (w : world) :
  4096 < String.length P ->
  (Z.of_nat (String.length P) <= INT_MAX)%Z ->
  snprintf j (Z.of_nat (String.length P))
           (size_sub buffer_size (Z.of_nat (String.length P))) t
           (with_buf j s w)
  = Fault.
Proof.
  intros Hover Hmax. unfold snprintf.
  erewrite bind_ret; [| by unfold load; rewrite with_buf_lookup].
  cbv beta iota zeta.
  set (p := Z.of_nat (String.length P)) in *.
  assert (size_sub buffer_size p = (2 ^ 64 + 4096 - p)%Z) as ->.
  { unfold size_sub, buffer_size, INT_MAX in *.
    replace (4096 - p)%Z with (2 ^ 64 + 4096 - p + (-1) * 2 ^ 64)%Z by lia.
    rewrite Z.mod_add by lia. apply Z.mod_small. lia. }
  unfold INT_MAX, buffer_size in *.
  assert ((2 ^ 64 + 4096 - p =? 0)%Z = false) as -> by (apply Z.eqb_neq; lia).
  assert ((0 <=? p)%Z = true) as -> by (apply Z.leb_le; lia).
  match goal with
  | |- context [(?a <=? 4096)%Z] =>
    assert ((a <=? 4096)%Z = false) as -> by (apply Z.leb_gt; lia)
  end.
  by destruct (_ <=? _)%Z.
Qed.

(** One [snprintf] of the encoder, inside the buffer or past it. *)
Lemma snprintf_step {B} (j : loc) (P t : string) (w : world) (k : Z -> M B) :
  (Z.of_nat (String.length (P +:+ t)) <= INT_MAX)%Z ->
  bind (snprintf j (Z.of_nat (String.length P))
                 (size_sub buffer_size (Z.of_nat (String.length P))) t) k
       (with_buf j (trunc P) w)
  = if decide (String.length P <= 4096)
    then k (Z.of_nat (String.length t)) (with_buf j (trunc (P +:+ t)) w)
    else Fault.
Proof.
  intros Hmax. rewrite str_length_app in Hmax.
  destruct (decide (String.length P <= 4096)) as [Hin|Hout].
  - apply bind_ret, snprintf_emit; [done | lia].
  - apply bind_fault, snprintf_overrun; lia.
Qed.

Lemma json_labels_emit_or_fault (j : loc) (e : logflux_entry) (w : world) :
  heap w !! j = None ->
  forall (n i : nat) (ls : list (string * string)) (P : string),
  Forall2 (fun x y => read_label (heap w) e x = Some y) (seq i n) ls ->
  (Z.of_nat (String.length (P +:+ labels_text i ls)) <= INT_MAX)%Z ->
  json_labels j e i n (Z.of_nat (String.length P)) (with_buf j (trunc P) w)
  = Fault
  \/ json_labels j e i n (Z.of_nat (String.length P))
       (with_buf j (trunc P) w)
     = Ret (Z.of_nat (String.length (P +:+ labels_text i ls)))
           (with_buf j (trunc (P +:+ labels_text i ls)) w).
Proof.
  intros Hj. induction n as [|n IH]; intros i ls P Hread Hmax.
  - apply Forall2_nil_inv_l in Hread as ->. right. simpl.
    by rewrite str_app_nil_r.
  - simpl in Hread. apply Forall2_cons_inv_l in Hread
      as ([k v] & ls' & Hkv & Hrest & ->).
    unfold read_label in Hkv.
    destruct (read_cell (heap w) (labels_keys e) i) as [k'|] eqn:Hk; [|done].
    destruct (read_cell (heap w) (labels_values e) i) as [v'|] eqn:Hv;
      [|done].
    simplify_eq.
    rewrite labels_text_cons in *. simpl fst in *. simpl snd in *.
    simpl json_labels.
    set (sep := if decide (0 < i) then "," else EmptyString) in *.
    rewrite <- !str_app_assoc in *.
    pose proof Hmax as Hmax'. rewrite !str_length_app in Hmax'.
    assert ((if decide (0 < i)
             then c <- snprintf j (Z.of_nat (String.length P))
                    (size_sub buffer_size (Z.of_nat (String.length P)))
                    "," ;;
                  ret (Z.of_nat (String.length P) + c)%Z
             else ret (Z.of_nat (String.length P)))
              (with_buf j (trunc P) w)
            = Fault
            \/ (if decide (0 < i)
                then c <- snprintf j (Z.of_nat (String.length P))
                       (size_sub buffer_size (Z.of_nat (String.length P)))
                       "," ;;
                     ret (Z.of_nat (String.length P) + c)%Z
                else ret (Z.of_nat (String.length P)))
                 (with_buf j (trunc P) w)
               = Ret (Z.of_nat (String.length (P +:+ sep)))
                     (with_buf j (trunc (P +:+ sep)) w)) as [Hf | Hr].
    { subst sep. destruct (decide (0 < i)).
      - rewrite snprintf_step by (rewrite str_length_app; lia).
        destruct (decide (String.length P <= 4096)); [|by left].
        right. unfold ret. by rewrite length_emit.
      - right. unfold ret. by rewrite str_app_nil_r. }
    { left. by apply bind_fault. }
    erewrite bind_ret by exact Hr.
    erewrite bind_ret; [| by apply load_cell_str_with_buf].
    erewrite bind_ret; [| by apply load_cell_str_with_buf].
    rewrite snprintf_step by (rewrite !str_length_app; lia).
    destruct (decide (String.length (P +:+ sep) <= 4096)); [|by left].
    rewrite length_emit. apply IH; [done|].
    rewrite !str_length_app. lia.
Qed.

(** An entry whose text is longer than 4097 characters: the encoder writes
    outside its buffer. *)
Lemma entry_to_json_overrun (entry : loc) (secret : option string)
  (w : world) (v : entry_view) :
  read_entry (heap w) entry = Some v ->
  hd true (allocs w) = true ->
  4097 < String.length (json_text v secret) ->
  (Z.of_nat (String.length (json_text v secret)) <= INT_MAX)%Z ->
  entry_to_json entry secret w = Fault.
Proof.
  intros Hv Hok Hlong Hmax.
  apply read_entry_inv in Hv
    as (e & He & Hid & Hmsg & Hsrc & Hlvl & Hty & Hts & Hls).
  apply read_labels_inv in Hls as [Hcount Hls].
  unfold json_text in *.
  set (hdr := fmt_header _ _ _ _ _ _) in *.
  rewrite !str_length_app in Hlong, Hmax.
  change (String.length "}") with 1 in Hlong, Hmax.
  pose proof (next_loc_fresh w) as Hj.
  pose proof (next_alloc_heap w) as Hheap.
  set (j := next_loc w) in *. set (w0 := (next_alloc w).2) in *.
  rewrite <- Hheap in *.
  unfold entry_to_json.
  erewrite bind_ret; [| apply alloc_success, Hok].
  fold j w0. rewrite <- Hheap.
  change (set_heap (<[j:=BBuf buffer_size EmptyString]> (heap w0)) w0)
    with (with_buf j EmptyString w0).
  erewrite (bind_ret _ _ _ _ e).
  2:{ apply load_entry_at. rewrite with_buf_lookup_ne; [done|].
      intros ->. by rewrite Hj in He. }
  erewrite bind_ret; [| by apply load_str_with_buf].
  erewrite bind_ret; [| by apply load_str_with_buf].
  erewrite bind_ret; [| by apply load_str_with_buf].
  rewrite Hty, Hlvl, Hts. fold hdr.
  change (snprintf j 0 buffer_size hdr)
    with (snprintf j (Z.of_nat (String.length EmptyString))
            (size_sub buffer_size (Z.of_nat (String.length EmptyString))) hdr).
  change (with_buf j EmptyString w0) with (with_buf j (trunc EmptyString) w0).
  rewrite snprintf_step by (rewrite str_app_nil_l; lia).
  rewrite decide_True by (simpl; lia).
  rewrite str_app_nil_l.
  (* the secret *)
  set (secret_phase := match secret with Some _ => _ | None => _ end).
  assert (secret_phase (with_buf j (trunc hdr) w0) = Fault
          \/ secret_phase (with_buf j (trunc hdr) w0)
             = Ret (Z.of_nat (String.length (hdr +:+ secret_text secret)))
                   (with_buf j (trunc (hdr +:+ secret_text secret)) w0))
    as [Hf | Hr].
  { subst secret_phase. unfold secret_text in *. destruct secret as [s|].
    - destruct (decide (0 < String.length s)).
      + rewrite snprintf_step by (rewrite str_length_app; lia).
        destruct (decide (String.length hdr <= 4096)); [|by left].
        right. unfold ret. by rewrite length_emit.
      + right. unfold ret. by rewrite str_app_nil_r.
    - right. unfold ret. by rewrite str_app_nil_r. }
  { by apply bind_fault. }
  erewrite bind_ret by exact Hr. clear Hr. clearbody secret_phase.
  set (P2 := hdr +:+ secret_text secret).
  assert (String.length P2 = String.length hdr
                             + String.length (secret_text secret)) as HP2
    by apply str_length_app.
  (* the labels *)
  set (labels_phase := if decide (0 < labels_count e) then _ else _).
  assert (labels_phase (with_buf j (trunc P2) w0) = Fault
          \/ labels_phase (with_buf j (trunc P2) w0)
             = Ret (Z.of_nat (String.length
                                (P2 +:+ labels_part (view_labels v))))
                   (with_buf j (trunc (P2 +:+ labels_part (view_labels v)))
                      w0)) as [Hf | Hr].
  { subst labels_phase. unfold labels_part in *. rewrite Hcount in *.
    destruct (decide (0 < labels_count e)).
    - rewrite !str_length_app in Hmax.
      change (String.length "}") with 1 in Hmax.
      rewrite snprintf_step by (rewrite str_length_app; lia).
      destruct (decide (String.length P2 <= 4096)); [|by left].
      rewrite length_emit.
      destruct (json_labels_emit_or_fault j e w0 Hj (labels_count e) 0
                  (view_labels v) (P2 +:+ fmt_labels_open) Hls)
        as [Hf | Hr].
      { rewrite !str_length_app. lia. }
      { left. by apply bind_fault. }
      erewrite bind_ret by exact Hr.
      rewrite snprintf_step
        by (rewrite !str_length_app; change (String.length "}") with 1; lia).
      destruct (decide (_ <= 4096)); [|by left].
      right. unfold ret. rewrite length_emit.
      by rewrite !str_app_assoc.
    - right. unfold ret. by rewrite str_app_nil_r. }
  { by apply bind_fault. }
  erewrite bind_ret by exact Hr. clear Hr. clearbody labels_phase.
  set (P3 := P2 +:+ labels_part (view_labels v)).
  assert (String.length P3 = String.length P2
            + String.length (labels_part (view_labels v))) as HP3
    by apply str_length_app.
  rewrite snprintf_step
    by (rewrite str_length_app; change (String.length "}") with 1; lia).
  rewrite decide_False by lia. done.
Qed.

(** For instance with a message of 5000 characters. *)
Example encoder_overruns_buffer :
  (e <- logflux_entry_new (Some (filler 5000)) ;;
   match e with
   | Some e => entry_to_json e None
   | None => ret None
   end) empty_world = Fault.
Proof. vm_compute. reflexivity. Qed.

(** ** [logflux_client_send_batch] *)

(** The batch as the specification words it: [send_entry] on the entries
    in order, stopping at the first failure and returning it. *)
Fixpoint send_each (client : option loc) (es : list loc) : M logflux_error_t :=
  match es with
  | [] => ret LOGFLUX_OK
  | e :: rest =>
    r <- logflux_client_send_entry client (Some e) ;;
    if is_ok r then send_each client rest else ret r
  end.

(** [all_sent client es w w']: [send_entry] succeeds on each entry of [es]
    in turn, leading from [w] to [w']. *)
Inductive all_sent (client : option loc) : list loc -> world -> world -> Prop :=
| all_sent_nil w : all_sent client [] w w
| all_sent_cons e es w w1 w' :
    logflux_client_send_entry client (Some e) w = Ret LOGFLUX_OK w1 ->
    all_sent client es w1 w' ->
    all_sent client (e :: es) w w'.

Lemma send_batch_loop_send_each (client : option loc) (es : list loc) :
  forall (n i : nat) (w : world),
  i + n <= length es ->
  send_batch_loop client es i n w = send_each client (take n (drop i es)) w.
Proof.
  induction n as [|n IH]; intros i w Hn; [done|].
  simpl send_batch_loop.
  destruct (es !! i) as [e|] eqn:Hi.
  2:{ apply lookup_ge_None in Hi. lia. }
  rewrite (drop_S _ _ _ Hi). simpl.
  unfold bind.
  destruct (logflux_client_send_entry client (Some e) w) as [r w1|]; [|done].
  destruct r; simpl; try done. apply IH. lia.
Qed.

Lemma send_entry_load_fault (p e : loc) (w : world) :
  load_client p w = Fault ->
  logflux_client_send_entry (Some p) (Some e) w = Fault.
Proof. intros H. unfold logflux_client_send_entry. by apply bind_fault. Qed.

Lemma send_batch_send_each (p : loc) (es : list loc) (count : nat) (w : world) :
  count <> 0 -> count <= length es ->
  logflux_client_send_batch (Some p) (Some es) count w
  = send_each (Some p) (take count es) w.
Proof.
  intros H0 Hle. unfold logflux_client_send_batch.
  rewrite decide_False by done.
  destruct es as [|e es]; [simpl in Hle; lia|].
  destruct count as [|n]; [done|].
  destruct (load_client p w) as [c w1|] eqn:Hload.
  - assert (w1 = w) as ->.
    { unfold load_client, load, bind, ret, fault in Hload.
      destruct (heap w !! p) as [[]|]; by simplify_eq. }
    erewrite bind_ret by done.
    destruct (connected c) eqn:Hc.
    + change (negb true) with false. cbv beta iota.
      by rewrite send_batch_loop_send_each by (simpl in *; lia).
    + change (negb false) with true. cbv beta iota.
      rewrite firstn_cons. simpl send_each.
      unfold logflux_client_send_entry, bind.
      rewrite Hload, Hc. done.
  - rewrite bind_fault by done. simpl.
    by rewrite (bind_fault _ _ _ (send_entry_load_fault p e w Hload)).
Qed.

Lemma send_each_all_sent (client : option loc) (es : list loc) (w w' : world) :
  send_each client es w = Ret LOGFLUX_OK w' <-> all_sent client es w w'.
Proof.
  revert w. induction es as [|e es IH]; intros w; simpl.
  - unfold ret. split.
    + intros H. simplify_eq. constructor.
    + inversion 1. done.
  - split.
    + intros H. apply bind_inv in H as (r & w1 & He & H).
      destruct r; simpl in H; unfold ret in H; simplify_eq.
      econstructor; [done|]. by apply IH.
    + inversion 1 as [|? ? ? w1 ? He Hrest]; subst.
      erewrite bind_ret by done. simpl. by apply IH.
Qed.

Lemma send_each_first_failure (client : option loc) (pre post : list loc)
  (e : loc) (r : logflux_error_t) (w w1 w2 : world) :
  all_sent client pre w w1 ->
  logflux_client_send_entry client (Some e) w1 = Ret r w2 ->
  r <> LOGFLUX_OK ->
  send_each client (pre ++ e :: post) w = Ret r w2.
Proof.
  intros Hpre He Hr. induction Hpre as [w|e0 es w w0 w1 He0 Hrest IH]; simpl.
  - erewrite bind_ret by done. by destruct r.
  - erewrite bind_ret by done. simpl. by apply IH.
Qed.

(** C4. [send_batch] answers [InvalidParam] for an absent client, absent
    entries or a count of zero.  Otherwise it sends the entries in array
    order: when the entries before [e] are sent and [send_entry] fails on
    [e], the batch returns that error in the very world that failure left,
    whatever entries follow, so none of them is attempted; and it answers
    [Success] exactly when every entry was sent. *)
Theorem send_batch_stops_at_first_failure :
  (forall client entries count w,
     client = None \/ entries = None \/ count = 0 ->
     logflux_client_send_batch client entries count w
     = Ret LOGFLUX_ERROR_INVALID_PARAM w)
  /\
  (forall p pre e post r w w1 w2,
     all_sent (Some p) pre w w1 ->
     logflux_client_send_entry (Some p) (Some e) w1 = Ret r w2 ->
     r <> LOGFLUX_OK ->
     logflux_client_send_batch (Some p) (Some (pre ++ e :: post))
                               (length (pre ++ e :: post)) w
     = Ret r w2)
  /\
  (forall p es w w',
     es <> [] ->
     logflux_client_send_batch (Some p) (Some es) (length es) w
     = Ret LOGFLUX_OK w'
     <-> all_sent (Some p) es w w').
Proof.
  split; [|split].
  - intros client entries count w H.
    unfold logflux_client_send_batch.
    destruct client as [p|]; [|done].
    destruct entries as [es|]; [|done].
    destruct H as [H|[H|H]]; [done | done |].
    by rewrite decide_True.
  - intros p pre e post r w w1 w2 Hpre He Hr.
    rewrite send_batch_send_each; [| rewrite length_app; simpl; lia | done].
    rewrite firstn_all. by eapply send_each_first_failure.
  - intros p es w w' Hne.
    rewrite send_batch_send_each; [| by destruct es | done].
    rewrite firstn_all. apply send_each_all_sent.
Qed.

(** ** [logflux_entry_new] *)

(** The next [n] allocations succeed. *)
Definition allocs_succeed (n : nat) (w : world) : Prop :=
  Forall (fun b => b = true) (take n (allocs w)).

Lemma allocs_succeed_hd n w :
  allocs_succeed (S n) w -> hd true (allocs w) = true.
Proof.
  unfold allocs_succeed. destruct (allocs w) as [|b a]; [done|].
  simpl. by inversion 1.
Qed.

Lemma allocs_succeed_tail n w w' :
  allocs w' = tail (allocs w) ->
  allocs_succeed (S n) w -> allocs_succeed n w'.
Proof.
  unfold allocs_succeed. intros ->. destruct (allocs w) as [|b a]; simpl.
  - intros _. by rewrite take_nil.
  - by inversion 1.
Qed.

Lemma uuid_generate_run w :
  uuid_generate w = Ret (hd nil_uuid (uuids w)) (set_uuids (tail (uuids w)) w).
Proof.
  destruct w as [h a s t u c en fl ip mv]. unfold uuid_generate. simpl.
  by destruct u.
Qed.

Lemma alloc_success' b w :
  hd true (allocs w) = true ->
  alloc b w = Ret (Some (next_loc w))
                  (set_heap (<[next_loc w := b]> (heap w))
                            (set_allocs (tail (allocs w)) w)).
Proof. intros H. rewrite <- next_alloc_snd. by apply alloc_success. Qed.

Lemma alloc_failure' b w :
  hd true (allocs w) = false ->
  alloc b w = Ret None (set_allocs (tail (allocs w)) w).
Proof. intros H. rewrite <- next_alloc_snd. by apply alloc_failure. Qed.

Lemma free_live (l : loc) (b : block) (w : world) :
  heap w !! l = Some b ->
  free (Some l) w = Ret tt (set_heap (delete l (heap w)) w).
Proof. intros H. unfold free. by rewrite H. Qed.

Arguments next_loc : simpl never.

(** Splits the freshness of a location in a heap built by insertions. *)
Ltac fresh_facts :=
  repeat match goal with
  | H : <[_ := _]> _ !! _ = None |- _ =>
    apply lookup_insert_None in H as [H ?]
  end.

Lemma entry_new_success (msg : string) (w : world) :
  allocs_succeed 4 w ->
  exists (p : loc) (w' : world),
    logflux_entry_new (Some msg) w = Ret (Some p) w'
    /\ read_entry (heap w') p
       = Some (View (hd nil_uuid (uuids w)) msg "c-sdk"
                    LOGFLUX_LEVEL_INFO LOGFLUX_TYPE_LOG (clock w) [])
    /\ heap w !! p = None.
Proof.
  intros Hall.
  pose proof (allocs_succeed_hd _ _ Hall) as H1.
  unfold logflux_entry_new.
  erewrite bind_ret; [| by apply alloc_success'].
  cbv beta iota.
  pose proof (next_loc_fresh w) as Hp. set (p := next_loc w) in *.
  set (w1 := set_heap _ _).
  assert (allocs_succeed 3 w1) as Hall1 by (by eapply allocs_succeed_tail).
  unfold generate_uuid.
  erewrite (bind_ret (uuid_generate ;; _)).
  2:{ erewrite bind_ret; [| apply uuid_generate_run].
      apply alloc_success'. apply (allocs_succeed_hd _ _ Hall1). }
  set (w1u := set_uuids _ w1).
  pose proof (next_loc_fresh w1u) as Hi. set (i := next_loc w1u) in *.
  set (w2 := set_heap _ _).
  assert (allocs_succeed 2 w2) as Hall2 by (by eapply allocs_succeed_tail).
  erewrite bind_ret;
    [| apply alloc_success', (allocs_succeed_hd _ _ Hall2)].
  pose proof (next_loc_fresh w2) as Hm. set (m := next_loc w2) in *.
  set (w3 := set_heap _ _).
  assert (allocs_succeed 1 w3) as Hall3 by (by eapply allocs_succeed_tail).
  erewrite bind_ret;
    [| apply alloc_success', (allocs_succeed_hd _ _ Hall3)].
  pose proof (next_loc_fresh w3) as Hs. set (s := next_loc w3) in *.
  set (w4 := set_heap _ _).
  simpl in Hi, Hm, Hs. fresh_facts.
  erewrite (bind_ret time); [| reflexivity].
  erewrite bind_ret.
  2:{ eapply (store_at p _ (BEntry zero_entry)).
      subst w4 w3 w2 w1u w1. simpl. by simplify_map_eq. }
  simpl. eexists _, _. split; [reflexivity|].
  split; [|done].
  unfold read_entry, read_labels, read_str. simpl.
  by simplify_map_eq.
Qed.

Lemma allocs_succeed_intro n w w' :
  allocs w' = tail (allocs w) ->
  hd true (allocs w) = true -> allocs_succeed n w' -> allocs_succeed (S n) w.
Proof.
  unfold allocs_succeed. intros ->. destruct (allocs w) as [|b a]; simpl.
  - intros _ _. constructor.
  - intros -> H. by constructor.
Qed.

Lemma bind_assoc {A B C} (m : M A) (k : A -> M B) (k' : B -> M C) (w : world) :
  bind (bind m k) k' w = bind m (fun x => bind (k x) k') w.
Proof. unfold bind. by destruct (m w). Qed.

(** One step of a run: rewrites the first action of the program. *)
Ltac run_step tac :=
  rewrite ?bind_assoc; erewrite bind_ret; [| tac]; cbv beta iota.

Ltac run_alloc H :=
  first [ run_step ltac:(apply alloc_success', H)
        | run_step ltac:(apply alloc_failure', H) ].

Ltac run_free :=
  first [ run_step ltac:(reflexivity)
        | run_step ltac:(eapply free_live; simpl; by simplify_map_eq) ].

Lemma entry_new_failure (msg : string) (w : world) :
  ~ allocs_succeed 4 w ->
  exists w' : world,
    logflux_entry_new (Some msg) w = Ret None w' /\ heap w' = heap w.
Proof.
  intros Hnot. unfold logflux_entry_new.
  destruct (hd true (allocs w)) eqn:H1.
  2:{ run_alloc H1. eexists. split; [reflexivity | done]. }
  run_alloc H1.
  pose proof (next_loc_fresh w) as Hp. set (p := next_loc w) in *.
  set (w1 := set_heap _ _).
  unfold generate_uuid.
  destruct (hd true (allocs w1)) eqn:H2;
    (erewrite (bind_ret (uuid_generate ;; _));
     [| erewrite bind_ret; [| apply uuid_generate_run];
        first [ apply alloc_success', H2 | apply alloc_failure', H2 ] ]);
    cbv beta iota;
    set (w1u := set_uuids _ w1);
    try (pose proof (next_loc_fresh w1u) as Hi; set (i := next_loc w1u) in * );
    first [ set (w2 := set_heap _ _) | set (w2 := set_allocs _ _) ].
  all: destruct (hd true (allocs w2)) eqn:H3; run_alloc H3;
    try (pose proof (next_loc_fresh w2) as Hm; set (m := next_loc w2) in * );
    first [ set (w3 := set_heap _ _) | set (w3 := set_allocs _ _) ].
  all: destruct (hd true (allocs w3)) eqn:H4; run_alloc H4;
    try (pose proof (next_loc_fresh w3) as Hs; set (s := next_loc w3) in * );
    first [ set (w4 := set_heap _ _) | set (w4 := set_allocs _ _) ].
  1:{ exfalso. apply Hnot.
      eapply (allocs_succeed_intro 3 w w1); [done | done |].
      eapply (allocs_succeed_intro 2 w1 w2); [done | done |].
      eapply (allocs_succeed_intro 1 w2 w3); [done | done |].
      eapply (allocs_succeed_intro 0 w3 w4); [done | done |].
      unfold allocs_succeed. rewrite take_0. constructor. }
  all: simpl in *; fresh_facts.
  all: run_step ltac:(reflexivity).
  all: run_step ltac:(eapply (store_at p _ (BEntry zero_entry));
                      subst w4 w3 w2 w1u w1; simpl; by simplify_map_eq).
  all: cbn [is_null orb]; cbv beta iota.
  all: unfold logflux_entry_free.
  all: run_step ltac:(apply load_entry_at; simpl; by simplify_map_eq).
  all: simpl entry_id; simpl entry_message; simpl entry_source;
       simpl labels_keys; simpl labels_values.
  all: run_free; run_free; run_free.
  all: run_step ltac:(reflexivity).
  all: run_free; run_free.
  all: run_step ltac:(eapply free_live; simpl; by simplify_map_eq).
  all: eexists; (split; [reflexivity|]).
  all: subst w4 w3 w2 w1u w1; simpl.
  all: apply map_eq; intros k.
  all: repeat (rewrite lookup_delete || rewrite lookup_insert);
       repeat case_decide; simplify_eq; done.
Qed.

(** C7. For every message: when the four allocations of the constructor
    (entry, id, message, source) succeed, [Entry.new] returns a new entry
    whose id is non-null and readable, whose message is the given one, whose
    source is the SDK default, whose level is Info and whose type is Log,
    with no label.  When one of them fails it returns no entry and the heap
    is what it was before the call: all partial state is released. *)
Theorem entry_new_all_or_nothing (msg : string) (w : world) :
  (allocs_succeed 4 w ->
   exists (p : loc) (w' : world) (e : logflux_entry),
     logflux_entry_new (Some msg) w = Ret (Some p) w'
     /\ heap w !! p = None
     /\ heap w' !! p = Some (BEntry e)
     /\ is_null (entry_id e) = false
     /\ read_entry (heap w') p
        = Some (View (hd nil_uuid (uuids w)) msg "c-sdk"
                     LOGFLUX_LEVEL_INFO LOGFLUX_TYPE_LOG (clock w) []))
  /\
  (~ allocs_succeed 4 w ->
   exists w' : world,
     logflux_entry_new (Some msg) w = Ret None w' /\ heap w' = heap w).
Proof.
  split.
  - intros Hall.
    destruct (entry_new_success msg w Hall) as (p & w' & Hrun & Hread & Hp).
    destruct (read_entry_inv _ _ _ Hread) as (e & He & Hid & _).
    exists p, w', e. repeat split; try done.
    by destruct (entry_id e).
  - apply entry_new_failure.
Qed.

Lemma entry_new_all_or_nothing_witness :
  exists (p : loc) (w' : world) (e : logflux_entry),
    logflux_entry_new (Some "hello") empty_world = Ret (Some p) w'
    /\ heap empty_world !! p = None
    /\ heap w' !! p = Some (BEntry e)
    /\ is_null (entry_id e) = false
    /\ read_entry (heap w') p
       = Some (View (hd nil_uuid (uuids empty_world)) "hello" "c-sdk"
                    LOGFLUX_LEVEL_INFO LOGFLUX_TYPE_LOG (clock empty_world) []).
Proof.
  apply (proj1 (entry_new_all_or_nothing "hello" empty_world)).
  unfold allocs_succeed. simpl. constructor.
Defined.

(** ** [logflux_entry_add_label] *)

Lemma add_label_invalid_param (entry : option loc) (key value : option string)
  (w : world) :
  entry = None \/ key = None \/ value = None ->
  logflux_entry_add_label entry key value w
  = Ret LOGFLUX_ERROR_INVALID_PARAM w.
Proof.
  unfold logflux_entry_add_label.
  intros [-> | [-> | ->]]; [done | by destruct entry | by destruct entry, key].
Qed.

(** An entry with four labels: its arrays are full. *)
Definition four_labels_program : M loc :=
  e <- logflux_entry_new (Some "m") ;;
  logflux_entry_add_label e (Some "k1") (Some "v1") ;;
  logflux_entry_add_label e (Some "k2") (Some "v2") ;;
  logflux_entry_add_label e (Some "k3") (Some "v3") ;;
  logflux_entry_add_label e (Some "k4") (Some "v4") ;;
  match e with Some e => ret e | None => fault end.

Definition four_labels_entry : loc :=
  Eval vm_compute in
    match run four_labels_program with
    | Some (e, _) => e
    | None => 1%positive
    end.
Definition four_labels_world : world :=
  match run four_labels_program with
  | Some (_, w) => w
  | None => empty_world
  end.
Definition four_labels_view : entry_view :=
  View nil_uuid "m" "c-sdk" 6 1 1700000000
       [("k1", "v1"); ("k2", "v2"); ("k3", "v3"); ("k4", "v4")].

(** C3, where the code departs from it.  A fifth label makes the arrays
    grow.  When the [realloc] of the keys succeeds and that of the values
    fails, [add_label] answers [Memory] after freeing the new key array,
    which is the array the entry's labels live in (the entry still points
    to the old address, whether the block moved or not): the stored labels
    can no longer be read, and freeing the entry frees that array a second
    time. *)
Theorem add_label_failed_growth_loses_labels :
  read_entry (heap four_labels_world) four_labels_entry
  = Some four_labels_view
  /\ Forall (fun moves =>
       exists w' : world,
         logflux_entry_add_label (Some four_labels_entry)
           (Some "k5") (Some "v5")
           (set_realloc_moves moves
              (set_allocs [true; false] four_labels_world))
         = Ret LOGFLUX_ERROR_MEMORY w'
         /\ read_entry (heap w') four_labels_entry = None
         /\ logflux_entry_free (Some four_labels_entry) w' = Fault)
       [true; false].
Proof.
  split; [vm_compute; reflexivity|].
  repeat constructor; eexists;
    (split; [vm_compute; reflexivity|]); split; vm_compute; reflexivity.
Qed.

(** The other failures of [add_label] leave the labels as they were: both
    [realloc]s failing, or a [strdup] failing after the arrays grew. *)
Example add_label_other_failures_keep_labels :
  Forall (fun '(moves, script) =>
    exists w' : world,
      logflux_entry_add_label (Some four_labels_entry) (Some "k5") (Some "v5")
        (set_realloc_moves moves (set_allocs script four_labels_world))
      = Ret LOGFLUX_ERROR_MEMORY w'
      /\ read_entry (heap w') four_labels_entry = Some four_labels_view)
    [(true, [false; false]); (true, [true; true; false]);
     (true, [true; true; true; false]);
     (false, [false; false]); (false, [true; true; false]);
     (false, [true; true; true; false])].
Proof.
  repeat constructor; eexists; (split; vm_compute; reflexivity).
Qed.

(** ** The client factories *)

Lemma load_shared_secret_run (s : string) (size : nat) (w : world) :
  size <> 0 ->
  exists (r : logflux_error_t) (s' path : string),
    logflux_load_shared_secret (Some s) size w
    = Ret (r, Some s') (set_trace (trace w ++ [EvFopen path]) w).
Proof.
  intros Hsize.
  unfold logflux_load_shared_secret, bind, ret, getenv, fopen.
  rewrite decide_False by done.
  destruct (environ w "XDG_RUNTIME_DIR") as [dir|]; simpl.
  - destruct (files w _) as [content|]; [|by eauto 10].
    destruct (fgets size content); by eauto 10.
  - destruct (environ w "HOME") as [dir|]; simpl.
    + destruct (files w _) as [content|]; [|by eauto 10].
      destruct (fgets size content); by eauto 10.
    + destruct (files w _) as [content|]; [|by eauto 10].
      destruct (fgets size content); by eauto 10.
Qed.

Lemma substring_length_long (n : nat) (s : string) :
  n < String.length s -> String.length (String.substring 0 n s) = n.
Proof. intros H. rewrite substring_length. lia. Qed.

Lemma new_unix_run (path : string) (w : world) :
  hd true (allocs w) = true ->
  logflux_client_new_unix (Some path) w
  = Ret (Some (next_loc w))
        (set_heap
           (<[next_loc w :=
                BClient (Client (Config LOGFLUX_CONN_UNIX
                                        (String.substring 0 255 path)
                                        EmptyString 0 EmptyString 10000 3 1000)
                                (-1) false)]> (heap w))
           (set_allocs (tail (allocs w)) w)).
Proof.
  intros Hok. unfold logflux_client_new_unix.
  run_alloc Hok.
  run_step ltac:(eapply store_at; simpl; apply lookup_insert_eq).
  unfold ret, set_heap. simpl. by rewrite insert_insert_eq.
Qed.

Lemma new_tcp_run (h : string) (prt : Z) (w : world) :
  hd true (allocs w) = true ->
  prt <> 0%Z ->
  exists (secret path : string) (w' : world),
    logflux_client_new_tcp (Some h) prt w = Ret (Some (next_loc w)) w'
    /\ heap w'
       = <[next_loc w :=
             BClient (Client (Config LOGFLUX_CONN_TCP EmptyString
                                     (String.substring 0 255 h) prt secret
                                     10000 3 1000)
                             (-1) false)]> (heap w)
    /\ trace w' = trace w ++ [EvFopen path].
Proof.
  intros Hok Hport. unfold logflux_client_new_tcp.
  apply Z.eqb_neq in Hport. rewrite Hport.
  run_alloc Hok.
  run_step ltac:(eapply store_at; simpl; apply lookup_insert_eq).
  set (w1 := set_heap _ _).
  destruct (load_shared_secret_run EmptyString 128 w1)
    as (r & s' & path & Hrun); [done|].
  simpl shared_secret.
  run_step ltac:(exact Hrun).
  run_step ltac:(eapply store_at; subst w1; simpl; apply lookup_insert_eq).
  unfold ret. eexists _, _, _. split; [reflexivity|].
  subst w1. simpl. split; [by rewrite !insert_insert_eq | done].
Qed.

(** C9. For every socket path or host longer than 255 characters (and a
    non-zero port), when the client struct is allocated the Unix and TCP
    factories succeed and the configuration holds the first 255 characters
    of the string: the name is truncated, no error is reported. *)
Theorem factories_truncate_long_names (name : string) (prt : Z) (w : world) :
  255 < String.length name ->
  hd true (allocs w) = true ->
  prt <> 0%Z ->
  (exists (w' : world) (c : logflux_client),
     logflux_client_new_unix (Some name) w = Ret (Some (next_loc w)) w'
     /\ heap w' !! next_loc w = Some (BClient c)
     /\ socket_path (config c) = String.substring 0 255 name
     /\ String.length (socket_path (config c)) = 255)
  /\
  (exists (w' : world) (c : logflux_client),
     logflux_client_new_tcp (Some name) prt w = Ret (Some (next_loc w)) w'
     /\ heap w' !! next_loc w = Some (BClient c)
     /\ host (config c) = String.substring 0 255 name
     /\ String.length (host (config c)) = 255).
Proof.
  intros Hlong Hok Hport. split.
  - eexists _, _. split; [by apply new_unix_run|].
    simpl. rewrite lookup_insert_eq. split; [done|]. simpl.
    split; [done | by apply substring_length_long].
  - destruct (new_tcp_run name prt w Hok Hport)
      as (s & path & w' & Hrun & Hheap & _).
    eexists _, _. split; [exact Hrun|].
    rewrite Hheap, lookup_insert_eq. split; [done|]. simpl.
    split; [done | by apply substring_length_long].
Qed.

Lemma factories_truncate_long_names_witness :
  (exists (w' : world) (c : logflux_client),
     logflux_client_new_unix (Some (filler 300)) empty_world
     = Ret (Some (next_loc empty_world)) w'
     /\ heap w' !! next_loc empty_world = Some (BClient c)
     /\ socket_path (config c) = String.substring 0 255 (filler 300)
     /\ String.length (socket_path (config c)) = 255)
  /\
  (exists (w' : world) (c : logflux_client),
     logflux_client_new_tcp (Some (filler 300)) 8080 empty_world
     = Ret (Some (next_loc empty_world)) w'
     /\ heap w' !! next_loc empty_world = Some (BClient c)
     /\ host (config c) = String.substring 0 255 (filler 300)
     /\ String.length (host (config c)) = 255).
Proof.
  apply (factories_truncate_long_names (filler 300) 8080 empty_world).
  - apply Nat.ltb_lt. vm_compute. reflexivity.
  - reflexivity.
  - discriminate.
Defined.

Lemma new_config_run (cfg : logflux_config_t) (w : world) :
  hd true (allocs w) = true ->
  logflux_client_new_config (Some cfg) w
  = Ret (Some (next_loc w))
        (set_heap (<[next_loc w := BClient (Client cfg (-1) false)]> (heap w))
                  (set_allocs (tail (allocs w)) w)).
Proof.
  intros Hok. unfold logflux_client_new_config.
  run_alloc Hok.
  run_step ltac:(eapply store_at; simpl; apply lookup_insert_eq).
  unfold ret, set_heap. simpl. by rewrite insert_insert_eq.
Qed.

Lemma wire_payload_empty_secret (v : entry_view) :
  wire_payload v (Some EmptyString) = wire_payload v None.
Proof. reflexivity. Qed.

(** C10. For every configuration, when the client struct is allocated
    [new_config] returns a client whose configuration is the given one,
    field for field, unconnected and without socket, and nothing else of the
    world changes: no default is set and no file is opened to look for a
    secret.  A connected TCP client with such a configuration and an empty
    secret sends the payload without [shared_secret] field.  For contrast,
    the Unix and TCP factories set the timeout to 10000, the retry count to
    3 and the retry delay to 1000, and the TCP factory opens the secret
    file. *)
Theorem new_config_copies_verbatim (cfg : logflux_config_t) (w : world) :
  hd true (allocs w) = true ->
  logflux_client_new_config (Some cfg) w
  = Ret (Some (next_loc w))
        (set_heap (<[next_loc w := BClient (Client cfg (-1) false)]> (heap w))
                  (set_allocs (tail (allocs w)) w))
  /\
  (forall (p e : loc) (c : logflux_client) (v : entry_view) (w1 : world),
     heap w1 !! p = Some (BClient c) ->
     config c = cfg ->
     connected c = true ->
     connection_type cfg = LOGFLUX_CONN_TCP ->
     shared_secret cfg = EmptyString ->
     read_entry (heap w1) e = Some v ->
     allocs_succeed 2 w1 ->
     String.length (wire_payload v None) <= 4095 ->
     let total_len := (Z.of_nat (String.length (wire_payload v None)) + 1)%Z in
     let sent := send_result total_len w1 in
     logflux_client_send_entry (Some p) (Some e) w1
     = Ret (send_status sent total_len)
           (set_trace
              (trace w1 ++ [EvSend (socket_fd c)
                                   (wire_payload v None +:+ newline) sent])
              (set_syscalls (tail (syscalls w1))
                 (set_allocs (tail (tail (allocs w1))) w1))))
  /\
  (exists (w' : world) (c : logflux_client),
     logflux_client_new_unix (Some (socket_path cfg)) w
     = Ret (Some (next_loc w)) w'
     /\ heap w' !! next_loc w = Some (BClient c)
     /\ trace w' = trace w
     /\ timeout_ms (config c) = 10000%Z
     /\ retry_count (config c) = 3%Z
     /\ retry_delay_ms (config c) = 1000%Z)
  /\
  (port cfg <> 0%Z ->
   exists (w' : world) (c : logflux_client) (path : string),
     logflux_client_new_tcp (Some (host cfg)) (port cfg) w
     = Ret (Some (next_loc w)) w'
     /\ heap w' !! next_loc w = Some (BClient c)
     /\ trace w' = trace w ++ [EvFopen path]
     /\ timeout_ms (config c) = 10000%Z
     /\ retry_count (config c) = 3%Z
     /\ retry_delay_ms (config c) = 1000%Z).
Proof.
  intros Hok. split; [by apply new_config_run|]. split; [|split].
  - intros p e c v w1 Hp Hcfg Hc Hty Hsec Hv Hall Hlen total_len sent.
    assert (client_secret c = Some EmptyString) as Hcs.
    { unfold client_secret. rewrite Hcfg, Hty, Hsec. done. }
    pose proof (allocs_succeed_hd _ _ Hall) as Hok1.
    assert (hd true (tail (allocs w1)) = true) as Hok2.
    { apply (allocs_succeed_hd 0 (set_allocs (tail (allocs w1)) w1)).
      by eapply allocs_succeed_tail. }
    pose proof (send_entry_run p e c v w1 Hp Hc Hv Hok1 Hok2) as Hrun.
    rewrite Hcs, json_text_wire_payload, wire_payload_empty_secret in Hrun.
    unfold trunc in Hrun. rewrite substring_all in Hrun by lia.
    apply Hrun. lia.
  - eexists _, _. split; [by apply new_unix_run|].
    simpl. rewrite lookup_insert_eq. done.
  - intros Hport.
    destruct (new_tcp_run (host cfg) (port cfg) w Hok Hport)
      as (s & path & w' & Hrun & Hheap & Htrace).
    eexists _, _, path. split; [exact Hrun|].
    rewrite Hheap, lookup_insert_eq. done.
Qed.

(** A configuration as a caller fills it: TCP, no secret, no timeout. *)
Definition bare_tcp_config : logflux_config_t :=
  Config LOGFLUX_CONN_TCP EmptyString "127.0.0.1" 8080 EmptyString 0 0 0.

Lemma new_config_copies_verbatim_witness :
  logflux_client_new_config (Some bare_tcp_config) empty_world
  = Ret (Some (next_loc empty_world))
        (set_heap (<[next_loc empty_world :=
                       BClient (Client bare_tcp_config (-1) false)]>
                     (heap empty_world))
                  (set_allocs (tail (allocs empty_world)) empty_world)).
Proof.
  apply (proj1 (new_config_copies_verbatim bare_tcp_config empty_world
                  eq_refl)).
Defined.

(** ** Further concrete runs *)

Definition sample_client_state : logflux_client :=
  Client (Config LOGFLUX_CONN_TCP EmptyString "127.0.0.1" 8080 EmptyString
                 10000 3 1000) 3 true.

(** A Unix client that was never connected, and an entry. *)
Definition idle_program : M (loc * loc) :=
  c <- logflux_client_new_unix (Some "/tmp/test.sock") ;;
  e <- logflux_entry_new (Some "hello") ;;
  match c, e with
  | Some c, Some e => ret (c, e)
  | _, _ => fault
  end.
Definition idle_client : loc :=
  Eval vm_compute in
    match run idle_program with Some (ce, _) => ce.1 | None => 1%positive end.
Definition idle_entry : loc :=
  Eval vm_compute in
    match run idle_program with Some (ce, _) => ce.2 | None => 1%positive end.
Definition idle_world : world :=
  match run idle_program with Some (_, w) => w | None => empty_world end.
Definition idle_client_state : logflux_client :=
  Client (Config LOGFLUX_CONN_UNIX "/tmp/test.sock" EmptyString 0 EmptyString
                 10000 3 1000) (-1) false.

Lemma send_entry_not_connected_witness :
  logflux_client_send_entry (Some idle_client) (Some idle_entry) idle_world
  = Ret LOGFLUX_ERROR_NOT_CONNECTED idle_world.
Proof.
  apply (send_entry_not_connected idle_client idle_entry idle_client_state
           idle_world).
  - vm_compute. reflexivity.
  - reflexivity.
Defined.

Lemma connect_idempotent_witness :
  logflux_client_connect (Some sample_client) sample_world
  = Ret LOGFLUX_OK sample_world.
Proof.
  apply (proj1 (connect_idempotent sample_client sample_world)
           sample_client_state).
  - vm_compute. reflexivity.
  - reflexivity.
Defined.

Definition sample_entry_state : logflux_entry :=
  Eval vm_compute in
    match heap sample_world !! sample_entry with
    | Some (BEntry e) => e
    | _ => zero_entry
    end.

Lemma set_level_total_on_valid_witness :
  logflux_entry_set_level (Some sample_entry) 8 sample_world
  = Ret LOGFLUX_ERROR_INVALID_PARAM sample_world
  /\ logflux_entry_set_level (Some sample_entry) 3 sample_world
     = Ret LOGFLUX_OK
           (set_heap (<[sample_entry :=
                          BEntry (set_entry_level 3 sample_entry_state)]>
                        (heap sample_world)) sample_world).
Proof.
  split.
  - apply (proj1 (set_level_total_on_valid (Some sample_entry) 8 sample_world)).
    right. right. lia.
  - apply (proj2 (set_level_total_on_valid (Some sample_entry) 3 sample_world)
             sample_entry sample_entry_state).
    + reflexivity.
    + vm_compute. reflexivity.
    + lia.
Defined.

(** A batch of two entries on a socket that refuses the first payload. *)
Definition refusing_world : world := set_syscalls [(-1)%Z] sample_world.
Definition refused_world : world :=
  match logflux_client_send_entry (Some sample_client) (Some sample_entry)
          refusing_world with
  | Ret _ w => w
  | Fault => empty_world
  end.

Lemma send_batch_stops_at_first_failure_witness :
  logflux_client_send_batch (Some sample_client)
    (Some ([] ++ sample_entry :: [sample_entry]))
    (length ([] ++ sample_entry :: [sample_entry])) refusing_world
  = Ret LOGFLUX_ERROR_CONNECTION refused_world
  /\ length (trace refused_world) = S (length (trace refusing_world)).
Proof.
  split.
  - apply (proj1 (proj2 send_batch_stops_at_first_failure)
             sample_client [] sample_entry [sample_entry]
             LOGFLUX_ERROR_CONNECTION refusing_world refusing_world
             refused_world).
    + constructor.
    + vm_compute. reflexivity.
    + discriminate.
  - vm_compute. reflexivity.
Defined.

(** * Further properties of the code *)

Set Warnings "-clear-no-such-hyp".

(** ** Running the socket calls *)

Lemma next_syscall_run (d : Z) (w : world) :
  next_syscall d w
  = Ret (hd d (syscalls w)) (set_syscalls (tail (syscalls w)) w).
Proof.
  destruct w as [h a s t u c en fl ip mv]. unfold next_syscall. simpl.
  by destruct s.
Qed.

Lemma update_client_at (p : loc) (c : logflux_client)
  (f : logflux_client -> logflux_client) (w : world) :
  heap w !! p = Some (BClient c) ->
  update_client p f w = Ret tt (set_heap (<[p := BClient (f c)]> (heap w)) w).
Proof.
  intros Hp. unfold update_client.
  erewrite bind_ret; [| by apply load_client_at]. by eapply store_at.
Qed.

(** The events a call of [connect] adds, and the client it leaves. *)
Record connect_outcome := ConnectOutcome {
  co_result : logflux_error_t;
  co_fd : Z;                 (* [socket_fd] afterwards *)
  co_events : list event;    (* the calls made, in order *)
  co_used : nat              (* how many scripted results were used *)
}.

(** The world after a connect function with outcome [o] on the client [c]
    at [p]. *)
Definition after_connect (p : loc) (c : logflux_client) (o : connect_outcome)
  (w : world) : world :=
  set_heap (<[p := BClient (set_client_fd (co_fd o) c)]> (heap w))
    (set_trace (trace w ++ co_events o)
       (set_syscalls (drop (co_used o) (syscalls w)) w)).

(** Reduces the projections of a world built by the setters. *)
Ltac norm_world :=
  cbn [heap allocs syscalls trace uuids clock environ files inet_pton
       realloc_moves set_heap set_allocs set_syscalls set_trace set_uuids
       set_realloc_moves].

Ltac run_sys := run_step ltac:(apply next_syscall_run);
                run_step ltac:(reflexivity);
                run_step ltac:(reflexivity).

Ltac run_update :=
  run_step ltac:(eapply update_client_at; simpl;
                 first [ eassumption | apply lookup_insert_eq ]).

Ltac run_load :=
  run_step ltac:(apply load_client_at; simpl; apply lookup_insert_eq).

Lemma world_eq (w1 w2 : world) :
  heap w1 = heap w2 -> allocs w1 = allocs w2 -> syscalls w1 = syscalls w2 ->
  trace w1 = trace w2 -> uuids w1 = uuids w2 -> clock w1 = clock w2 ->
  environ w1 = environ w2 -> files w1 = files w2 ->
  inet_pton w1 = inet_pton w2 -> realloc_moves w1 = realloc_moves w2 ->
  w1 = w2.
Proof. destruct w1, w2. simpl. by intros; subst. Qed.

(** Closes a goal [Ret r w1 = Ret r' (after_connect ...)] at a leaf. *)
Lemma tail_drop {A} (n : nat) (l : list A) : tail (drop n l) = drop (S n) l.
Proof.
  revert l. induction n as [|n IH]; intros [|x l]; simpl; done.
Qed.

Ltac connect_leaf :=
  unfold ret; f_equal;
  apply world_eq; simpl;
  first [ done
        | by rewrite ?insert_insert_eq
        | by rewrite <- ?app_assoc
        | by rewrite <- ?tail_drop ].

(** What [connect_unix_socket] does on the client [c] when the socket calls
    answer [s]. *)
Definition unix_outcome (c : logflux_client) (s : list Z) : connect_outcome :=
  let fd := hd 3%Z s in
  let r1 := hd 0%Z (tail s) in
  let r2 := hd 0%Z (tail (tail s)) in
  let r3 := hd 0%Z (tail (tail (tail s))) in
  let path := socket_path (config c) in
  let t := timeout_ms (config c) in
  if (fd <? 0)%Z then
    ConnectOutcome LOGFLUX_ERROR_CONNECTION fd [EvSocket AF_UNIX fd] 1
  else if (r1 <? 0)%Z then
    ConnectOutcome LOGFLUX_ERROR_TIMEOUT (-1)
      [EvSocket AF_UNIX fd; EvSetsockopt fd SO_RCVTIMEO t r1; EvClose fd] 2
  else if (r2 <? 0)%Z then
    ConnectOutcome LOGFLUX_ERROR_TIMEOUT (-1)
      [EvSocket AF_UNIX fd; EvSetsockopt fd SO_RCVTIMEO t r1;
       EvSetsockopt fd SO_SNDTIMEO t r2; EvClose fd] 3
  else if (sun_path_size <=? Z.of_nat (String.length path))%Z then
    ConnectOutcome LOGFLUX_ERROR_INVALID_PARAM (-1)
      [EvSocket AF_UNIX fd; EvSetsockopt fd SO_RCVTIMEO t r1;
       EvSetsockopt fd SO_SNDTIMEO t r2; EvClose fd] 3
  else if (r3 <? 0)%Z then
    ConnectOutcome LOGFLUX_ERROR_CONNECTION (-1)
      [EvSocket AF_UNIX fd; EvSetsockopt fd SO_RCVTIMEO t r1;
       EvSetsockopt fd SO_SNDTIMEO t r2; EvConnect fd path 0 r3;
       EvClose fd] 4
  else
    ConnectOutcome LOGFLUX_OK fd
      [EvSocket AF_UNIX fd; EvSetsockopt fd SO_RCVTIMEO t r1;
       EvSetsockopt fd SO_SNDTIMEO t r2; EvConnect fd path 0 r3] 4.

(** The same for [connect_tcp_socket]; [parsed] is what [inet_pton] answers
    for the host. *)
Definition tcp_outcome (c : logflux_client) (parsed : Z) (s : list Z)
  : connect_outcome :=
  let fd := hd 3%Z s in
  let r1 := hd 0%Z (tail s) in
  let r2 := hd 0%Z (tail (tail s)) in
  let r3 := hd 0%Z (tail (tail (tail s))) in
  let h := host (config c) in
  let t := timeout_ms (config c) in
  if (fd <? 0)%Z then
    ConnectOutcome LOGFLUX_ERROR_CONNECTION fd [EvSocket AF_INET fd] 1
  else if (r1 <? 0)%Z then
    ConnectOutcome LOGFLUX_ERROR_TIMEOUT (-1)
      [EvSocket AF_INET fd; EvSetsockopt fd SO_RCVTIMEO t r1; EvClose fd] 2
  else if (r2 <? 0)%Z then
    ConnectOutcome LOGFLUX_ERROR_TIMEOUT (-1)
      [EvSocket AF_INET fd; EvSetsockopt fd SO_RCVTIMEO t r1;
       EvSetsockopt fd SO_SNDTIMEO t r2; EvClose fd] 3
  else if (parsed <=? 0)%Z then
    ConnectOutcome LOGFLUX_ERROR_CONNECTION (-1)
      [EvSocket AF_INET fd; EvSetsockopt fd SO_RCVTIMEO t r1;
       EvSetsockopt fd SO_SNDTIMEO t r2; EvClose fd] 3
  else if (r3 <? 0)%Z then
    ConnectOutcome LOGFLUX_ERROR_CONNECTION (-1)
      [EvSocket AF_INET fd; EvSetsockopt fd SO_RCVTIMEO t r1;
       EvSetsockopt fd SO_SNDTIMEO t r2;
       EvConnect fd h (port (config c)) r3; EvClose fd] 4
  else
    ConnectOutcome LOGFLUX_OK fd
      [EvSocket AF_INET fd; EvSetsockopt fd SO_RCVTIMEO t r1;
       EvSetsockopt fd SO_SNDTIMEO t r2;
       EvConnect fd h (port (config c)) r3] 4.

Lemma connect_unix_socket_run (p : loc) (c : logflux_client) (w : world) :
  heap w !! p = Some (BClient c) ->
  connect_unix_socket p w
  = Ret (co_result (unix_outcome c (syscalls w)))
        (after_connect p c (unix_outcome c (syscalls w)) w).
Proof.
  intros Hp. unfold unix_outcome.
  set (s := syscalls w). set (fd := hd 3%Z s).
  set (r1 := hd 0%Z (tail s)). set (r2 := hd 0%Z (tail (tail s))).
  set (r3 := hd 0%Z (tail (tail (tail s)))).
  set (path := socket_path (config c)). set (t := timeout_ms (config c)).
  cbv zeta.
  unfold connect_unix_socket, sys_socket.
  run_sys. fold s fd. run_update.
  destruct (fd <? 0)%Z eqn:Hfd; [unfold after_connect; connect_leaf|].
  run_load. simpl config. fold t path.
  unfold set_socket_timeout, sys_setsockopt.
  run_sys. norm_world. fold s.
  change (hd 0%Z (tail s)) with r1.
  destruct (r1 <? 0)%Z eqn:Hr1.
  { run_step ltac:(reflexivity). cbn [is_ok negb]. cbv beta iota.
    unfold drop_socket, sys_close. run_step ltac:(reflexivity). run_update.
    unfold after_connect; connect_leaf. }
  run_sys. norm_world. fold s.
  change (hd 0%Z (tail (tail s))) with r2.
  destruct (r2 <? 0)%Z eqn:Hr2.
  { run_step ltac:(reflexivity). cbn [is_ok negb]. cbv beta iota.
    unfold drop_socket, sys_close. run_step ltac:(reflexivity). run_update.
    unfold after_connect; connect_leaf. }
  run_step ltac:(reflexivity). cbn [is_ok negb]. cbv beta iota.
  destruct (sun_path_size <=? Z.of_nat (String.length path))%Z eqn:Hlen.
  { unfold drop_socket, sys_close. run_step ltac:(reflexivity). run_update.
    unfold after_connect; connect_leaf. }
  unfold sys_connect. run_sys. norm_world. fold s.
  change (hd 0%Z (tail (tail (tail s)))) with r3.
  destruct (r3 <? 0)%Z eqn:Hr3.
  { unfold drop_socket, sys_close. run_step ltac:(reflexivity). run_update.
    unfold after_connect; connect_leaf. }
  unfold after_connect; connect_leaf.
Qed.

Lemma connect_tcp_socket_run (p : loc) (c : logflux_client) (w : world) :
  heap w !! p = Some (BClient c) ->
  connect_tcp_socket p w
  = Ret (co_result (tcp_outcome c (inet_pton w (host (config c))) (syscalls w)))
        (after_connect p c
           (tcp_outcome c (inet_pton w (host (config c))) (syscalls w)) w).
Proof.
  intros Hp. unfold tcp_outcome.
  set (s := syscalls w). set (fd := hd 3%Z s).
  set (r1 := hd 0%Z (tail s)). set (r2 := hd 0%Z (tail (tail s))).
  set (r3 := hd 0%Z (tail (tail (tail s)))).
  set (h := host (config c)). set (t := timeout_ms (config c)).
  set (parsed := inet_pton w h).
  cbv zeta.
  unfold connect_tcp_socket, sys_socket.
  run_sys. fold s fd. run_update.
  destruct (fd <? 0)%Z eqn:Hfd; [unfold after_connect; connect_leaf|].
  run_load. simpl config. fold t h.
  unfold set_socket_timeout, sys_setsockopt.
  run_sys. norm_world. fold s.
  change (hd 0%Z (tail s)) with r1.
  destruct (r1 <? 0)%Z eqn:Hr1.
  { run_step ltac:(reflexivity). cbn [is_ok negb]. cbv beta iota.
    unfold drop_socket, sys_close. run_step ltac:(reflexivity). run_update.
    unfold after_connect; connect_leaf. }
  run_sys. norm_world. fold s.
  change (hd 0%Z (tail (tail s))) with r2.
  destruct (r2 <? 0)%Z eqn:Hr2.
  { run_step ltac:(reflexivity). cbn [is_ok negb]. cbv beta iota.
    unfold drop_socket, sys_close. run_step ltac:(reflexivity). run_update.
    unfold after_connect; connect_leaf. }
  run_step ltac:(reflexivity). cbn [is_ok negb]. cbv beta iota.
  run_step ltac:(reflexivity). norm_world. fold parsed.
  destruct (parsed <=? 0)%Z eqn:Hparsed.
  { unfold drop_socket, sys_close. run_step ltac:(reflexivity). run_update.
    unfold after_connect; connect_leaf. }
  unfold sys_connect. run_sys. norm_world. fold s.
  change (hd 0%Z (tail (tail (tail s)))) with r3.
  destruct (r3 <? 0)%Z eqn:Hr3.
  { unfold drop_socket, sys_close. run_step ltac:(reflexivity). run_update.
    unfold after_connect; connect_leaf. }
  unfold after_connect; connect_leaf.
Qed.

(** The outcome of [logflux_client_connect] on an unconnected client. *)
Definition connect_outcome_of (c : logflux_client) (w : world)
  : connect_outcome :=
  if (connection_type (config c) =? LOGFLUX_CONN_UNIX)%Z
  then unix_outcome c (syscalls w)
  else tcp_outcome c (inet_pton w (host (config c))) (syscalls w).

Lemma connect_run (p : loc) (c : logflux_client) (w : world) :
  heap w !! p = Some (BClient c) ->
  connected c = false ->
  let o := connect_outcome_of c w in
  logflux_client_connect (Some p) w
  = Ret (co_result o)
        (set_heap
           (<[p := BClient (Client (config c) (co_fd o) (is_ok (co_result o)))]>
              (heap w))
           (set_trace (trace w ++ co_events o)
              (set_syscalls (drop (co_used o) (syscalls w)) w))).
Proof.
  intros Hp Hc o. unfold logflux_client_connect.
  run_step ltac:(by apply load_client_at). rewrite Hc.
  assert ((if (connection_type (config c) =? LOGFLUX_CONN_UNIX)%Z
           then connect_unix_socket p else connect_tcp_socket p) w
          = Ret (co_result o) (after_connect p c o w)) as Hrun.
  { subst o. unfold connect_outcome_of.
    destruct (connection_type (config c) =? LOGFLUX_CONN_UNIX)%Z.
    - by apply connect_unix_socket_run.
    - by apply connect_tcp_socket_run. }
  run_step ltac:(exact Hrun).
  destruct c as [cfg fd0 con]. simpl in Hc. subst con.
  destruct (is_ok (co_result o)) eqn:Hok.
  - run_step ltac:(eapply update_client_at; unfold after_connect; simpl;
                   apply lookup_insert_eq).
    unfold ret, after_connect. f_equal. apply world_eq; simpl; try done.
    by rewrite insert_insert_eq.
  - run_step ltac:(reflexivity). unfold ret, after_connect. done.
Qed.

Lemma is_connected_at (p : loc) (c : logflux_client) (w : world) :
  heap w !! p = Some (BClient c) ->
  logflux_client_is_connected (Some p) w
  = Ret (connected c && (0 <=? socket_fd c)%Z) w.
Proof.
  intros Hp. unfold logflux_client_is_connected.
  by run_step ltac:(by apply load_client_at).
Qed.

Definition is_connect_event (ev : event) : bool :=
  match ev with EvConnect _ _ _ _ => true | _ => false end.
Definition is_socket_event (ev : event) : bool :=
  match ev with EvSocket _ _ => true | _ => false end.

(** Case analysis on the outcome of a connect attempt. *)
Ltac outcome_cases :=
  unfold connect_outcome_of, unix_outcome, tcp_outcome;
  cbv zeta;
  repeat match goal with
  | |- context [if ?b then _ else _] =>
    match type of b with
    | bool => let E := fresh "E" in destruct b eqn:E
    end
  end.

(** X1. [connect] on an unconnected client never faults and leaves the
    client in step with its answer: connected, with a descriptor that is not
    negative, exactly when it answers [Success]; unconnected, with a
    negative descriptor, when it fails.  [is_connected] then answers
    accordingly.  The configuration and the allocator are untouched, and a
    socket that was opened by a failed attempt has been closed again, while
    a successful attempt closes nothing. *)
Theorem connect_leaves_client_consistent (p : loc) (c : logflux_client)
  (w : world) :
  heap w !! p = Some (BClient c) ->
  connected c = false ->
  exists (r : logflux_error_t) (w' : world) (c' : logflux_client)
         (evs : list event),
    logflux_client_connect (Some p) w = Ret r w'
    /\ heap w' = <[p := BClient c']> (heap w)
    /\ config c' = config c
    /\ connected c' = is_ok r
    /\ (is_ok r = true -> (0 <= socket_fd c')%Z)
    /\ (is_ok r = false -> (socket_fd c' < 0)%Z)
    /\ logflux_client_is_connected (Some p) w' = Ret (is_ok r) w'
    /\ allocs w' = allocs w
    /\ trace w' = trace w ++ evs
    /\ (is_ok r = false ->
        forall d fd, EvSocket d fd ∈ evs -> (0 <= fd)%Z -> EvClose fd ∈ evs)
    /\ (is_ok r = true -> forall fd, EvClose fd ∉ evs).
Proof.
  intros Hp Hc. rewrite (connect_run p c w Hp Hc). cbv zeta.
  set (o := connect_outcome_of c w).
  eexists _, _, (Client (config c) (co_fd o) (is_ok (co_result o))), _.
  split; [reflexivity|]. simpl.
  assert ((is_ok (co_result o) = true -> (0 <= co_fd o)%Z)
          /\ (is_ok (co_result o) = false -> (co_fd o < 0)%Z)
          /\ (is_ok (co_result o) = false ->
              forall d fd, EvSocket d fd ∈ co_events o -> (0 <= fd)%Z ->
                           EvClose fd ∈ co_events o)
          /\ (is_ok (co_result o) = true ->
              forall fd, EvClose fd ∉ co_events o))
    as (Hfd_ok & Hfd_bad & Hleak & Hkeep).
  { subst o. outcome_cases; simpl;
      (repeat split; intros; try done; try lia; set_unfold; naive_solver lia). }
  repeat split; try done.
  run_step ltac:(apply load_client_at; simpl; apply lookup_insert_eq).
  simpl. unfold ret. f_equal.
  destruct (is_ok (co_result o)) eqn:Hok; [|done].
  specialize (Hfd_ok eq_refl). apply Z.leb_le in Hfd_ok. by rewrite Hfd_ok.
Qed.

Lemma connect_leaves_client_consistent_witness :
  exists (r : logflux_error_t) (w' : world) (c' : logflux_client)
         (evs : list event),
    logflux_client_connect (Some idle_client) idle_world = Ret r w'
    /\ heap w' = <[idle_client := BClient c']> (heap idle_world)
    /\ config c' = config idle_client_state
    /\ connected c' = is_ok r
    /\ (is_ok r = true -> (0 <= socket_fd c')%Z)
    /\ (is_ok r = false -> (socket_fd c' < 0)%Z)
    /\ logflux_client_is_connected (Some idle_client) w' = Ret (is_ok r) w'
    /\ allocs w' = allocs idle_world
    /\ trace w' = trace idle_world ++ evs
    /\ (is_ok r = false ->
        forall d fd, EvSocket d fd ∈ evs -> (0 <= fd)%Z -> EvClose fd ∈ evs)
    /\ (is_ok r = true -> forall fd, EvClose fd ∉ evs).
Proof.
  apply (connect_leaves_client_consistent idle_client idle_client_state
           idle_world).
  - vm_compute. reflexivity.
  - reflexivity.
Defined.

(** X2. [connect] makes one attempt, whatever [retry_count] and
    [retry_delay_ms] say: it creates at most one socket and calls
    connect(2) at most once.  When it succeeds, the calls made are exactly:
    the socket, the receive timeout and the send timeout, both set to the
    configured [timeout_ms] (a zero included), then the connect to the
    configured path (Unix) or host and port (any other connection type). *)
Theorem connect_attempts_once (p : loc) (c : logflux_client) (w : world) :
  heap w !! p = Some (BClient c) ->
  connected c = false ->
  exists (r : logflux_error_t) (w' : world) (evs : list event),
    logflux_client_connect (Some p) w = Ret r w'
    /\ trace w' = trace w ++ evs
    /\ length (filter (fun ev => is_socket_event ev = true) evs) <= 1
    /\ length (filter (fun ev => is_connect_event ev = true) evs) <= 1
    /\ (r = LOGFLUX_OK ->
        exists fd r1 r2 r3,
          heap w' !! p = Some (BClient (Client (config c) fd true))
          /\ evs
             = [EvSocket (if (connection_type (config c) =? LOGFLUX_CONN_UNIX)%Z
                          then AF_UNIX else AF_INET) fd;
                EvSetsockopt fd SO_RCVTIMEO (timeout_ms (config c)) r1;
                EvSetsockopt fd SO_SNDTIMEO (timeout_ms (config c)) r2;
                if (connection_type (config c) =? LOGFLUX_CONN_UNIX)%Z
                then EvConnect fd (socket_path (config c)) 0 r3
                else EvConnect fd (host (config c)) (port (config c)) r3]).
Proof.
  intros Hp Hc. rewrite (connect_run p c w Hp Hc). cbv zeta.
  eexists _, _, _. split; [reflexivity|]. simpl.
  rewrite lookup_insert_eq.
  split; [done|].
  outcome_cases; simpl; (split; [lia|]); (split; [lia|]);
    intros Hr; try discriminate; eauto 10.
Qed.

Lemma connect_attempts_once_witness :
  exists (r : logflux_error_t) (w' : world) (evs : list event),
    logflux_client_connect (Some idle_client) idle_world = Ret r w'
    /\ trace w' = trace idle_world ++ evs
    /\ length (filter (fun ev => is_socket_event ev = true) evs) <= 1
    /\ length (filter (fun ev => is_connect_event ev = true) evs) <= 1
    /\ (r = LOGFLUX_OK ->
        exists fd r1 r2 r3,
          heap w' !! idle_client
          = Some (BClient (Client (config idle_client_state) fd true))
          /\ evs
             = [EvSocket (if (connection_type (config idle_client_state)
                              =? LOGFLUX_CONN_UNIX)%Z
                          then AF_UNIX else AF_INET) fd;
                EvSetsockopt fd SO_RCVTIMEO
                             (timeout_ms (config idle_client_state)) r1;
                EvSetsockopt fd SO_SNDTIMEO
                             (timeout_ms (config idle_client_state)) r2;
                if (connection_type (config idle_client_state)
                    =? LOGFLUX_CONN_UNIX)%Z
                then EvConnect fd (socket_path (config idle_client_state)) 0 r3
                else EvConnect fd (host (config idle_client_state))
                               (port (config idle_client_state)) r3]).
Proof.
  apply (connect_attempts_once idle_client idle_client_state idle_world).
  - vm_compute. reflexivity.
  - reflexivity.
Defined.

(** X3. How [connect] fails.  A Unix client whose socket path has 108
    characters or more (the size of [sun_path]) never connects and never
    calls connect(2); when the socket and its timeouts were set up the
    answer is [InvalidParam].  A client of another connection type whose
    host [inet_pton] does not accept never connects and never calls
    connect(2) (no name is resolved); the answer is then [Connection].  A
    timeout that cannot be set gives [Timeout], and a socket that cannot be
    created gives [Connection]. *)
Theorem connect_failure_kinds (p : loc) (c : logflux_client) (w : world) :
  heap w !! p = Some (BClient c) ->
  connected c = false ->
  exists (r : logflux_error_t) (w' : world) (evs : list event),
    logflux_client_connect (Some p) w = Ret r w'
    /\ trace w' = trace w ++ evs
    /\ let unix := (connection_type (config c) =? LOGFLUX_CONN_UNIX)%Z in
       let fd := hd 3%Z (syscalls w) in
       let r1 := hd 0%Z (tail (syscalls w)) in
       let r2 := hd 0%Z (tail (tail (syscalls w))) in
       let set_up := (0 <= fd)%Z /\ (0 <= r1)%Z /\ (0 <= r2)%Z in
       (unix = true ->
        (sun_path_size <= Z.of_nat (String.length (socket_path (config c))))%Z ->
        r <> LOGFLUX_OK
        /\ Forall (fun ev => is_connect_event ev = false) evs
        /\ (set_up -> r = LOGFLUX_ERROR_INVALID_PARAM))
       /\
       (unix = false ->
        (inet_pton w (host (config c)) <= 0)%Z ->
        r <> LOGFLUX_OK
        /\ Forall (fun ev => is_connect_event ev = false) evs
        /\ (set_up -> r = LOGFLUX_ERROR_CONNECTION))
       /\ ((fd < 0)%Z -> r = LOGFLUX_ERROR_CONNECTION)
       /\ ((0 <= fd)%Z -> (r1 < 0)%Z \/ (0 <= r1)%Z /\ (r2 < 0)%Z ->
           r = LOGFLUX_ERROR_TIMEOUT).
Proof.
  intros Hp Hc. rewrite (connect_run p c w Hp Hc). cbv zeta.
  eexists _, _, _. split; [reflexivity|]. simpl.
  split; [done|].
  unfold connect_outcome_of, unix_outcome, tcp_outcome. cbv zeta.
  destruct (connection_type (config c) =? LOGFLUX_CONN_UNIX)%Z;
    repeat match goal with
    | |- context [if ?b then _ else _] =>
      match type of b with
      | bool => let E := fresh "E" in destruct b eqn:E
      end
    end; simpl;
    repeat match goal with
    | H : (_ <? _)%Z = true |- _ => apply Z.ltb_lt in H
    | H : (_ <? _)%Z = false |- _ => apply Z.ltb_ge in H
    | H : (_ <=? _)%Z = true |- _ => apply Z.leb_le in H
    | H : (_ <=? _)%Z = false |- _ => apply Z.leb_gt in H
    end;
    (split_and!; intros; try done; try lia;
     try (split_and!; intros; try done; try lia;
          repeat constructor)).
Qed.

(** A Unix client made from a path of 300 characters: it keeps 255. *)
Definition long_path_client : loc :=
  Eval vm_compute in
    match run (logflux_client_new_unix (Some (filler 300))) with
    | Some (Some p, _) => p
    | _ => 1%positive
    end.
Definition long_path_world : world :=
  match run (logflux_client_new_unix (Some (filler 300))) with
  | Some (_, w) => w
  | None => empty_world
  end.
Definition long_path_state : logflux_client :=
  Client (Config LOGFLUX_CONN_UNIX (filler 255) EmptyString 0 EmptyString
                 10000 3 1000) (-1) false.

Lemma connect_failure_kinds_witness :
  exists (r : logflux_error_t) (w' : world) (evs : list event),
    logflux_client_connect (Some long_path_client) long_path_world = Ret r w'
    /\ trace w' = trace long_path_world ++ evs
    /\ let unix := (connection_type (config long_path_state)
                    =? LOGFLUX_CONN_UNIX)%Z in
       let fd := hd 3%Z (syscalls long_path_world) in
       let r1 := hd 0%Z (tail (syscalls long_path_world)) in
       let r2 := hd 0%Z (tail (tail (syscalls long_path_world))) in
       let set_up := (0 <= fd)%Z /\ (0 <= r1)%Z /\ (0 <= r2)%Z in
       (unix = true ->
        (sun_path_size
         <= Z.of_nat (String.length (socket_path (config long_path_state))))%Z ->
        r <> LOGFLUX_OK
        /\ Forall (fun ev => is_connect_event ev = false) evs
        /\ (set_up -> r = LOGFLUX_ERROR_INVALID_PARAM))
       /\
       (unix = false ->
        (inet_pton long_path_world (host (config long_path_state)) <= 0)%Z ->
        r <> LOGFLUX_OK
        /\ Forall (fun ev => is_connect_event ev = false) evs
        /\ (set_up -> r = LOGFLUX_ERROR_CONNECTION))
       /\ ((fd < 0)%Z -> r = LOGFLUX_ERROR_CONNECTION)
       /\ ((0 <= fd)%Z -> (r1 < 0)%Z \/ (0 <= r1)%Z /\ (r2 < 0)%Z ->
           r = LOGFLUX_ERROR_TIMEOUT).
Proof.
  apply (connect_failure_kinds long_path_client long_path_state
           long_path_world).
  - vm_compute. reflexivity.
  - reflexivity.
Defined.

(** ** Closing and freeing a client *)

Lemma close_run (p : loc) (c : logflux_client) (w : world) :
  heap w !! p = Some (BClient c) ->
  logflux_client_close (Some p) w
  = Ret LOGFLUX_OK
        (set_heap
           (<[p := BClient (Client (config c)
                                   (if (0 <=? socket_fd c)%Z
                                    then (-1)%Z else socket_fd c)
                                   false)]> (heap w))
           (set_trace
              (trace w ++ (if (0 <=? socket_fd c)%Z
                           then [EvClose (socket_fd c)] else []))
              w)).
Proof.
  intros Hp. unfold logflux_client_close.
  run_step ltac:(by apply load_client_at).
  destruct (0 <=? socket_fd c)%Z eqn:Hfd.
  - unfold sys_close.
    run_step ltac:(reflexivity). run_update. run_update.
    unfold ret. f_equal. apply world_eq; simpl; try done.
    by rewrite insert_insert_eq.
  - run_step ltac:(reflexivity). run_update.
    unfold ret. f_equal. apply world_eq; simpl; try done.
    by rewrite app_nil_r.
Qed.

(** X4. [close] on a client always answers [Success] and leaves it
    unconnected with a negative descriptor; it closes the socket once if
    the client held one (a descriptor that is not negative) and makes no
    call otherwise.  The configuration is kept, so the client can connect
    again.  Closing a second time changes nothing at all. *)
Theorem close_is_idempotent (p : loc) (c : logflux_client) (w : world) :
  heap w !! p = Some (BClient c) ->
  exists (w' : world) (c' : logflux_client),
    logflux_client_close (Some p) w = Ret LOGFLUX_OK w'
    /\ heap w' = <[p := BClient c']> (heap w)
    /\ config c' = config c
    /\ connected c' = false
    /\ (socket_fd c' < 0)%Z
    /\ trace w' = trace w ++ (if (0 <=? socket_fd c)%Z
                              then [EvClose (socket_fd c)] else [])
    /\ logflux_client_is_connected (Some p) w' = Ret false w'
    /\ logflux_client_close (Some p) w' = Ret LOGFLUX_OK w'.
Proof.
  intros Hp. rewrite (close_run p c w Hp).
  set (fd' := if (0 <=? socket_fd c)%Z then (-1)%Z else socket_fd c).
  assert (fd' < 0)%Z as Hneg.
  { subst fd'. destruct (0 <=? socket_fd c)%Z eqn:E; [lia|].
    by apply Z.leb_gt in E. }
  eexists _, (Client (config c) fd' false).
  split; [reflexivity|]. norm_world. split_and!; try done.
  - erewrite is_connected_at by (simpl; apply lookup_insert_eq). done.
  - erewrite close_run by (simpl; apply lookup_insert_eq). simpl.
    assert ((0 <=? fd')%Z = false) as -> by (apply Z.leb_gt; lia).
    f_equal. apply world_eq; simpl; try done.
    + by rewrite insert_insert_eq.
    + by rewrite app_nil_r.
Qed.

Lemma close_is_idempotent_witness :
  exists (w' : world) (c' : logflux_client),
    logflux_client_close (Some sample_client) sample_world
    = Ret LOGFLUX_OK w'
    /\ heap w' = <[sample_client := BClient c']> (heap sample_world)
    /\ config c' = config sample_client_state
    /\ connected c' = false
    /\ (socket_fd c' < 0)%Z
    /\ trace w' = trace sample_world
                  ++ (if (0 <=? socket_fd sample_client_state)%Z
                      then [EvClose (socket_fd sample_client_state)] else [])
    /\ logflux_client_is_connected (Some sample_client) w' = Ret false w'
    /\ logflux_client_close (Some sample_client) w' = Ret LOGFLUX_OK w'.
Proof.
  apply (close_is_idempotent sample_client sample_client_state sample_world).
  vm_compute. reflexivity.
Defined.

(** X5. [client_free] on an absent client does nothing.  On a client it
    closes the socket if one is held (once), makes no other call, and
    releases the client struct and nothing else. *)
Theorem client_free_closes_and_releases :
  (forall w, logflux_client_free None w = Ret tt w)
  /\
  (forall (p : loc) (c : logflux_client) (w : world),
     heap w !! p = Some (BClient c) ->
     logflux_client_free (Some p) w
     = Ret tt
           (set_heap (delete p (heap w))
              (set_trace
                 (trace w ++ (if (0 <=? socket_fd c)%Z
                              then [EvClose (socket_fd c)] else []))
                 w))).
Proof.
  split; [done|]. intros p c w Hp. unfold logflux_client_free.
  run_step ltac:(by apply close_run).
  erewrite free_live by (simpl; apply lookup_insert_eq).
  f_equal. apply world_eq; simpl; try done.
  by rewrite delete_insert_eq.
Qed.

Lemma client_free_closes_and_releases_witness :
  logflux_client_free (Some sample_client) sample_world
  = Ret tt
        (set_heap (delete sample_client (heap sample_world))
           (set_trace
              (trace sample_world
               ++ (if (0 <=? socket_fd sample_client_state)%Z
                   then [EvClose (socket_fd sample_client_state)] else []))
              sample_world)).
Proof.
  apply (proj2 client_free_closes_and_releases sample_client
           sample_client_state sample_world).
  vm_compute. reflexivity.
Defined.

(** ** The encoder past its buffer *)

Definition overrun_entry : loc :=
  Eval vm_compute in
    match run (logflux_entry_new (Some (filler 5000))) with
    | Some (Some e, _) => e
    | _ => 1%positive
    end.
Definition overrun_world : world :=
  match run (logflux_entry_new (Some (filler 5000))) with
  | Some (_, w) => w
  | None => empty_world
  end.
Definition overrun_view : entry_view :=
  View nil_uuid (filler 5000) "c-sdk" 6 1 1700000000 [].

(** X6. For every entry whose payload is longer than 4097 characters (and
    short enough for its length to be an [int]), the encoder, once its
    buffer is allocated, writes outside the 4096 bytes of the buffer: the
    running length it adds to the buffer's address has passed the end, and
    the size it hands to [snprintf] has wrapped around. *)
Theorem encoder_overruns_on_long_payload (entry : loc)
  (secret : option string) (w : world) (v : entry_view) :
  read_entry (heap w) entry = Some v ->
  hd true (allocs w) = true ->
  4097 < String.length (wire_payload v secret) ->
  (Z.of_nat (String.length (wire_payload v secret)) <= INT_MAX)%Z ->
  entry_to_json entry secret w = Fault.
Proof.
  intros Hv Hok Hlong Hmax. rewrite <- json_text_wire_payload in Hlong, Hmax.
  by eapply entry_to_json_overrun.
Qed.

Lemma encoder_overruns_on_long_payload_witness :
  entry_to_json overrun_entry None overrun_world = Fault.
Proof.
  apply (encoder_overruns_on_long_payload overrun_entry None overrun_world
           overrun_view).
  - vm_compute. reflexivity.
  - reflexivity.
  - apply Nat.ltb_lt. vm_compute. reflexivity.
  - apply Z.leb_le. vm_compute. reflexivity.
Defined.

(** ** Sending one payload *)

Lemma send_status_ok (sent total_len : Z) :
  (0 <= total_len)%Z ->
  send_status sent total_len = LOGFLUX_OK <-> sent = total_len.
Proof.
  intros Hpos. unfold send_status.
  destruct (sent <? 0)%Z eqn:Hneg; simpl.
  - apply Z.ltb_lt in Hneg. split; [done | lia].
  - destruct (sent =? total_len)%Z eqn:Heq; simpl.
    + apply Z.eqb_eq in Heq. done.
    + apply Z.eqb_neq in Heq. done.
Qed.

(** X7. [send_json_data] on a text held in a buffer: if the copy cannot be
    allocated it answers [Memory] and sends nothing.  Otherwise it calls
    [send] exactly once, on the client's descriptor, with the text followed
    by one newline, asking for its whole length; it answers [Success] when
    [send] accepted exactly that many bytes and [Connection] for an error
    or a short write, without a second attempt; the copy is released, so
    the heap is as before. *)
Theorem send_json_data_sends_one_line (p j : loc) (c : logflux_client)
  (cap : Z) (text : string) (w : world) :
  heap w !! p = Some (BClient c) ->
  heap w !! j = Some (BBuf cap text) ->
  let total_len := (Z.of_nat (String.length text) + 1)%Z in
  let sent := send_result total_len w in
  (hd true (allocs w) = false ->
   send_json_data p j w
   = Ret LOGFLUX_ERROR_MEMORY (set_allocs (tail (allocs w)) w))
  /\
  (hd true (allocs w) = true ->
   send_json_data p j w
   = Ret (if decide (sent = total_len)
          then LOGFLUX_OK else LOGFLUX_ERROR_CONNECTION)
         (set_trace (trace w ++ [EvSend (socket_fd c) (text +:+ newline) sent])
            (set_syscalls (tail (syscalls w))
               (set_allocs (tail (allocs w)) w)))).
Proof.
  intros Hp Hj total_len sent. split.
  - intros Hfail. unfold send_json_data.
    run_step ltac:(by unfold load; rewrite Hj).
    run_alloc Hfail. done.
  - intros Hok. rewrite (send_json_data_run p j c cap text w Hp Hj Hok).
    cbv zeta. fold total_len sent. f_equal.
    pose proof (send_status_ok sent total_len) as Hst.
    destruct (decide (sent = total_len)) as [Heq|Hne].
    + apply Hst; [subst total_len; lia | done].
    + unfold send_status in *.
      destruct ((sent <? 0)%Z || negb (sent =? total_len)%Z) eqn:E; [done|].
      exfalso. apply Hne, Hst; [subst total_len; lia | done].
Qed.

(** The sample entry encoded for the sample client. *)
Definition encoded_buffer : loc :=
  Eval vm_compute in
    match entry_to_json sample_entry None sample_world with
    | Ret (Some j) _ => j
    | _ => 1%positive
    end.
Definition encoded_world : world :=
  match entry_to_json sample_entry None sample_world with
  | Ret _ w => w
  | Fault => empty_world
  end.

Lemma send_json_data_sends_one_line_witness :
  let text := wire_payload sample_view None in
  let total_len := (Z.of_nat (String.length text) + 1)%Z in
  let sent := send_result total_len (set_syscalls [5%Z] encoded_world) in
  send_json_data sample_client encoded_buffer
    (set_syscalls [5%Z] encoded_world)
  = Ret (if decide (sent = total_len)
         then LOGFLUX_OK else LOGFLUX_ERROR_CONNECTION)
        (set_trace
           (trace (set_syscalls [5%Z] encoded_world)
            ++ [EvSend (socket_fd sample_client_state) (text +:+ newline) sent])
           (set_syscalls (tail (syscalls (set_syscalls [5%Z] encoded_world)))
              (set_allocs
                 (tail (allocs (set_syscalls [5%Z] encoded_world)))
                 (set_syscalls [5%Z] encoded_world)))).
Proof.
  apply (proj2 (send_json_data_sends_one_line sample_client encoded_buffer
                  sample_client_state buffer_size
                  (wire_payload sample_view None)
                  (set_syscalls [5%Z] encoded_world)
                  ltac:(vm_compute; reflexivity)
                  ltac:(vm_compute; reflexivity))).
  reflexivity.
Defined.

(** ** Secret discovery *)

(** The file [logflux_load_shared_secret] opens. *)
Definition secret_path (w : world) : string :=
  match environ w "XDG_RUNTIME_DIR" with
  | Some dir => String.substring 0 511 (dir +:+ "/logflux/agent.secret")
  | None =>
    match environ w "HOME" with
    | Some dir =>
      String.substring 0 511 (dir +:+ "/.logflux/runtime/agent.secret")
    | None => "/tmp/.logflux-runtime/agent.secret"
    end
  end.

Fixpoint has_newline (s : string) : bool :=
  match s with
  | EmptyString => false
  | String c s' => Ascii.eqb c "010"%char || has_newline s'
  end.

Lemma read_line_cons (n : nat) (c : ascii) (s : string) :
  read_line (S n) (String c s)
  = if Ascii.eqb c "010"%char then String c EmptyString
    else String c (read_line n s).
Proof. reflexivity. Qed.

Lemma strip_newline_single (c : ascii) :
  strip_newline (String c EmptyString)
  = if Ascii.eqb c "010"%char then EmptyString else String c EmptyString.
Proof. reflexivity. Qed.

Lemma strip_newline_cons2 (c c' : ascii) (r : string) :
  strip_newline (String c (String c' r))
  = String c (strip_newline (String c' r)).
Proof. reflexivity. Qed.

Lemma has_newline_cons (c : ascii) (s : string) :
  has_newline (String c s) = Ascii.eqb c "010"%char || has_newline s.
Proof. reflexivity. Qed.

Lemma read_line_length (n : nat) (s : string) :
  String.length (read_line n s) <= n.
Proof.
  revert s. induction n as [|n IH]; intros [|c s]; try (simpl; lia).
  rewrite read_line_cons.
  destruct (Ascii.eqb c "010"%char); simpl; [lia|].
  specialize (IH s). lia.
Qed.

Lemma strip_newline_length (s : string) :
  String.length (strip_newline s) <= String.length s.
Proof.
  induction s as [|c s IH]; [done|].
  destruct s as [|c' s'].
  - rewrite strip_newline_single.
    destruct (Ascii.eqb c "010"%char); simpl; lia.
  - rewrite strip_newline_cons2. simpl in *. lia.
Qed.

Lemma strip_cons_no_newline (c : ascii) (r : string) :
  Ascii.eqb c "010"%char = false ->
  has_newline (strip_newline r) = false ->
  has_newline (strip_newline (String c r)) = false.
Proof.
  intros Hc Hr. destruct r as [|c' r].
  - rewrite strip_newline_single, Hc, has_newline_cons, Hc. done.
  - rewrite strip_newline_cons2, has_newline_cons, Hc, Hr. done.
Qed.

Lemma strip_cons (c : ascii) (r line : string) :
  Ascii.eqb c "010"%char = false ->
  strip_newline r = line ->
  strip_newline (String c r) = String c line.
Proof.
  intros Hc Hr. destruct r as [|c' r].
  - rewrite strip_newline_single, Hc. by subst line.
  - rewrite strip_newline_cons2. by rewrite Hr.
Qed.

Lemma strip_read_line_no_newline (n : nat) (s : string) :
  has_newline (strip_newline (read_line n s)) = false.
Proof.
  revert s. induction n as [|n IH]; intros [|c s]; try done.
  rewrite read_line_cons.
  destruct (Ascii.eqb c "010"%char) eqn:Hc.
  - by rewrite strip_newline_single, Hc.
  - by apply strip_cons_no_newline.
Qed.

(** A line that fits the buffer is read whole, without its newline. *)
Lemma strip_read_line_exact (n : nat) (line rest : string) :
  has_newline line = false ->
  String.length line < n ->
  strip_newline (read_line n (line +:+ newline +:+ rest)) = line
  /\ strip_newline (read_line n line) = line.
Proof.
  revert n. induction line as [|c line IH]; intros n Hnl Hlen.
  - destruct n as [|n]; [simpl in Hlen; lia|]. split; [done|].
    by destruct n.
  - destruct n as [|n]; [simpl in Hlen; lia|].
    rewrite has_newline_cons in Hnl.
    apply orb_false_iff in Hnl as [Hc Hnl].
    simpl in Hlen.
    destruct (IH n Hnl ltac:(lia)) as [IH1 IH2].
    rewrite !str_app_cons, !read_line_cons, Hc.
    split; by apply strip_cons.
Qed.

(** X8. [logflux_load_shared_secret] with an absent buffer or a size of
    zero answers [InvalidParam] and opens no file.  Otherwise it opens
    exactly one file, [agent.secret] under the directory named by
    XDG_RUNTIME_DIR if that variable is set, else under HOME, else under
    /tmp; a file that cannot be opened gives [Connection] and an empty file
    gives [Format], the buffer being left as it was.  A secret that is
    loaded contains no newline and is shorter than the buffer; when the
    first line of the file fits the buffer the secret is that line. *)
Theorem load_shared_secret_contract :
  (forall secret size w,
     secret = None \/ size = 0 ->
     logflux_load_shared_secret secret size w
     = Ret (LOGFLUX_ERROR_INVALID_PARAM, secret) w)
  /\
  (forall (old : string) (size : nat) (w : world),
     size <> 0 ->
     exists (r : logflux_error_t) (s' : string),
       logflux_load_shared_secret (Some old) size w
       = Ret (r, Some s')
             (set_trace (trace w ++ [EvFopen (secret_path w)]) w)
       /\ match files w (secret_path w) with
          | None => r = LOGFLUX_ERROR_CONNECTION /\ s' = old
          | Some EmptyString => r = LOGFLUX_ERROR_FORMAT /\ s' = old
          | Some content =>
            r = LOGFLUX_OK
            /\ has_newline s' = false
            /\ String.length s' < size
            /\ (forall line rest,
                  has_newline line = false ->
                  String.length line < size - 1 ->
                  content = line +:+ newline +:+ rest \/ content = line ->
                  s' = line)
          end).
Proof.
  split.
  - intros secret size w H. unfold logflux_load_shared_secret.
    destruct secret as [old|]; [|done].
    destruct H as [H | ->]; [done|]. done.
  - intros old size w Hsize.
    assert (forall path,
      exists (r : logflux_error_t) (s' : string),
        (file <- fopen path ;;
         match file with
         | Some content =>
           match fgets size content with
           | Some line => ret (LOGFLUX_OK, Some (strip_newline line))
           | None => ret (LOGFLUX_ERROR_FORMAT, Some old)
           end
         | None => ret (LOGFLUX_ERROR_CONNECTION, Some old)
         end) w
        = Ret (r, Some s') (set_trace (trace w ++ [EvFopen path]) w)
        /\ match files w path with
           | None => r = LOGFLUX_ERROR_CONNECTION /\ s' = old
           | Some EmptyString => r = LOGFLUX_ERROR_FORMAT /\ s' = old
           | Some content =>
             r = LOGFLUX_OK
             /\ has_newline s' = false
             /\ String.length s' < size
             /\ (forall line rest,
                   has_newline line = false ->
                   String.length line < size - 1 ->
                   content = line +:+ newline +:+ rest \/ content = line ->
                   s' = line)
           end) as Hfile.
    { intros path. unfold bind, fopen, ret. simpl.
      destruct (files w path) as [[|ch content]|]; simpl; [by eauto | | by eauto].
      eexists _, _. split; [reflexivity|].
      split; [done|]. split; [apply strip_read_line_no_newline|].
      split.
      - pose proof (strip_newline_length (read_line (size - 1) (String ch content))).
        pose proof (read_line_length (size - 1) (String ch content)). lia.
      - intros line rest Hnl Hlen [Hc | Hc]; rewrite Hc.
        + by apply strip_read_line_exact.
        + by apply (strip_read_line_exact (size - 1) line EmptyString). }
    unfold logflux_load_shared_secret. rewrite decide_False by done.
    unfold secret_path, getenv.
    destruct (environ w "XDG_RUNTIME_DIR") as [dir|] eqn:Hxdg.
    + unfold bind at 1. unfold bind at 1. rewrite Hxdg. apply Hfile.
    + unfold bind at 1. unfold bind at 1. rewrite Hxdg.
      unfold bind at 1.
      destruct (environ w "HOME") as [dir|] eqn:Hhome; apply Hfile.
Qed.

(** A secret file under the XDG runtime directory, HOME being set too. *)
Definition secret_world : world :=
  World ∅ [] [] [] [] 1700000000
        (fun name =>
           if String.eqb name "XDG_RUNTIME_DIR" then Some "/run/user/1000"
           else if String.eqb name "HOME" then Some "/home/u" else None)
        (fun path =>
           if String.eqb path "/run/user/1000/logflux/agent.secret"
           then Some ("s3cret" +:+ newline +:+ "second line") else None)
        (fun _ => 1%Z) true.

Example load_shared_secret_reads_first_line :
  logflux_load_shared_secret (Some EmptyString) 128 secret_world
  = Ret (LOGFLUX_OK, Some "s3cret")
        (set_trace [EvFopen "/run/user/1000/logflux/agent.secret"]
                   secret_world).
Proof. vm_compute. reflexivity. Qed.

(** ** Error descriptions *)

(** The values of [logflux_error_t]. *)
Definition error_code (e : logflux_error_t) : Z :=
  match e with
  | LOGFLUX_OK => 0
  | LOGFLUX_ERROR_INVALID_PARAM => -1
  | LOGFLUX_ERROR_MEMORY => -2
  | LOGFLUX_ERROR_CONNECTION => -3
  | LOGFLUX_ERROR_TIMEOUT => -4
  | LOGFLUX_ERROR_FORMAT => -5
  | LOGFLUX_ERROR_NOT_CONNECTED => -6
  end.

(** [logflux_error_string]; its argument is an [int], which a caller can
    cast from anything. *)
Definition logflux_error_string (error : Z) : string :=
  if (error =? error_code LOGFLUX_OK)%Z then "Success"
  else if (error =? error_code LOGFLUX_ERROR_INVALID_PARAM)%Z
  then "Invalid parameter"
  else if (error =? error_code LOGFLUX_ERROR_MEMORY)%Z
  then "Memory allocation error"
  else if (error =? error_code LOGFLUX_ERROR_CONNECTION)%Z
  then "Connection error"
  else if (error =? error_code LOGFLUX_ERROR_TIMEOUT)%Z then "Timeout"
  else if (error =? error_code LOGFLUX_ERROR_FORMAT)%Z then "Format error"
  else if (error =? error_code LOGFLUX_ERROR_NOT_CONNECTED)%Z
  then "Not connected"
  else "Unknown error".

(** X9. [logflux_error_string] tells the seven error kinds apart: two
    kinds never share a description; and an integer gets the description
    "Unknown error" exactly when it is the value of none of them (below -6
    or above 0). *)
Theorem error_string_distinguishes_kinds :
  (forall e1 e2 : logflux_error_t,
     logflux_error_string (error_code e1) = logflux_error_string (error_code e2)
     -> e1 = e2)
  /\
  (forall z : Z,
     logflux_error_string z = "Unknown error" <-> (z < -6 \/ 0 < z)%Z).
Proof.
  split.
  - intros [] []; vm_compute; congruence.
  - intros z. unfold logflux_error_string, error_code.
    repeat match goal with
    | |- context [(z =? ?k)%Z] =>
      let E := fresh "E" in
      destruct (z =? k)%Z eqn:E;
      [ apply Z.eqb_eq in E; subst z; split; [discriminate | lia]
      | apply Z.eqb_neq in E ]
    end.
    split; [lia | done].
Qed.

(** ** The setters of an entry *)

Lemma read_str_over_entry h (p : loc) (e e' : logflux_entry) q :
  h !! p = Some (BEntry e) ->
  read_str (<[p := BEntry e']> h) q = read_str h q.
Proof.
  intros Hp. unfold read_str. destruct q as [l|]; [|done].
  destruct (decide (l = p)) as [->|Hne].
  - by rewrite lookup_insert_eq, Hp.
  - by rewrite lookup_insert_ne.
Qed.

Lemma read_cell_over_entry h (p : loc) (e e' : logflux_entry) arr i :
  h !! p = Some (BEntry e) ->
  read_cell (<[p := BEntry e']> h) arr i = read_cell h arr i.
Proof.
  intros Hp. unfold read_cell. destruct arr as [a|]; [|done].
  destruct (decide (a = p)) as [->|Hne].
  - by rewrite lookup_insert_eq, Hp.
  - rewrite lookup_insert_ne by done.
    destruct (h !! a) as [[]|]; try done.
    destruct (cells !! i); [|done]. by eapply read_str_over_entry.
Qed.

Lemma mapM_ext_in {A B} (f g : A -> option B) (l : list A) :
  (forall x, f x = g x) -> mapM f l = mapM g l.
Proof.
  intros H. induction l as [|x l IH]; [done|].
  simpl. by rewrite H, IH.
Qed.

(** Storing a struct with the same pointers and label counters over the
    entry changes what is read only in the scalar fields. *)
Lemma read_entry_over_entry h (p : loc) (e e' : logflux_entry)
  (v : entry_view) :
  h !! p = Some (BEntry e) ->
  read_entry h p = Some v ->
  entry_id e' = entry_id e -> entry_message e' = entry_message e ->
  entry_source e' = entry_source e ->
  labels_keys e' = labels_keys e -> labels_values e' = labels_values e ->
  labels_count e' = labels_count e ->
  read_entry (<[p := BEntry e']> h) p
  = Some (View (view_id v) (view_message v) (view_source v)
               (entry_level e') (entry_type e') (entry_timestamp e')
               (view_labels v)).
Proof.
  intros Hp Hv Hi Hm Hs Hk Hva Hc.
  unfold read_entry in *. rewrite Hp in Hv. rewrite lookup_insert_eq.
  rewrite !(read_str_over_entry h p e e') by done.
  assert (read_labels (<[p:=BEntry e']> h) e' = read_labels h e) as ->.
  { unfold read_labels. rewrite Hc. apply mapM_ext_in. intros i.
    unfold read_label. rewrite Hk, Hva.
    by rewrite !(read_cell_over_entry h p e e'). }
  rewrite Hi, Hm, Hs.
  destruct (read_str h (entry_id e)); [|done].
  destruct (read_str h (entry_message e)); [|done].
  destruct (read_str h (entry_source e)); [|done].
  destruct (read_labels h e); [|done].
  by simplify_eq.
Qed.

(** X10. On an entry that can be read, [set_level], [set_type] and
    [set_timestamp] change the one field they name in what the encoder will
    read and leave the id, message, source, labels and the other scalar
    fields alone.  [set_type] refuses a type outside 1..5 with
    [InvalidParam], changing nothing; [set_timestamp] accepts every
    timestamp, negative ones included. *)
Theorem setters_change_one_field (p : loc) (v : entry_view) (w : world) :
  read_entry (heap w) p = Some v ->
  (forall level, (0 <= level <= 7)%Z ->
     exists w',
       logflux_entry_set_level (Some p) level w = Ret LOGFLUX_OK w'
       /\ read_entry (heap w') p
          = Some (View (view_id v) (view_message v) (view_source v)
                       level (view_type v) (view_timestamp v)
                       (view_labels v)))
  /\
  (forall type, (1 <= type <= 5)%Z ->
     exists w',
       logflux_entry_set_type (Some p) type w = Ret LOGFLUX_OK w'
       /\ read_entry (heap w') p
          = Some (View (view_id v) (view_message v) (view_source v)
                       (view_level v) type (view_timestamp v)
                       (view_labels v)))
  /\
  (forall type, (type < 1 \/ 5 < type)%Z ->
     logflux_entry_set_type (Some p) type w
     = Ret LOGFLUX_ERROR_INVALID_PARAM w)
  /\
  (forall timestamp,
     exists w',
       logflux_entry_set_timestamp (Some p) timestamp w = Ret LOGFLUX_OK w'
       /\ read_entry (heap w') p
          = Some (View (view_id v) (view_message v) (view_source v)
                       (view_level v) (view_type v) timestamp
                       (view_labels v))).
Proof.
  intros Hv.
  destruct (read_entry_inv _ _ _ Hv) as (e & Hp & _ & _ & _ & Hl & Ht & Hts & _).
  split_and!.
  - intros level [Hlo Hhi]. unfold logflux_entry_set_level.
    unfold LOGFLUX_LEVEL_EMERGENCY, LOGFLUX_LEVEL_DEBUG.
    apply Z.ltb_ge in Hlo. apply Z.ltb_ge in Hhi. rewrite Hlo, Hhi. cbn [orb].
    eexists. split.
    { run_step ltac:(by apply load_entry_at).
      run_step ltac:(by eapply store_at).
      reflexivity. }
    norm_world.
    erewrite read_entry_over_entry by done. simpl. by rewrite Ht, Hts.
  - intros type [Hlo Hhi]. unfold logflux_entry_set_type.
    unfold LOGFLUX_TYPE_LOG, LOGFLUX_TYPE_AUDIT.
    apply Z.ltb_ge in Hlo. apply Z.ltb_ge in Hhi. rewrite Hlo, Hhi. cbn [orb].
    eexists. split.
    { run_step ltac:(by apply load_entry_at).
      run_step ltac:(by eapply store_at).
      reflexivity. }
    norm_world.
    erewrite read_entry_over_entry by done. simpl. by rewrite Hl, Hts.
  - intros type H. unfold logflux_entry_set_type.
    unfold LOGFLUX_TYPE_LOG, LOGFLUX_TYPE_AUDIT.
    destruct H as [H|H]; apply Z.ltb_lt in H; rewrite H;
      by rewrite ?orb_true_r.
  - intros timestamp. unfold logflux_entry_set_timestamp.
    eexists. split.
    { run_step ltac:(by apply load_entry_at).
      run_step ltac:(by eapply store_at).
      reflexivity. }
    norm_world.
    erewrite read_entry_over_entry by done. simpl. by rewrite Hl, Ht.
Qed.

Lemma setters_change_one_field_witness :
  exists w',
    logflux_entry_set_type (Some sample_entry) 2 sample_world
    = Ret LOGFLUX_OK w'
    /\ read_entry (heap w') sample_entry
       = Some (View (view_id sample_view) (view_message sample_view)
                    (view_source sample_view) (view_level sample_view) 2
                    (view_timestamp sample_view) (view_labels sample_view)).
Proof.
  apply (proj1 (proj2 (setters_change_one_field sample_entry sample_view
                         sample_world ltac:(vm_compute; reflexivity))) 2%Z).
  lia.
Defined.

(** ** The memory an entry owns *)

(** Where the parts of an entry live: the three strings, the two label
    arrays (absent until the first label is added), the copies of the
    label keys and values, and the capacity of the arrays. *)
Record entry_layout := Layout {
  at_id : loc;
  at_message : loc;
  at_source : loc;
  at_keys : option loc;
  at_values : option loc;
  at_key_copies : list loc;
  at_value_copies : list loc;
  capacity : nat
}.

(** The blocks of an entry at [p]. *)
Definition owned (p : loc) (lay : entry_layout) : list loc :=
  option_list (at_keys lay) ++ option_list (at_values lay) ++
  p :: at_id lay :: at_message lay :: at_source lay ::
  at_key_copies lay ++ at_value_copies lay.

(** The struct of an entry with view [v] laid out as [lay]. *)
Definition entry_struct (v : entry_view) (lay : entry_layout) : logflux_entry :=
  Entry (Some (at_id lay)) (Some (at_message lay)) (Some (at_source lay))
        (view_level v) (view_type v) (view_timestamp v)
        (at_keys lay) (at_values lay)
        (length (view_labels v)) (capacity lay).

(** An array of [cap] cells of which the first ones hold [ptrs]. *)
Definition array_cells (cap : nat) (ptrs : list loc) : list (option loc) :=
  (Some <$> ptrs) ++ replicate (cap - length ptrs) None.

Definition array_at (h : gmap loc block) (arr : option loc) (cap : nat)
  (ptrs : list loc) : Prop :=
  match arr with
  | Some a => h !! a = Some (BArr (array_cells cap ptrs))
  | None => cap = 0
  end.

Definition strings_at (h : gmap loc block) (ptrs : list loc)
  (ss : list string) : Prop :=
  Forall2 (fun l s => h !! l = Some (BStr s)) ptrs ss.

(** The heap [h] is [frame] together with a well-formed entry at [p] that
    holds [v]: the blocks of the entry are pairwise distinct, none of them
    is in [frame], and everything else in [h] is what [frame] has. *)
Record entry_repr (frame h : gmap loc block) (p : loc) (v : entry_view)
  (lay : entry_layout) : Prop := EntryRepr {
  repr_nodup : NoDup (owned p lay);
  repr_frame : forall l, l ∈ owned p lay -> frame !! l = None;
  repr_rest : forall l, l ∉ owned p lay -> h !! l = frame !! l;
  repr_struct : h !! p = Some (BEntry (entry_struct v lay));
  repr_id : h !! at_id lay = Some (BStr (view_id v));
  repr_message : h !! at_message lay = Some (BStr (view_message v));
  repr_source : h !! at_source lay = Some (BStr (view_source v));
  repr_count : length (view_labels v) <= capacity lay;
  repr_keys : array_at h (at_keys lay) (capacity lay) (at_key_copies lay);
  repr_values :
    array_at h (at_values lay) (capacity lay) (at_value_copies lay);
  repr_key_strings : strings_at h (at_key_copies lay) (view_labels v).*1;
  repr_value_strings : strings_at h (at_value_copies lay) (view_labels v).*2
}.

Lemma strings_at_length h ptrs (ss : list string) :
  strings_at h ptrs ss -> length ptrs = length ss.
Proof. apply Forall2_length. Qed.

Lemma strings_at_live h ptrs ss l :
  strings_at h ptrs ss -> l ∈ ptrs -> is_Some (h !! l).
Proof.
  intros H Hl. apply list_elem_of_lookup in Hl as [i Hi].
  destruct (Forall2_lookup_l _ _ _ _ _ H Hi) as (s & _ & Hs). by eexists.
Qed.

Lemma strings_at_agree h h' ptrs ss :
  strings_at h ptrs ss ->
  (forall l, l ∈ ptrs -> h' !! l = h !! l) ->
  strings_at h' ptrs ss.
Proof.
  unfold strings_at. intros H Hag.
  induction H as [|l s ptrs ss Hl H IH]; constructor.
  - rewrite Hag; [done | left].
  - apply IH. intros l' Hl'. apply Hag. by right.
Qed.

Lemma entry_repr_keys_length frame h p v lay :
  entry_repr frame h p v lay ->
  length (at_key_copies lay) = length (view_labels v).
Proof.
  intros H. rewrite (strings_at_length _ _ _ (repr_key_strings _ _ _ _ _ H)).
  by rewrite length_fmap.
Qed.

Lemma entry_repr_values_length frame h p v lay :
  entry_repr frame h p v lay ->
  length (at_value_copies lay) = length (view_labels v).
Proof.
  intros H. rewrite (strings_at_length _ _ _ (repr_value_strings _ _ _ _ _ H)).
  by rewrite length_fmap.
Qed.

(** Every block of the entry is live. *)
Lemma owned_live frame h p v lay l :
  entry_repr frame h p v lay -> l ∈ owned p lay -> is_Some (h !! l).
Proof.
  intros H Hl. destruct H. destruct lay as [i m s ks vs kp vp cap].
  unfold owned, array_at in *. simpl in *.
  rewrite !elem_of_app, !elem_of_cons, !elem_of_app in Hl.
  destruct Hl as [Hl|[Hl|[->|[->|[->|[->|[Hl|Hl]]]]]]]; try by eexists.
  - destruct ks; simpl in *; set_unfold in Hl; [|done].
    destruct Hl as [->|[]]. by eexists.
  - destruct vs; simpl in *; set_unfold in Hl; [|done].
    destruct Hl as [->|[]]. by eexists.
  - eapply (strings_at_live h kp); eauto.
  - eapply (strings_at_live h vp); eauto.
Qed.

Lemma array_cells_lookup cap ptrs i l :
  ptrs !! i = Some l -> array_cells cap ptrs !! i = Some (Some l).
Proof.
  intros H. unfold array_cells.
  rewrite lookup_app_l by (rewrite length_fmap; by eapply lookup_lt_Some).
  by rewrite list_lookup_fmap, H.
Qed.

Lemma read_cell_array h a cap ptrs ss i :
  h !! a = Some (BArr (array_cells cap ptrs)) ->
  strings_at h ptrs ss ->
  i < length ss ->
  read_cell h (Some a) i = ss !! i.
Proof.
  intros Ha Hs Hi. unfold read_cell. rewrite Ha.
  destruct (lookup_lt_is_Some_2 ss i Hi) as [s Hsi].
  destruct (Forall2_lookup_r _ _ _ _ _ Hs Hsi) as (l & Hl & Hls).
  rewrite (array_cells_lookup _ _ _ _ Hl). unfold read_str.
  by rewrite Hls, Hsi.
Qed.

(** What the encoder reads from a well-formed entry is its view. *)
Lemma entry_repr_read frame h p v lay :
  entry_repr frame h p v lay -> read_entry h p = Some v.
Proof.
  intros H.
  pose proof (entry_repr_keys_length _ _ _ _ _ H) as Hkl.
  destruct H. unfold read_entry. rewrite repr_struct0.
  unfold entry_struct at 1 2 3. cbn [entry_id entry_message entry_source].
  unfold read_str at 1 2 3. rewrite repr_id0, repr_message0, repr_source0.
  assert (read_labels h (entry_struct v lay) = Some (view_labels v)) as ->.
  { unfold read_labels. apply mapM_Some.
    apply Forall2_same_length_lookup_2.
    { by rewrite length_seq. }
    intros i j [k x] Hj Hkx. cbn [entry_struct labels_count] in Hj.
    apply lookup_seq in Hj as [-> Hlt]. simpl.
    unfold read_label. cbn [entry_struct labels_keys labels_values].
    assert (capacity lay <> 0) by lia.
    unfold array_at in *.
    destruct (at_keys lay) as [a|]; [|done].
    destruct (at_values lay) as [b|]; [|done].
    erewrite (read_cell_array h a), (read_cell_array h b);
      try done; try (by rewrite length_fmap).
    by rewrite !list_lookup_fmap, Hkx. }
  by destruct v.
Qed.

(** ** Growing the label arrays *)

Lemma array_cells_length cap ptrs :
  length ptrs <= cap -> length (array_cells cap ptrs) = cap.
Proof.
  intros H. unfold array_cells.
  rewrite length_app, length_fmap, length_replicate. lia.
Qed.

Lemma array_cells_grow cap n ptrs :
  length ptrs <= cap -> cap <= n ->
  take n (array_cells cap ptrs)
  ++ replicate (n - length (array_cells cap ptrs)) None
  = array_cells n ptrs.
Proof.
  intros H1 H2. rewrite array_cells_length by done.
  rewrite take_ge by (rewrite array_cells_length; done).
  unfold array_cells. rewrite <- (assoc_L (++)), <- replicate_add.
  do 2 f_equal. lia.
Qed.

Lemma array_cells_snoc cap ptrs l :
  length ptrs < cap ->
  <[length ptrs := Some l]> (array_cells cap ptrs)
  = array_cells cap (ptrs ++ [l]).
Proof.
  intros H. unfold array_cells.
  rewrite insert_app_r_alt by (rewrite length_fmap; done).
  rewrite length_fmap, Nat.sub_diag, fmap_app, length_app. simpl.
  destruct (cap - length ptrs) as [|k] eqn:E; [lia|].
  replace (cap - (length ptrs + 1)) with k by lia.
  simpl. by rewrite <- (assoc_L (++)).
Qed.

(** A successful [realloc] of a label array to [n >= cap] cells: the
    result holds the old cells; it is the old block or a block that was
    free (the old one then being released). *)
Lemma realloc_grow (arr : option loc) (cap n : nat) (ptrs : list loc)
  (w : world) :
  hd true (allocs w) = true ->
  array_at (heap w) arr cap ptrs ->
  length ptrs <= cap -> cap <= n ->
  exists (a' : loc) (h' : gmap loc block),
    realloc arr n w
    = Ret (Some a') (set_heap h' (set_allocs (tail (allocs w)) w))
    /\ h' !! a' = Some (BArr (array_cells n ptrs))
    /\ (a' ∈ option_list arr \/ heap w !! a' = None)
    /\ (forall l, l <> a' ->
          h' !! l = if decide (l ∈ option_list arr) then None
                    else heap w !! l).
Proof.
  intros Hok Harr Hlen Hn. unfold realloc.
  pose proof (next_alloc_ok w) as H1. pose proof (next_alloc_snd w) as H2.
  destruct (next_alloc w) as [ok w1]. simpl in H1, H2. subst ok w1.
  rewrite Hok. unfold array_at in Harr.
  destruct arr as [a|].
  - cbn [heap set_allocs]. rewrite Harr. cbn [realloc_moves set_allocs].
    rewrite array_cells_grow by done.
    destruct (realloc_moves w).
    + pose proof (next_loc_fresh w) as Hf. fold (next_loc w).
      set (a' := next_loc w) in *.
      assert (a' <> a) by (intros ->; by rewrite Hf in Harr).
      exists a', (<[a' := BArr (array_cells n ptrs)]> (delete a (heap w))).
      split_and!; [done | by rewrite lookup_insert_eq | by right |].
      intros l Hl. rewrite lookup_insert_ne by done.
      simpl. case_decide as Hin; set_unfold in Hin.
      * destruct Hin as [->|[]]. by rewrite lookup_delete_eq.
      * rewrite lookup_delete_ne; [done | naive_solver].
    + exists a, (<[a := BArr (array_cells n ptrs)]> (heap w)).
      split_and!; [done | by rewrite lookup_insert_eq | left; simpl; set_solver |].
      intros l Hl. rewrite lookup_insert_ne by done.
      simpl. case_decide as Hin; set_unfold in Hin; [naive_solver | done].
  - subst cap. destruct ptrs; [|simpl in Hlen; lia].
    cbn [heap set_allocs].
    pose proof (next_loc_fresh w) as Hf. fold (next_loc w).
    set (a' := next_loc w) in *.
    exists a', (<[a' := BArr (array_cells n [])]> (heap w)).
    split_and!.
    + unfold array_cells. simpl. by rewrite Nat.sub_0_r.
    + by rewrite lookup_insert_eq.
    + by right.
    + intros l Hl. rewrite lookup_insert_ne by done.
      destruct (decide _) as [Hin|]; [by set_unfold in Hin | done].
Qed.

Lemma realloc_fails (arr : option loc) (n : nat) (w : world) :
  hd true (allocs w) = false ->
  realloc arr n w = Ret None (set_allocs (tail (allocs w)) w).
Proof.
  intros Hok. unfold realloc.
  pose proof (next_alloc_ok w) as H1. pose proof (next_alloc_snd w) as H2.
  destruct (next_alloc w) as [ok w1]. simpl in H1, H2. subst ok w1.
  by rewrite Hok.
Qed.

Lemma free_not_in_frame frame h p v lay l :
  entry_repr frame h p v lay -> h !! l = None -> frame !! l = None.
Proof.
  intros H Hl. destruct (decide (l ∈ owned p lay)) as [Hin|Hin].
  - by apply (repr_frame _ _ _ _ _ H).
  - by rewrite <- (repr_rest _ _ _ _ _ H).
Qed.

Lemma free_not_owned frame h p v lay l :
  entry_repr frame h p v lay -> h !! l = None -> l ∉ owned p lay.
Proof.
  intros H Hl Hin. destruct (owned_live _ _ _ _ _ _ H Hin) as [b Hb].
  by rewrite Hl in Hb.
Qed.

(** The entry after both arrays were reallocated to [n] cells and the new
    pointers stored in it. *)
Definition grown_layout (lay : entry_layout) (a' b' : loc) (n : nat)
  : entry_layout :=
  Layout (at_id lay) (at_message lay) (at_source lay) (Some a') (Some b')
         (at_key_copies lay) (at_value_copies lay) n.

Lemma grow_repr frame h (h1 h2 : gmap loc block) p v lay (a' b' : loc)
  (n : nat) :
  entry_repr frame h p v lay ->
  h1 !! a' = Some (BArr (array_cells n (at_key_copies lay))) ->
  (a' ∈ option_list (at_keys lay) \/ h !! a' = None) ->
  (forall l, l <> a' ->
     h1 !! l = if decide (l ∈ option_list (at_keys lay)) then None
               else h !! l) ->
  h2 !! b' = Some (BArr (array_cells n (at_value_copies lay))) ->
  (b' ∈ option_list (at_values lay) \/ h1 !! b' = None) ->
  (forall l, l <> b' ->
     h2 !! l = if decide (l ∈ option_list (at_values lay)) then None
               else h1 !! l) ->
  capacity lay <= n ->
  h2 !! p = h !! p
  /\ entry_repr frame
       (<[p := BEntry (entry_struct v (grown_layout lay a' b' n))]> h2)
       p v (grown_layout lay a' b' n).
Proof.
  intros H K1 K2 K3 V1 V2 V3 Hn.
  pose proof (fun l => owned_live _ _ _ _ _ l H) as Hlive.
  pose proof (fun l => free_not_in_frame _ _ _ _ _ l H) as Hfree.
  destruct H as [Hnd Hfr Hrest Hst Hi Hm Hs Hc Hk Hv Hks Hvs].
  destruct lay as [i m s ks vs kp vp cap].
  unfold grown_layout, owned in *. cbn [at_id at_message at_source at_keys
    at_values at_key_copies at_value_copies capacity option_list] in *.
  set (base := p :: i :: m :: s :: kp ++ vp) in *.
  apply NoDup_app in Hnd as (Nk & Dk & Hnd).
  apply NoDup_app in Hnd as (Nv & Dv & Nb).
  assert (Hbase : forall x, x ∈ base ->
            (x ∉ option_list ks) /\ (x ∉ option_list vs)
            /\ is_Some (h !! x)).
  { intros x Hx. split_and!.
    - intros Hin. apply (Dk _ Hin). set_solver.
    - intros Hin. by apply (Dv _ Hin).
    - apply Hlive. set_solver. }
  assert (Hlv : forall x, x ∈ option_list vs -> is_Some (h !! x)).
  { intros x Hx. apply Hlive. set_solver. }
  assert (Ha'v : a' ∉ option_list vs).
  { intros Hin. destruct K2 as [K2|K2].
    - apply (Dk _ K2). set_solver.
    - destruct (Hlv _ Hin) as [? E]. by rewrite K2 in E. }
  assert (Ha'b : forall x, x ∈ base -> x <> a').
  { intros x Hx ->. destruct (Hbase _ Hx) as (Hnk & _ & [? E]).
    destruct K2 as [K2|K2]; [done | by rewrite K2 in E]. }
  assert (Hab : a' <> b').
  { intros <-. destruct V2 as [V2|V2]; [done | by rewrite K1 in V2]. }
  assert (H1base : forall x, x ∈ base -> h1 !! x = h !! x).
  { intros x Hx. rewrite K3 by (by apply Ha'b).
    destruct (decide _) as [Hin|]; [|done]. by destruct (Hbase _ Hx). }
  assert (Hb'b : forall x, x ∈ base -> x <> b').
  { intros x Hx ->. destruct (Hbase _ Hx) as (_ & Hnv & [? E]).
    destruct V2 as [V2|V2]; [done|].
    rewrite H1base in V2 by done. by rewrite V2 in E. }
  assert (H2base : forall x, x ∈ base -> h2 !! x = h !! x).
  { intros x Hx. rewrite V3 by (by apply Hb'b).
    destruct (decide _) as [Hin|]; [by destruct (Hbase _ Hx) as (_ & ? & _)|].
    by apply H1base. }
  assert (Hpb : p ∈ base) by (subst base; set_solver).
  pose proof Nb as Nb'. apply NoDup_cons in Nb' as [Hp _].
  assert (H3base : forall b0 x, x ∈ i :: m :: s :: kp ++ vp ->
            <[p := b0]> h2 !! x = h !! x).
  { intros b0 x Hx. rewrite lookup_insert_ne by (by intros ->).
    apply H2base. subst base. set_solver. }
  split; [by apply H2base|].
  constructor; unfold owned;
    cbn [at_id at_message at_source at_keys at_values at_key_copies
         at_value_copies capacity option_list option_rect app]; fold base.
  - apply NoDup_cons. split; [|apply NoDup_cons; split; [|done]].
    + rewrite not_elem_of_cons. split; [done|].
      intros Hin. by apply (Ha'b _ Hin).
    + intros Hin. by apply (Hb'b _ Hin).
  - intros l Hl. rewrite !elem_of_cons in Hl.
    destruct Hl as [->|[->|Hl]].
    + destruct K2 as [K2|K2]; [apply Hfr; set_solver | by apply Hfree].
    + destruct V2 as [V2|V2]; [apply Hfr; set_solver |].
      rewrite K3 in V2 by done.
      destruct (decide _) as [Hin|]; [apply Hfr; set_solver | by apply Hfree].
    + apply Hfr. set_solver.
  - intros l Hl. rewrite !not_elem_of_cons in Hl.
    destruct Hl as (Hla & Hlb & Hlbase).
    rewrite lookup_insert_ne by (by intros ->).
    rewrite V3 by done.
    destruct (decide _) as [Hin|Hnv]; [symmetry; apply Hfr; set_solver|].
    rewrite K3 by done.
    destruct (decide _) as [Hin|Hnk]; [symmetry; apply Hfr; set_solver|].
    apply Hrest. set_solver.
  - by rewrite lookup_insert_eq.
  - rewrite H3base; [done | set_solver].
  - rewrite H3base; [done | set_solver].
  - rewrite H3base; [done | set_solver].
  - lia.
  - unfold array_at.
    rewrite lookup_insert_ne by (intros <-; by apply (Ha'b p)).
    rewrite V3 by done. by destruct (decide _).
  - unfold array_at.
    by rewrite lookup_insert_ne by (intros <-; by apply (Hb'b p)).
  - eapply strings_at_agree; [done|]. intros l Hl.
    apply H3base. set_solver.
  - eapply strings_at_agree; [done|]. intros l Hl.
    apply H3base. set_solver.
Qed.

(** ** Appending a label *)

Definition with_label (v : entry_view) (k x : string) : entry_view :=
  View (view_id v) (view_message v) (view_source v) (view_level v)
       (view_type v) (view_timestamp v) (view_labels v ++ [(k, x)]).

Definition appended_layout (lay : entry_layout) (kc vc : loc)
  : entry_layout :=
  Layout (at_id lay) (at_message lay) (at_source lay)
         (at_keys lay) (at_values lay)
         (at_key_copies lay ++ [kc]) (at_value_copies lay ++ [vc])
         (capacity lay).

Lemma owned_appended p lay kc vc :
  owned p (appended_layout lay kc vc) ≡ₚ owned p lay ++ [kc; vc].
Proof.
  unfold owned, appended_layout. destruct lay as [i m s ks vs kp vp cap].
  cbn [at_id at_message at_source at_keys at_values at_key_copies
       at_value_copies capacity].
  rewrite <- !(assoc_L (++)). do 2 f_equiv. simpl. do 4 f_equiv.
  rewrite <- !(assoc_L (++)). f_equiv. simpl.
  apply Permutation_middle.
Qed.

Lemma append_repr frame h p v lay (a b kc vc : loc) (k x : string) :
  entry_repr frame h p v lay ->
  at_keys lay = Some a -> at_values lay = Some b ->
  length (view_labels v) < capacity lay ->
  h !! kc = None -> h !! vc = None -> kc <> vc ->
  entry_repr frame
    (<[p := BEntry (entry_struct (with_label v k x)
                                 (appended_layout lay kc vc))]>
      (<[b := BArr (<[length (view_labels v) := Some vc]>
                      (array_cells (capacity lay) (at_value_copies lay)))]>
        (<[a := BArr (<[length (view_labels v) := Some kc]>
                        (array_cells (capacity lay) (at_key_copies lay)))]>
          (<[vc := BStr x]> (<[kc := BStr k]> h)))))
    p (with_label v k x) (appended_layout lay kc vc).
Proof.
  intros H Ha Hb Hlt Hkc Hvc Hne.
  pose proof (fun l => owned_live _ _ _ _ _ l H) as Hlive.
  pose proof (fun l => free_not_in_frame _ _ _ _ _ l H) as Hfree.
  pose proof (free_not_owned _ _ _ _ _ _ H Hkc) as Hkc'.
  pose proof (free_not_owned _ _ _ _ _ _ H Hvc) as Hvc'.
  pose proof (entry_repr_keys_length _ _ _ _ _ H) as Hkl.
  pose proof (entry_repr_values_length _ _ _ _ _ H) as Hvl.
  pose proof (owned_appended p lay kc vc) as Hperm.
  destruct H as [Hnd Hfr Hrest Hst Hi Hm Hs Hc Hk Hv Hks Hvs].
  destruct lay as [i m s ks vs kp vp cap].
  cbn [at_id at_message at_source at_keys at_values at_key_copies
       at_value_copies capacity] in *. subst ks vs.
  set (lay' := appended_layout _ kc vc) in *.
  unfold owned in Hnd, Hfr, Hrest, Hlive, Hkc', Hvc'.
  cbn [at_id at_message at_source at_keys at_values at_key_copies
       at_value_copies capacity option_list option_rect app] in *.
  set (old := a :: b :: p :: i :: m :: s :: kp ++ vp) in *.
  set (h8 := <[p := _]> _).
  assert (Hab : a <> b /\ a <> p /\ b <> p).
  { subst old. rewrite !NoDup_cons in Hnd. set_solver. }
  destruct Hab as (Hab & Hap & Hbp).
  assert (H8 : forall l, l ∈ i :: m :: s :: kp ++ vp -> h8 !! l = h !! l).
  { intros l Hl.
    assert (l ∈ old) as Hlo by (subst old; set_solver).
    assert (l <> a /\ l <> b /\ l <> p) as (? & ? & ?).
    { subst old. rewrite !NoDup_cons in Hnd. set_solver. }
    subst h8. rewrite !lookup_insert_ne; [done| | |done|done|done].
    - intros <-. by apply Hkc'.
    - intros <-. by apply Hvc'. }
  assert (Hfresh : forall l, l ∈ old -> l <> kc /\ l <> vc).
  { intros l Hl. split; by intros ->. }
  constructor.
  - rewrite Hperm. apply NoDup_app. split_and!; [done | |].
    + intros l Hl. destruct (Hfresh _ Hl). set_solver.
    + apply NoDup_cons. split; [set_solver | apply NoDup_singleton].
  - intros l. rewrite Hperm, elem_of_app. intros [Hl|Hl].
    + by apply Hfr.
    + set_unfold in Hl. destruct Hl as [->|[->|[]]]; by apply Hfree.
  - intros l. rewrite Hperm, not_elem_of_app. intros [Hl Hl'].
    rewrite <- Hrest by done.
    assert (l <> a /\ l <> b /\ l <> p) as (? & ? & ?)
      by (subst old; set_solver).
    subst h8. rewrite !lookup_insert_ne; [done | set_solver..].
  - subst h8. by rewrite lookup_insert_eq.
  - rewrite H8; [done | set_solver].
  - rewrite H8; [done | set_solver].
  - rewrite H8; [done | set_solver].
  - cbn [with_label view_labels lay' appended_layout capacity].
    rewrite length_app. simpl. lia.
  - unfold array_at. cbn [lay' appended_layout at_keys capacity at_key_copies].
    subst h8. rewrite lookup_insert_ne by done.
    rewrite lookup_insert_ne by done. rewrite lookup_insert_eq.
    rewrite <- Hkl. rewrite array_cells_snoc by lia. done.
  - unfold array_at.
    cbn [lay' appended_layout at_values capacity at_value_copies].
    subst h8. rewrite lookup_insert_ne by done. rewrite lookup_insert_eq.
    rewrite <- Hvl. rewrite array_cells_snoc by lia. done.
  - cbn [lay' appended_layout at_key_copies with_label view_labels].
    rewrite fmap_app. apply Forall2_app.
    + eapply strings_at_agree; [done|]. intros l Hl. apply H8. set_solver.
    + constructor; [|constructor]. simpl. subst h8.
      assert (kc <> a /\ kc <> b /\ kc <> p) as (? & ? & ?)
        by (subst old; set_solver).
      rewrite !lookup_insert_ne by done. by rewrite lookup_insert_eq.
  - cbn [lay' appended_layout at_value_copies with_label view_labels].
    rewrite fmap_app. apply Forall2_app.
    + eapply strings_at_agree; [done|]. intros l Hl. apply H8. set_solver.
    + constructor; [|constructor]. simpl. subst h8.
      assert (vc <> a /\ vc <> b /\ vc <> p) as (? & ? & ?)
        by (subst old; set_solver).
      rewrite !lookup_insert_ne by done. by rewrite lookup_insert_eq.
Qed.

(** ** The two phases of [logflux_entry_add_label] *)

(** Copying the key and the value and storing the copies in the first
    free cells. *)
Definition append_label (p : loc) (k v : string) : M logflux_error_t :=
  key_copy <- strdup k ;;
  value_copy <- strdup v ;;
  if is_null key_copy || is_null value_copy then
    free key_copy ;;
    free value_copy ;;
    ret LOGFLUX_ERROR_MEMORY
  else
    e <- load_entry p ;;
    store_cell (labels_keys e) (labels_count e) key_copy ;;
    store_cell (labels_values e) (labels_count e) value_copy ;;
    store p (BEntry (set_labels (labels_keys e) (labels_values e)
                                (S (labels_count e))
                                (labels_capacity e) e)) ;;
    ret LOGFLUX_OK.

Definition new_capacity (e : logflux_entry) : nat :=
  if decide (labels_capacity e = 0) then 4 else labels_capacity e * 2.

(** Growing both arrays, then [rest]. *)
Definition grow_labels (p : loc) (e : logflux_entry)
  (rest : M logflux_error_t) : M logflux_error_t :=
  new_keys <- realloc (labels_keys e) (new_capacity e) ;;
  new_values <- realloc (labels_values e) (new_capacity e) ;;
  if is_null new_keys || is_null new_values then
    free new_keys ;;
    free new_values ;;
    ret LOGFLUX_ERROR_MEMORY
  else
    store p (BEntry (set_labels new_keys new_values (labels_count e)
                                (new_capacity e) e)) ;;
    rest.

Lemma add_label_phases (p : loc) (k x : string) :
  logflux_entry_add_label (Some p) (Some k) (Some x)
  = (e <- load_entry p ;;
     if decide (labels_capacity e <= labels_count e)
     then grow_labels p e (append_label p k x)
     else append_label p k x).
Proof. reflexivity. Qed.

Lemma tail_is_drop {A} (l : list A) : tail l = drop 1 l.
Proof. by destruct l. Qed.

Lemma tail_tail_is_drop {A} (l : list A) : tail (tail l) = drop 2 l.
Proof. by destruct l as [|? []]. Qed.

Lemma store_cell_run (a : loc) (cells : list (option loc)) (i : nat)
  (c : option loc) (w : world) :
  heap w !! a = Some (BArr cells) ->
  i < length cells ->
  store_cell (Some a) i c w
  = Ret tt (set_heap (<[a := BArr (<[i := c]> cells)]> (heap w)) w).
Proof.
  intros Ha Hi. unfold store_cell.
  erewrite bind_ret; [| unfold load; by rewrite Ha].
  cbv beta iota. rewrite decide_True by done. by eapply store_at.
Qed.

Lemma spare_arrays frame h p v lay :
  entry_repr frame h p v lay ->
  length (view_labels v) < capacity lay ->
  exists a b, at_keys lay = Some a /\ at_values lay = Some b.
Proof.
  intros H Hlt. destruct H. unfold array_at in *.
  destruct (at_keys lay), (at_values lay); try lia. by eexists _, _.
Qed.

Lemma set_labels_appended v lay kc vc k x :
  set_labels (at_keys lay) (at_values lay) (S (length (view_labels v)))
             (capacity lay) (entry_struct v lay)
  = entry_struct (with_label v k x) (appended_layout lay kc vc).
Proof.
  unfold set_labels, entry_struct, with_label, appended_layout. simpl.
  rewrite length_app. simpl. by rewrite Nat.add_1_r.
Qed.

(** With a spare cell and both copies allocated, the label is appended. *)
Lemma append_label_ok frame p v lay (k x : string) (w : world) :
  entry_repr frame (heap w) p v lay ->
  length (view_labels v) < capacity lay ->
  hd true (allocs w) = true ->
  hd true (tail (allocs w)) = true ->
  exists (h' : gmap loc block) (kc vc : loc),
    append_label p k x w
    = Ret LOGFLUX_OK (set_heap h' (set_allocs (drop 2 (allocs w)) w))
    /\ entry_repr frame h' p (with_label v k x) (appended_layout lay kc vc).
Proof.
  intros H Hlt Hok1 Hok2.
  destruct (spare_arrays _ _ _ _ _ H Hlt) as (a & b & Ha & Hb).
  pose proof (entry_repr_keys_length _ _ _ _ _ H) as Hkl.
  pose proof (entry_repr_values_length _ _ _ _ _ H) as Hvl.
  pose proof (next_loc_fresh w) as Hkc. set (kc := next_loc w) in *.
  set (w1 := set_heap (<[kc := BStr k]> (heap w))
                      (set_allocs (tail (allocs w)) w)).
  pose proof (next_loc_fresh w1) as Hvc. set (vc := next_loc w1) in *.
  simpl in Hvc. apply lookup_insert_None in Hvc as [Hvc Hne].
  pose proof (append_repr frame (heap w) p v lay a b kc vc k x
                H Ha Hb Hlt Hkc Hvc Hne) as Hrepr.
  eexists _, kc, vc. split; [|exact Hrepr].
  pose proof (fun l => owned_live _ _ _ _ _ l H) as Hlive.
  pose proof (free_not_owned _ _ _ _ _ _ H Hkc) as Hkc'.
  pose proof (free_not_owned _ _ _ _ _ _ H Hvc) as Hvc'.
  assert (a ∈ owned p lay /\ b ∈ owned p lay /\ p ∈ owned p lay)
    as (Hao & Hbo & Hpo).
  { unfold owned. rewrite Ha, Hb. set_solver. }
  assert (a <> b /\ a <> p /\ b <> p) as (? & ? & ?).
  { pose proof (repr_nodup _ _ _ _ _ H) as Hnd. unfold owned in Hnd.
    rewrite Ha, Hb in Hnd. simpl in Hnd. rewrite !NoDup_cons in Hnd.
    set_solver. }
  pose proof (repr_keys _ _ _ _ _ H) as Hk.
  pose proof (repr_values _ _ _ _ _ H) as Hv.
  unfold array_at in Hk, Hv. rewrite Ha in Hk. rewrite Hb in Hv.
  unfold append_label, strdup.
  run_step ltac:(by apply alloc_success'). fold kc w1.
  run_step ltac:(by apply alloc_success'). fold vc.
  set (w2 := set_heap _ _).
  cbn [is_null orb].
  run_step ltac:(apply (load_entry_at p (entry_struct v lay));
                 subst w2 w1; norm_world;
                 rewrite !lookup_insert_ne by (intros <-; done);
                 apply (repr_struct _ _ _ _ _ H)).
  cbn [entry_struct labels_keys labels_values labels_count labels_capacity].
  rewrite Ha, Hb.
  run_step ltac:(eapply (store_cell_run a);
                 [ subst w2 w1; norm_world;
                   rewrite !lookup_insert_ne by (intros <-; done);
                   exact Hk
                 | rewrite array_cells_length; lia ]).
  run_step ltac:(eapply (store_cell_run b);
                 [ subst w2 w1; norm_world;
                   rewrite lookup_insert_ne by done;
                   rewrite !lookup_insert_ne by (intros <-; done);
                   exact Hv
                 | rewrite array_cells_length; lia ]).
  run_step ltac:(eapply (store_at p);
                 subst w2 w1; norm_world;
                 rewrite !lookup_insert_ne by (done || (intros <-; done));
                 apply (repr_struct _ _ _ _ _ H)).
  unfold ret. f_equal.
  rewrite <- Ha, <- Hb. rewrite (set_labels_appended v lay kc vc k x).
  apply world_eq; subst w2 w1; norm_world; try done.
  by rewrite tail_tail_is_drop.
Qed.

(** When one of the two copies cannot be allocated, the other one is
    released again: the heap is what it was. *)
Lemma append_label_fails (p : loc) (k x : string) (w : world) :
  hd true (allocs w) && hd true (tail (allocs w)) = false ->
  append_label p k x w
  = Ret LOGFLUX_ERROR_MEMORY (set_allocs (drop 2 (allocs w)) w).
Proof.
  intros Hfail. unfold append_label, strdup.
  destruct (hd true (allocs w)) eqn:H1.
  - simpl in Hfail.
    run_step ltac:(by apply alloc_success').
    pose proof (next_loc_fresh w) as Hkc. set (kc := next_loc w) in *.
    run_step ltac:(by apply alloc_failure').
    cbn [is_null orb].
    run_step ltac:(eapply free_live; norm_world; apply lookup_insert_eq).
    run_step ltac:(reflexivity).
    unfold ret. f_equal. apply world_eq; norm_world; try done.
    + by rewrite delete_insert_id.
    + by rewrite tail_tail_is_drop.
  - run_step ltac:(by apply alloc_failure').
    destruct (hd true (tail (allocs w))) eqn:H2.
    + run_step ltac:(by apply alloc_success').
      pose proof (next_loc_fresh (set_allocs (tail (allocs w)) w)) as Hvc.
      set (vc := next_loc _) in *.
      cbn [is_null orb].
      run_step ltac:(reflexivity).
      run_step ltac:(eapply free_live; norm_world; apply lookup_insert_eq).
      unfold ret. f_equal. apply world_eq; norm_world; try done.
      * by rewrite delete_insert_id.
      * by rewrite tail_tail_is_drop.
    + run_step ltac:(by apply alloc_failure').
      cbn [is_null orb].
      run_step ltac:(reflexivity).
      run_step ltac:(reflexivity).
      unfold ret. f_equal. apply world_eq; norm_world; try done.
      by rewrite tail_tail_is_drop.
Qed.

Lemma grow_labels_fails (p : loc) (e : logflux_entry)
  (rest : M logflux_error_t) (w : world) :
  hd true (allocs w) = false ->
  hd true (tail (allocs w)) = false ->
  grow_labels p e rest w
  = Ret LOGFLUX_ERROR_MEMORY (set_allocs (drop 2 (allocs w)) w).
Proof.
  intros H1 H2. unfold grow_labels.
  run_step ltac:(by apply realloc_fails).
  run_step ltac:(by apply realloc_fails).
  cbn [is_null orb].
  run_step ltac:(reflexivity).
  run_step ltac:(reflexivity).
  unfold ret. f_equal. apply world_eq; norm_world; try done.
  by rewrite tail_tail_is_drop.
Qed.

(** With both reallocations succeeding the entry holds what it held, in
    arrays with room for another label. *)
Lemma grow_labels_ok frame p v lay (w : world) :
  entry_repr frame (heap w) p v lay ->
  capacity lay <= length (view_labels v) ->
  hd true (allocs w) = true ->
  hd true (tail (allocs w)) = true ->
  exists (h' : gmap loc block) (lay' : entry_layout),
    entry_repr frame h' p v lay'
    /\ length (view_labels v) < capacity lay'
    /\ forall rest : M logflux_error_t,
         grow_labels p (entry_struct v lay) rest w
         = rest (set_heap h' (set_allocs (drop 2 (allocs w)) w)).
Proof.
  intros H Hfull Hok1 Hok2.
  pose proof (entry_repr_keys_length _ _ _ _ _ H) as Hkl.
  pose proof (entry_repr_values_length _ _ _ _ _ H) as Hvl.
  pose proof (repr_count _ _ _ _ _ H) as Hc.
  set (n := new_capacity (entry_struct v lay)).
  assert (capacity lay <= n /\ length (view_labels v) < n) as [Hn Hlt].
  { subst n. unfold new_capacity. simpl. case_decide; lia. }
  destruct (realloc_grow (at_keys lay) (capacity lay) n (at_key_copies lay) w)
    as (a' & h1 & Hrun1 & K1 & K2 & K3);
    [done | apply (repr_keys _ _ _ _ _ H) | lia | done |].
  set (w1 := set_heap h1 _) in Hrun1.
  assert (array_at h1 (at_values lay) (capacity lay) (at_value_copies lay))
    as Hv1.
  { pose proof (repr_values _ _ _ _ _ H) as Hv. unfold array_at in *.
    destruct (at_values lay) as [b|] eqn:Hb; [|done].
    assert (b ∈ owned p lay) as Hbo by (unfold owned; rewrite Hb; set_solver).
    rewrite K3.
    - destruct (decide _) as [Hin|]; [|done].
      pose proof (repr_nodup _ _ _ _ _ H) as Hnd. unfold owned in Hnd.
      rewrite Hb in Hnd. apply NoDup_app in Hnd as (_ & Hnd & _).
      exfalso. apply (Hnd _ Hin). set_solver.
    - intros ->. destruct K2 as [K2|K2].
      + pose proof (repr_nodup _ _ _ _ _ H) as Hnd. unfold owned in Hnd.
        rewrite Hb in Hnd. apply NoDup_app in Hnd as (_ & Hnd & _).
        apply (Hnd _ K2). set_solver.
      + by rewrite K2 in Hv. }
  destruct (realloc_grow (at_values lay) (capacity lay) n
              (at_value_copies lay) w1)
    as (b' & h2 & Hrun2 & V1 & V2 & V3);
    [done | done | lia | done |].
  destruct (grow_repr frame (heap w) h1 h2 p v lay a' b' n
              H K1 K2 K3 V1 V2 V3 Hn) as [Hp2 Hrepr].
  eexists _, _. split; [exact Hrepr|]. split; [done|].
  intros rest. unfold grow_labels.
  cbn [entry_struct labels_keys labels_values labels_count labels_capacity].
  fold n.
  run_step ltac:(exact Hrun1).
  run_step ltac:(exact Hrun2).
  cbn [is_null orb].
  run_step ltac:(eapply (store_at p); norm_world; rewrite Hp2;
                 apply (repr_struct _ _ _ _ _ H)).
  f_equal. subst w1. apply world_eq; norm_world; try done.
  by rewrite tail_tail_is_drop.
Qed.

(** Does the allocation after the next [i] ones succeed? *)
Definition alloc_ok (i : nat) (w : world) : bool := nth i (allocs w) true.

Lemma hd_drop {A} (d : A) (n : nat) (l : list A) :
  hd d (drop n l) = nth n l d.
Proof.
  revert l. induction n as [|n IH]; intros [|y l]; simpl; auto.
Qed.

Lemma hd_alloc_ok w : hd true (allocs w) = alloc_ok 0 w.
Proof. unfold alloc_ok. by destruct (allocs w). Qed.

Lemma hd_tail_alloc_ok w : hd true (tail (allocs w)) = alloc_ok 1 w.
Proof. unfold alloc_ok. by destruct (allocs w) as [|? []]. Qed.

Lemma allocs_succeed_alloc_ok n i w :
  allocs_succeed n w -> i < n -> alloc_ok i w = true.
Proof.
  unfold allocs_succeed, alloc_ok. intros H Hi.
  destruct (decide (i < length (allocs w))) as [Hlt|Hge].
  - destruct (lookup_lt_is_Some_2 _ _ Hlt) as [b Hb].
    rewrite (nth_lookup_Some _ _ _ _ Hb).
    rewrite Forall_lookup in H. apply (H i).
    by rewrite lookup_take_lt.
  - apply nth_overflow. lia.
Qed.

(** The world after [n] allocations that left the heap [h']. *)
Definition after_allocs (n : nat) (h' : gmap loc block) (w : world) : world :=
  set_heap h' (set_allocs (drop n (allocs w)) w).

Lemma after_allocs_twice n m h1 h2 w :
  set_heap h2 (set_allocs (drop m (allocs (after_allocs n h1 w)))
                          (after_allocs n h1 w))
  = after_allocs (n + m) h2 w.
Proof.
  unfold after_allocs. apply world_eq; norm_world; try done.
  by rewrite drop_drop.
Qed.

Lemma after_allocs_same n w :
  set_allocs (drop n (allocs w)) w = after_allocs n (heap w) w.
Proof. unfold after_allocs. by apply world_eq. Qed.

(** What [add_label] does to a well-formed entry, by the answers of the
    allocator: [g] tells whether the arrays are full. *)
Lemma add_label_run frame (p : loc) (v : entry_view) (lay : entry_layout)
  (k x : string) (w : world) :
  entry_repr frame (heap w) p v lay ->
  let add := logflux_entry_add_label (Some p) (Some k) (Some x) w in
  if decide (capacity lay <= length (view_labels v)) then
    (alloc_ok 0 w = false -> alloc_ok 1 w = false ->
     add = Ret LOGFLUX_ERROR_MEMORY (after_allocs 2 (heap w) w))
    /\ (alloc_ok 0 w = true -> alloc_ok 1 w = true ->
        exists h1 lay1,
          entry_repr frame h1 p v lay1
          /\ (alloc_ok 2 w && alloc_ok 3 w = false ->
              add = Ret LOGFLUX_ERROR_MEMORY (after_allocs 4 h1 w))
          /\ (alloc_ok 2 w = true -> alloc_ok 3 w = true ->
              exists h2 lay2,
                entry_repr frame h2 p (with_label v k x) lay2
                /\ add = Ret LOGFLUX_OK (after_allocs 4 h2 w)))
  else
    (alloc_ok 0 w && alloc_ok 1 w = false ->
     add = Ret LOGFLUX_ERROR_MEMORY (after_allocs 2 (heap w) w))
    /\ (alloc_ok 0 w = true -> alloc_ok 1 w = true ->
        exists h2 lay2,
          entry_repr frame h2 p (with_label v k x) lay2
          /\ add = Ret LOGFLUX_OK (after_allocs 2 h2 w)).
Proof.
  intros H add. subst add. rewrite add_label_phases.
  erewrite bind_ret;
    [| apply load_entry_at, (repr_struct _ _ _ _ _ H)].
  cbn [entry_struct labels_count labels_capacity]. fold (entry_struct v lay).
  rewrite <- !hd_alloc_ok, <- !hd_tail_alloc_ok.
  case_decide as Hg.
  - split.
    + intros H1 H2. rewrite grow_labels_fails by done.
      by rewrite after_allocs_same.
    + intros H1 H2.
      destruct (grow_labels_ok _ _ _ _ _ H Hg H1 H2)
        as (h1 & lay1 & Hrepr1 & Hlt & Hrun).
      exists h1, lay1. split; [done|]. rewrite Hrun.
      fold (after_allocs 2 h1 w). set (w1 := after_allocs 2 h1 w).
      assert (hd true (allocs w1) = alloc_ok 2 w) as E2.
      { subst w1. unfold after_allocs. norm_world. apply hd_drop. }
      assert (hd true (tail (allocs w1)) = alloc_ok 3 w) as E3.
      { subst w1. unfold after_allocs. norm_world.
        rewrite tail_drop. apply hd_drop. }
      split.
      * intros Hfail. rewrite append_label_fails by (by rewrite E2, E3).
        subst w1. f_equal. unfold after_allocs.
        apply world_eq; norm_world; try done. by rewrite drop_drop.
      * intros H3 H4.
        destruct (append_label_ok frame p v lay1 k x w1)
          as (h2 & kc & vc & Hrun2 & Hrepr2);
          [done | done | by rewrite E2 | by rewrite E3 |].
        exists h2, (appended_layout lay1 kc vc). split; [done|].
        rewrite Hrun2. subst w1. f_equal. unfold after_allocs.
        apply world_eq; norm_world; try done. by rewrite drop_drop.
  - split.
    + intros Hfail. rewrite append_label_fails by done.
      by rewrite after_allocs_same.
    + intros H1 H2.
      destruct (append_label_ok frame p v lay k x w)
        as (h2 & kc & vc & Hrun2 & Hrepr2); [done | lia | done | done |].
      by exists h2, (appended_layout lay kc vc).
Qed.

(** ** Releasing an entry *)

(** [h'] is [h] without the blocks [D]. *)
Definition released (D : list loc) (h h' : gmap loc block) : Prop :=
  forall l, h' !! l = if decide (l ∈ D) then None else h !! l.

Lemma released_ext D1 D2 h h' :
  (forall l, l ∈ D1 <-> l ∈ D2) -> released D1 h h' -> released D2 h h'.
Proof.
  intros Heq H l. rewrite (H l).
  destruct (decide (l ∈ D1)), (decide (l ∈ D2)); naive_solver.
Qed.

Lemma released_delete D h h' l :
  released D h h' -> released (D ++ [l]) h (delete l h').
Proof.
  intros H l'. destruct (decide (l' = l)) as [->|Hne].
  - rewrite lookup_delete_eq. rewrite decide_True; [done | set_solver].
  - rewrite lookup_delete_ne by done. rewrite (H l').
    destruct (decide (l' ∈ D)), (decide (l' ∈ D ++ [l])); set_solver.
Qed.

Lemma released_lookup D h h' l :
  released D h h' -> l ∉ D -> h' !! l = h !! l.
Proof. intros H Hl. rewrite (H l). by rewrite decide_False. Qed.

Lemma set_heap_same w : set_heap (heap w) w = w.
Proof. by destruct w. Qed.

Lemma set_heap_twice h1 h2 w : set_heap h2 (set_heap h1 w) = set_heap h2 w.
Proof. done. Qed.

Lemma load_cell_run (a : loc) (cells : list (option loc)) (i : nat)
  (c : loc) (w : world) :
  heap w !! a = Some (BArr cells) ->
  cells !! i = Some (Some c) ->
  load_cell (Some a) i w = Ret (Some c) w.
Proof.
  intros Ha Hc. unfold load_cell.
  erewrite bind_ret; [| unfold load; by rewrite Ha].
  cbv beta iota. by rewrite Hc.
Qed.

Section free_labels.
Variables (h : gmap loc block) (e : logflux_entry).
Variables (a b : loc) (cap : nat) (kp vp : list loc).
Hypothesis Hkeys : labels_keys e = Some a.
Hypothesis Hvalues : labels_values e = Some b.
Hypothesis Ha : h !! a = Some (BArr (array_cells cap kp)).
Hypothesis Hb : h !! b = Some (BArr (array_cells cap vp)).
Hypothesis Hlen : length vp = length kp.
Hypothesis Hlive : forall l, l ∈ kp ++ vp -> is_Some (h !! l).

(** The loop of [logflux_entry_free] from index [i] on, the blocks [D]
    being released already: it releases the remaining copies. *)
Lemma free_labels_loop (n : nat) :
  forall (i : nat) (D : list loc) (w : world),
    i + n = length kp ->
    released D h (heap w) ->
    NoDup (a :: b :: D ++ drop i kp ++ drop i vp) ->
    exists h',
      for_range i n (fun i =>
        k <- load_cell (labels_keys e) i ;;
        free k ;;
        v <- load_cell (labels_values e) i ;;
        free v) w
      = Ret tt (set_heap h' w)
      /\ released (D ++ drop i kp ++ drop i vp) h h'.
Proof using All.
  induction n as [|n IH]; intros i D w Hi Hrel Hnd.
  - exists (heap w). split; [by rewrite set_heap_same|].
    rewrite !drop_ge by lia. by rewrite !app_nil_r.
  - destruct (lookup_lt_is_Some_2 kp i) as [kl Hkl]; [lia|].
    destruct (lookup_lt_is_Some_2 vp i) as [vl Hvl]; [lia|].
    rewrite (drop_S _ _ _ Hkl), (drop_S _ _ _ Hvl) in Hnd |- *.
    assert (Hd : a <> kl /\ a <> vl /\ b <> kl /\ b <> vl /\ kl <> vl
                 /\ (a ∉ D) /\ (b ∉ D) /\ (kl ∉ D) /\ (vl ∉ D)).
    { clear IH. rewrite !NoDup_cons, !NoDup_app, !NoDup_cons in Hnd.
      set_solver. }
    destruct Hd as (? & ? & ? & ? & ? & ? & ? & ? & ?).
    assert (is_Some (h !! kl)) as [bk Hbk].
    { apply Hlive, elem_of_app. left. by eapply list_elem_of_lookup_2. }
    assert (is_Some (h !! vl)) as [bv Hbv].
    { apply Hlive, elem_of_app. right. by eapply list_elem_of_lookup_2. }
    cbn [for_range]. rewrite Hkeys, Hvalues.
    run_step ltac:(eapply (load_cell_run a);
                   [ rewrite (released_lookup _ _ _ _ Hrel); done
                   | by apply array_cells_lookup ]).
    run_step ltac:(eapply free_live;
                   rewrite (released_lookup _ _ _ _ Hrel); done).
    run_step ltac:(eapply (load_cell_run b);
                   [ norm_world; rewrite lookup_delete_ne by done;
                     rewrite (released_lookup _ _ _ _ Hrel); done
                   | by apply array_cells_lookup ]).
    run_step ltac:(eapply free_live; norm_world;
                   rewrite lookup_delete_ne by done;
                   rewrite (released_lookup _ _ _ _ Hrel); done).
    norm_world.
    set (w2 := set_heap _ _).
    destruct (IH (S i) ((D ++ [kl]) ++ [vl]) w2) as (h' & Hrun & Hrel').
    + lia.
    + subst w2. norm_world. by do 2 apply released_delete.
    + clear IH. rewrite !NoDup_cons, !NoDup_app, !NoDup_cons in Hnd.
      rewrite !NoDup_cons, !NoDup_app, !NoDup_cons, !NoDup_nil.
      set_solver.
    + exists h'. rewrite <- Hkeys, <- Hvalues. split.
      * rewrite Hkeys, Hvalues in Hrun |- *. rewrite Hrun. by subst w2.
      * eapply released_ext; [|exact Hrel']. intros l. set_solver.
Qed.
End free_labels.

Lemma released_nil h : released [] h h.
Proof. intros l. by rewrite decide_False by set_solver. Qed.

Lemma free_run_released D h (o : option loc) (w : world) :
  released D h (heap w) ->
  (forall l, l ∈ option_list o -> l ∉ D /\ is_Some (h !! l)) ->
  exists h1,
    free o w = Ret tt (set_heap h1 w)
    /\ released (D ++ option_list o) h h1.
Proof.
  intros Hrel Hside. destruct o as [l|]; simpl.
  - destruct (Hside l) as [HlD [b Hb]]; [set_solver|].
    exists (delete l (heap w)). split.
    + eapply free_live. by rewrite (released_lookup _ _ _ _ Hrel).
    + by apply released_delete.
  - exists (heap w). split; [by rewrite set_heap_same|].
    by rewrite app_nil_r.
Qed.

Lemma for_range_nothing (i : nat) (body : nat -> M unit) (w : world) :
  for_range i 0 body w = Ret tt w.
Proof. done. Qed.

Lemma entry_free_run frame (p : loc) (v : entry_view)
  (lay : entry_layout) (w : world) :
  entry_repr frame (heap w) p v lay ->
  logflux_entry_free (Some p) w = Ret tt (set_heap frame w).
Proof.
  intros H.
  pose proof (fun l => owned_live _ _ _ _ _ l H) as Hlive.
  pose proof (entry_repr_keys_length _ _ _ _ _ H) as Hkl.
  pose proof (entry_repr_values_length _ _ _ _ _ H) as Hvl.
  pose proof H as [Hnd Hfr Hrest Hst Hi Hm Hs Hc Hk Hv Hks Hvs].
  destruct lay as [i m s ks vs kp vp cap].
  unfold owned in Hnd, Hfr, Hrest, Hlive.
  cbn [at_id at_message at_source at_keys at_values at_key_copies
       at_value_copies capacity] in *.
  set (h := heap w) in *.
  unfold logflux_entry_free.
  run_step ltac:(by apply load_entry_at).
  cbn [entry_struct entry_id entry_message entry_source labels_keys
       labels_values labels_count at_id at_message at_source at_keys
       at_values].
  assert (Hnd' : NoDup (option_list ks ++ option_list vs
                        ++ p :: i :: m :: s :: kp ++ vp)) by done.
  rewrite !NoDup_app, !NoDup_cons, !NoDup_app in Hnd'.
  destruct (free_run_released [] h (Some i) w) as (h1 & Hrun1 & Hrel1);
    [apply released_nil | |].
  { intros l Hl. split; [set_solver | apply Hlive; set_solver]. }
  run_step ltac:(exact Hrun1).
  destruct (free_run_released _ h (Some m) (set_heap h1 w) Hrel1)
    as (h2 & Hrun2 & Hrel2).
  { intros l Hl. split; [set_solver | apply Hlive; set_solver]. }
  run_step ltac:(exact Hrun2).
  destruct (free_run_released _ h (Some s) (set_heap h2 w) Hrel2)
    as (h3 & Hrun3 & Hrel3).
  { intros l Hl. split; [set_solver | apply Hlive; set_solver]. }
  run_step ltac:(exact Hrun3).
  assert (exists h4,
            free_labels (entry_struct v (Layout i m s ks vs kp vp cap))
                        (set_heap h3 w)
            = Ret tt (set_heap h4 w)
            /\ released (([] ++ [i]) ++ [m] ++ [s] ++ kp ++ vp) h h4)
    as (h4 & Hrun4 & Hrel4).
  { unfold free_labels. cbn [entry_struct labels_count].
    destruct (view_labels v) as [|kv ls] eqn:Hls.
    - destruct kp; [|done]. destruct vp; [|done]. simpl.
      exists h3. split; [done|].
      eapply released_ext; [|exact Hrel3]. intros l. set_solver.
    - simpl in Hc. unfold array_at in Hk, Hv.
      destruct ks as [a|]; [|lia]. destruct vs as [b|]; [|lia].
      assert (forall l, l ∈ kp ++ vp -> is_Some (h !! l)) as Hlive'.
      { intros l Hl. apply Hlive. set_solver. }
      destruct (free_labels_loop h
                  (entry_struct v (Layout i m s (Some a) (Some b) kp vp cap))
                  a b cap kp vp eq_refl eq_refl Hk Hv ltac:(lia) Hlive'
                  (length kp) 0
                  ((([] ++ option_list (Some i)) ++ option_list (Some m))
                   ++ option_list (Some s))
                  (set_heap h3 w))
        as (h4 & Hrun & Hrel).
      + lia.
      + exact Hrel3.
      + simpl. clear Hrel3 Hrel2 Hrel1.
        rewrite ?NoDup_cons, ?NoDup_app, ?NoDup_cons, ?NoDup_nil.
        simpl in Hnd'. set_solver.
      + exists h4. split.
        * rewrite <- Hkl. exact Hrun.
        * eapply released_ext; [|exact Hrel]. intros l. simpl. set_solver. }
  run_step ltac:(exact Hrun4).
  destruct (free_run_released _ h ks (set_heap h4 w) Hrel4)
    as (h5 & Hrun5 & Hrel5).
  { intros l Hl. split; [set_solver | apply Hlive; set_solver]. }
  run_step ltac:(exact Hrun5).
  destruct (free_run_released _ h vs (set_heap h5 w) Hrel5)
    as (h6 & Hrun6 & Hrel6).
  { intros l Hl. split; [set_solver | apply Hlive; set_solver]. }
  run_step ltac:(exact Hrun6).
  destruct (free_run_released _ h (Some p) (set_heap h6 w) Hrel6)
    as (h7 & Hrun7 & Hrel7).
  { intros l Hl. split; [set_solver | apply Hlive; set_solver]. }
  refine (eq_trans Hrun7 _). f_equal. norm_world.
  assert (h7 = frame) as ->; [|done].
  apply map_eq. intros l. rewrite (Hrel7 l).
  destruct (decide _) as [Hin|Hout].
  - symmetry. apply Hfr. set_solver.
  - apply Hrest. set_solver.
Qed.

(** X13. [logflux_entry_free] on a well-formed entry releases exactly the
    blocks of the entry, each of them once: the struct, the id, the
    message, the source, every key copy and value copy, and the two
    arrays.  What is left of the heap is what was there beside the
    entry.  On NULL it does nothing. *)
Theorem entry_free_releases_everything frame (p : loc) (v : entry_view)
  (lay : entry_layout) (w : world) :
  entry_repr frame (heap w) p v lay ->
  logflux_entry_free (Some p) w = Ret tt (set_heap frame w)
  /\ logflux_entry_free None w = Ret tt w.
Proof. intros H. split; [by eapply entry_free_run | done]. Qed.


(** ** Checking a concrete entry *)

(** A heap holding an entry, laid out as [lay], whose blocks are distinct:
    the entry is well-formed beside whatever else the heap holds. *)
Lemma entry_repr_intro h (p : loc) (v : entry_view) (lay : entry_layout) :
  NoDup (owned p lay) ->
  h !! p = Some (BEntry (entry_struct v lay)) ->
  h !! at_id lay = Some (BStr (view_id v)) ->
  h !! at_message lay = Some (BStr (view_message v)) ->
  h !! at_source lay = Some (BStr (view_source v)) ->
  length (view_labels v) <= capacity lay ->
  array_at h (at_keys lay) (capacity lay) (at_key_copies lay) ->
  array_at h (at_values lay) (capacity lay) (at_value_copies lay) ->
  strings_at h (at_key_copies lay) (view_labels v).*1 ->
  strings_at h (at_value_copies lay) (view_labels v).*2 ->
  entry_repr (foldr delete h (owned p lay)) h p v lay.
Proof.
  intros. constructor; try done.
  - intros l Hl. by apply lookup_foldr_delete.
  - intros l Hl. symmetry. by apply lookup_foldr_delete_not_elem_of.
Qed.

(** The pointers in the first [n] cells of an array. *)
Definition cell_ptrs (h : gmap loc block) (arr : option loc) (n : nat)
  : list loc :=
  match arr with
  | Some a =>
    match h !! a with
    | Some (BArr cells) => omap id (take n cells)
    | _ => []
    end
  | None => []
  end.

(** The layout of the entry at [p], read off the heap. *)
Definition layout_of (h : gmap loc block) (p : loc) : option entry_layout :=
  match h !! p with
  | Some (BEntry e) =>
    match entry_id e, entry_message e, entry_source e with
    | Some i, Some m, Some s =>
      Some (Layout i m s (labels_keys e) (labels_values e)
                   (cell_ptrs h (labels_keys e) (labels_count e))
                   (cell_ptrs h (labels_values e) (labels_count e))
                   (labels_capacity e))
    | _, _, _ => None
    end
  | _ => None
  end.

Definition no_layout : entry_layout := Layout 1 1 1 None None [] [] 0.

Definition four_labels_layout : entry_layout :=
  Eval vm_compute in
    default no_layout (layout_of (heap four_labels_world) four_labels_entry).

Definition four_labels_frame : gmap loc block :=
  foldr delete (heap four_labels_world)
        (owned four_labels_entry four_labels_layout).

Ltac check_entry :=
  apply entry_repr_intro;
  [ apply (bool_decide_unpack _); vm_compute; reflexivity
  | vm_compute; reflexivity
  | vm_compute; reflexivity
  | vm_compute; reflexivity
  | vm_compute; reflexivity
  | apply Nat.leb_le; vm_compute; reflexivity
  | vm_compute; reflexivity
  | vm_compute; reflexivity
  | vm_compute; repeat constructor
  | vm_compute; repeat constructor ].

Lemma four_labels_repr :
  entry_repr four_labels_frame (heap four_labels_world) four_labels_entry
             four_labels_view four_labels_layout.
Proof. check_entry. Qed.

(** ** [logflux_entry_add_label] on a well-formed entry *)

(** The allocations a successful [add_label] makes: the two copies, and
    the two arrays when they are full. *)
Definition allocations_needed (v : entry_view) (lay : entry_layout) : nat :=
  if decide (capacity lay <= length (view_labels v)) then 4 else 2.

(** X11. On a well-formed entry, when the allocations it needs succeed,
    [add_label] returns [LOGFLUX_OK] and appends the pair after the
    labels the entry has, a key that is already present included; the id,
    message, source, level, type and timestamp stay what they were, the
    entry is well-formed again, and nothing beside the entry changes. *)
Theorem add_label_appends frame (p : loc) (v : entry_view)
  (lay : entry_layout) (k x : string) (w : world) :
  entry_repr frame (heap w) p v lay ->
  allocs_succeed (allocations_needed v lay) w ->
  exists (w' : world) (lay' : entry_layout),
    logflux_entry_add_label (Some p) (Some k) (Some x) w = Ret LOGFLUX_OK w'
    /\ entry_repr frame (heap w') p (with_label v k x) lay'
    /\ read_entry (heap w') p = Some (with_label v k x)
    /\ trace w' = trace w.
Proof.
  intros H Hall. pose proof (add_label_run frame p v lay k x w H) as Hrun.
  unfold allocations_needed in Hall. cbv zeta in Hrun.
  destruct (decide (capacity lay <= length (view_labels v))).
  - destruct Hrun as [_ Hrun].
    destruct Hrun as (h1 & lay1 & _ & _ & Hrun);
      [by eapply allocs_succeed_alloc_ok; [done | lia]..|].
    destruct Hrun as (h2 & lay2 & Hrepr & ->);
      [by eapply allocs_succeed_alloc_ok; [done | lia]..|].
    exists (after_allocs 4 h2 w), lay2. split_and!; try done.
    by eapply entry_repr_read.
  - destruct Hrun as [_ Hrun].
    destruct Hrun as (h2 & lay2 & Hrepr & ->);
      [by eapply allocs_succeed_alloc_ok; [done | lia]..|].
    exists (after_allocs 2 h2 w), lay2. split_and!; try done.
    by eapply entry_repr_read.
Qed.

Lemma add_label_appends_witness :
  exists (w' : world) (lay' : entry_layout),
    logflux_entry_add_label (Some four_labels_entry) (Some "k1") (Some "v5")
                            four_labels_world
    = Ret LOGFLUX_OK w'
    /\ entry_repr four_labels_frame (heap w') four_labels_entry
                  (with_label four_labels_view "k1" "v5") lay'
    /\ read_entry (heap w') four_labels_entry
       = Some (with_label four_labels_view "k1" "v5")
    /\ trace w' = trace four_labels_world.
Proof.
  apply (add_label_appends four_labels_frame four_labels_entry
           four_labels_view four_labels_layout "k1" "v5" four_labels_world
           four_labels_repr).
  vm_compute. constructor.
Defined.

(** X12. On a well-formed entry, an [add_label] that cannot allocate
    returns [LOGFLUX_ERROR_MEMORY] and keeps the entry: when both arrays
    fail to grow, or when a copy of the key or of the value cannot be
    allocated (with room in the arrays, or after both arrays have grown),
    the entry is well-formed with the labels it had, a copy that was made
    is released again, and nothing beside the entry changes. *)
Theorem add_label_failure_keeps_entry frame (p : loc) (v : entry_view)
  (lay : entry_layout) (k x : string) (w : world) :
  entry_repr frame (heap w) p v lay ->
  (if decide (capacity lay <= length (view_labels v))
   then (alloc_ok 0 w = false /\ alloc_ok 1 w = false)
        \/ (alloc_ok 0 w = true /\ alloc_ok 1 w = true
            /\ alloc_ok 2 w && alloc_ok 3 w = false)
   else alloc_ok 0 w && alloc_ok 1 w = false) ->
  exists (w' : world) (lay' : entry_layout),
    logflux_entry_add_label (Some p) (Some k) (Some x) w
    = Ret LOGFLUX_ERROR_MEMORY w'
    /\ entry_repr frame (heap w') p v lay'
    /\ read_entry (heap w') p = Some v
    /\ trace w' = trace w.
Proof.
  intros H Hfail. pose proof (add_label_run frame p v lay k x w H) as Hrun.
  cbv zeta in Hrun.
  destruct (decide (capacity lay <= length (view_labels v))).
  - destruct Hfail as [[H1 H2]|(H1 & H2 & H3)].
    + destruct Hrun as [Hrun _]. rewrite Hrun by done.
      exists (after_allocs 2 (heap w) w), lay. split_and!; try done.
      by eapply entry_repr_read.
    + destruct Hrun as [_ Hrun].
      destruct (Hrun H1 H2) as (h1 & lay1 & Hrepr & Hf & _).
      rewrite Hf by done.
      exists (after_allocs 4 h1 w), lay1. split_and!; try done.
      by eapply entry_repr_read.
  - destruct Hrun as [Hrun _]. rewrite Hrun by done.
    exists (after_allocs 2 (heap w) w), lay. split_and!; try done.
    by eapply entry_repr_read.
Qed.

(** The arrays grow, then the copy of the key cannot be allocated. *)
Definition copy_failing_world : world :=
  set_allocs [true; true; false] four_labels_world.

Lemma add_label_failure_keeps_entry_witness :
  exists (w' : world) (lay' : entry_layout),
    logflux_entry_add_label (Some four_labels_entry) (Some "k5") (Some "v5")
                            copy_failing_world
    = Ret LOGFLUX_ERROR_MEMORY w'
    /\ entry_repr four_labels_frame (heap w') four_labels_entry
                  four_labels_view lay'
    /\ read_entry (heap w') four_labels_entry = Some four_labels_view
    /\ trace w' = trace copy_failing_world.
Proof.
  apply (add_label_failure_keeps_entry four_labels_frame four_labels_entry
           four_labels_view four_labels_layout "k5" "v5" copy_failing_world
           four_labels_repr).
  vm_compute. right. done.
Defined.

Lemma entry_free_releases_everything_witness :
  logflux_entry_free (Some four_labels_entry) four_labels_world
  = Ret tt (set_heap four_labels_frame four_labels_world)
  /\ logflux_entry_free None four_labels_world = Ret tt four_labels_world.
Proof.
  apply (entry_free_releases_everything four_labels_frame four_labels_entry
           four_labels_view four_labels_layout four_labels_world
           four_labels_repr).
Defined.

(** ** [logflux_entry_set_source] *)

Definition with_source (v : entry_view) (src : string) : entry_view :=
  View (view_id v) (view_message v) src (view_level v) (view_type v)
       (view_timestamp v) (view_labels v).

Definition resourced_layout (lay : entry_layout) (n : loc) : entry_layout :=
  Layout (at_id lay) (at_message lay) n (at_keys lay) (at_values lay)
         (at_key_copies lay) (at_value_copies lay) (capacity lay).

Lemma source_repr frame h p v lay (n : loc) (src : string) :
  entry_repr frame h p v lay ->
  h !! n = None ->
  entry_repr frame
    (<[p := BEntry (entry_struct (with_source v src)
                                 (resourced_layout lay n))]>
       (delete (at_source lay) (<[n := BStr src]> h)))
    p (with_source v src) (resourced_layout lay n).
Proof.
  intros H Hn.
  pose proof (fun l => owned_live _ _ _ _ _ l H) as Hlive.
  pose proof (fun l => free_not_in_frame _ _ _ _ _ l H) as Hfree.
  pose proof (free_not_owned _ _ _ _ _ _ H Hn) as Hn'.
  destruct H as [Hnd Hfr Hrest Hst Hi Hm Hs Hc Hk Hv Hks Hvs].
  destruct lay as [i m s ks vs kp vp cap].
  unfold resourced_layout, owned in *.
  cbn [at_id at_message at_source at_keys at_values at_key_copies
       at_value_copies capacity] in *.
  set (h' := <[p := _]> _).
  assert (Hsp : s <> p).
  { rewrite !NoDup_app, !NoDup_cons in Hnd. set_solver. }
  assert (H' : forall l,
            l ∈ option_list ks ++ option_list vs ++ i :: m :: kp ++ vp ->
            h' !! l = h !! l).
  { intros l Hl.
    assert (l <> p /\ l <> s /\ l <> n) as (? & ? & ?).
    { split_and!.
      - rewrite !NoDup_app, !NoDup_cons in Hnd. set_solver.
      - rewrite !NoDup_app, !NoDup_cons in Hnd. set_solver.
      - intros ->. apply Hn'. set_solver. }
    subst h'. rewrite lookup_insert_ne by done.
    rewrite lookup_delete_ne by done. by rewrite lookup_insert_ne. }
  constructor; unfold owned;
    cbn [at_id at_message at_source at_keys at_values at_key_copies
         at_value_copies capacity with_source view_id view_message
         view_source view_labels].
  - rewrite !NoDup_app, !NoDup_cons in Hnd.
    rewrite !NoDup_app, !NoDup_cons. set_solver.
  - intros l Hl.
    destruct (decide (l = n)) as [->|Hne]; [by apply Hfree|].
    apply Hfr. set_solver.
  - intros l Hl.
    assert (l <> p /\ l <> n) as [? ?] by set_solver.
    subst h'. rewrite lookup_insert_ne by done.
    destruct (decide (l = s)) as [->|Hls].
    + rewrite lookup_delete_eq. symmetry. apply Hfr. set_solver.
    + rewrite lookup_delete_ne by done. rewrite lookup_insert_ne by done.
      apply Hrest. set_solver.
  - subst h'. by rewrite lookup_insert_eq.
  - rewrite H'; [done | set_solver].
  - rewrite H'; [done | set_solver].
  - subst h'. rewrite lookup_insert_ne by (intros <-; apply Hn'; set_solver).
    rewrite lookup_delete_ne by (intros <-; apply Hn'; set_solver).
    by rewrite lookup_insert_eq.
  - done.
  - unfold array_at in *. destruct ks as [a|]; [|done].
    rewrite H'; [done | set_solver].
  - unfold array_at in *. destruct vs as [b|]; [|done].
    rewrite H'; [done | set_solver].
  - eapply strings_at_agree; [done|]. intros l Hl. apply H'. set_solver.
  - eapply strings_at_agree; [done|]. intros l Hl. apply H'. set_solver.
Qed.

(** X14. On a well-formed entry, [set_source] with a copy allocated
    replaces the source by the new text and releases the old one; the
    other fields and the labels stay, and the entry is well-formed again.
    When the copy cannot be allocated it returns [LOGFLUX_ERROR_MEMORY]
    and the heap is untouched: the entry keeps its old source. *)
Theorem set_source_replaces_source frame (p : loc) (v : entry_view)
  (lay : entry_layout) (src : string) (w : world) :
  entry_repr frame (heap w) p v lay ->
  (alloc_ok 0 w = true ->
   exists (w' : world) (lay' : entry_layout),
     logflux_entry_set_source (Some p) (Some src) w = Ret LOGFLUX_OK w'
     /\ entry_repr frame (heap w') p (with_source v src) lay'
     /\ read_entry (heap w') p = Some (with_source v src)
     /\ heap w' !! at_source lay = None)
  /\ (alloc_ok 0 w = false ->
      logflux_entry_set_source (Some p) (Some src) w
      = Ret LOGFLUX_ERROR_MEMORY (set_allocs (tail (allocs w)) w)).
Proof.
  intros H. rewrite <- hd_alloc_ok. unfold logflux_entry_set_source, strdup.
  split; intros Hok.
  - pose proof (next_loc_fresh w) as Hn. set (n := next_loc w) in *.
    pose proof (source_repr frame (heap w) p v lay n src H Hn) as Hrepr.
    pose proof (free_not_owned _ _ _ _ _ _ H Hn) as Hn'.
    assert (p ∈ owned p lay /\ at_source lay ∈ owned p lay) as [Hpo Hso].
    { unfold owned. set_solver. }
    assert (at_source lay <> p).
    { pose proof (repr_nodup _ _ _ _ _ H) as Hnd. unfold owned in Hnd.
      rewrite !NoDup_app, !NoDup_cons in Hnd. set_solver. }
    assert (n <> p) by (intros Heq; apply Hn'; by rewrite Heq).
    assert (n <> at_source lay) by (intros Heq; apply Hn'; by rewrite Heq).
    eexists _, (resourced_layout lay n). split; [|split_and!].
    + run_step ltac:(by apply alloc_success'). fold n.
      cbn [is_null].
      run_step ltac:(apply (load_entry_at p (entry_struct v lay));
                     norm_world;
                     rewrite lookup_insert_ne by done;
                     apply (repr_struct _ _ _ _ _ H)).
      cbn [entry_struct entry_source].
      run_step ltac:(eapply free_live; norm_world;
                     rewrite lookup_insert_ne by done;
                     apply (repr_source _ _ _ _ _ H)).
      run_step ltac:(eapply (store_at p); norm_world;
                     rewrite lookup_delete_ne by done;
                     rewrite lookup_insert_ne by done;
                     apply (repr_struct _ _ _ _ _ H)).
      reflexivity.
    + norm_world. exact Hrepr.
    + norm_world. by eapply entry_repr_read.
    + norm_world. rewrite lookup_insert_ne by done.
      by rewrite lookup_delete_eq.
  - run_step ltac:(by apply alloc_failure'). reflexivity.
Qed.

Lemma set_source_replaces_source_witness :
  exists (w' : world) (lay' : entry_layout),
    logflux_entry_set_source (Some four_labels_entry) (Some "billing")
                             four_labels_world
    = Ret LOGFLUX_OK w'
    /\ entry_repr four_labels_frame (heap w') four_labels_entry
                  (with_source four_labels_view "billing") lay'
    /\ read_entry (heap w') four_labels_entry
       = Some (with_source four_labels_view "billing")
    /\ heap w' !! at_source four_labels_layout = None.
Proof.
  apply (proj1 (set_source_replaces_source four_labels_frame
                  four_labels_entry four_labels_view four_labels_layout
                  "billing" four_labels_world four_labels_repr)).
  vm_compute. reflexivity.
Defined.

(** ** The life of an entry *)

(** What a new entry holds. *)
Definition new_view (msg : string) (w : world) : entry_view :=
  View (hd nil_uuid (uuids w)) msg "c-sdk" LOGFLUX_LEVEL_INFO
       LOGFLUX_TYPE_LOG (clock w) [].

(** The world after [logflux_entry_new] made its four allocations. *)
Definition after_new (h' : gmap loc block) (w : world) : world :=
  set_heap h' (set_uuids (tail (uuids w))
                         (set_allocs (drop 4 (allocs w)) w)).

(** A new entry is well-formed, and is made of four new blocks beside
    what the heap held. *)
Lemma entry_new_repr (msg : string) (w : world) :
  allocs_succeed 4 w ->
  exists (p : loc) (lay : entry_layout) (h' : gmap loc block),
    logflux_entry_new (Some msg) w = Ret (Some p) (after_new h' w)
    /\ entry_repr (heap w) h' p (new_view msg w) lay.
Proof.
  intros Hall.
  pose proof (allocs_succeed_hd _ _ Hall) as H1.
  unfold logflux_entry_new.
  erewrite bind_ret; [| by apply alloc_success'].
  cbv beta iota.
  pose proof (next_loc_fresh w) as Hp. set (p := next_loc w) in *.
  set (w1 := set_heap _ _).
  assert (allocs_succeed 3 w1) as Hall1 by (by eapply allocs_succeed_tail).
  unfold generate_uuid.
  erewrite (bind_ret (uuid_generate ;; _)).
  2:{ erewrite bind_ret; [| apply uuid_generate_run].
      apply alloc_success'. apply (allocs_succeed_hd _ _ Hall1). }
  set (w1u := set_uuids _ w1).
  pose proof (next_loc_fresh w1u) as Hi. set (i := next_loc w1u) in *.
  set (w2 := set_heap _ _).
  assert (allocs_succeed 2 w2) as Hall2 by (by eapply allocs_succeed_tail).
  erewrite bind_ret;
    [| apply alloc_success', (allocs_succeed_hd _ _ Hall2)].
  pose proof (next_loc_fresh w2) as Hm. set (m := next_loc w2) in *.
  set (w3 := set_heap _ _).
  assert (allocs_succeed 1 w3) as Hall3 by (by eapply allocs_succeed_tail).
  erewrite bind_ret;
    [| apply alloc_success', (allocs_succeed_hd _ _ Hall3)].
  pose proof (next_loc_fresh w3) as Hs. set (s := next_loc w3) in *.
  set (w4 := set_heap _ _).
  simpl in Hi, Hm, Hs. fresh_facts.
  erewrite (bind_ret time); [| reflexivity].
  erewrite bind_ret.
  2:{ eapply (store_at p _ (BEntry zero_entry)).
      subst w4 w3 w2 w1u w1. simpl. by simplify_map_eq. }
  cbn [is_null orb]. cbv beta iota.
  exists p, (Layout i m s None None [] [] 0). eexists. split.
  - unfold ret. f_equal. unfold after_new.
    apply world_eq; subst w4 w3 w2 w1u w1; norm_world; try done.
    by destruct (allocs w) as [|? [|? [|? [|? ?]]]].
  - subst w4 w3 w2 w1u w1. norm_world.
    constructor; unfold owned, new_view;
      cbn [at_id at_message at_source at_keys at_values at_key_copies
           at_value_copies capacity option_list option_rect app
           view_id view_message view_source view_labels fmap list_fmap].
    + rewrite !NoDup_cons. split_and!; try set_solver. apply NoDup_nil_2.
    + intros l Hl. set_unfold in Hl.
      destruct Hl as [->|[->|[->|[->|[]]]]]; done.
    + intros l Hl. set_unfold in Hl.
      rewrite !lookup_insert_ne by naive_solver. done.
    + by rewrite lookup_insert_eq.
    + by simplify_map_eq.
    + by simplify_map_eq.
    + by simplify_map_eq.
    + simpl. lia.
    + done.
    + done.
    + constructor.
    + constructor.
Qed.

(** No scripted allocation fails. *)
Definition never_fails (w : world) : Prop :=
  Forall (fun b => b = true) (allocs w).

Lemma never_fails_succeed n w : never_fails w -> allocs_succeed n w.
Proof. apply Forall_take. Qed.

Lemma never_fails_after n h' w : never_fails w -> never_fails (after_allocs n h' w).
Proof. unfold never_fails, after_allocs. norm_world. apply Forall_drop. Qed.

Definition with_labels (v : entry_view) (ls : list (string * string))
  : entry_view :=
  View (view_id v) (view_message v) (view_source v) (view_level v)
       (view_type v) (view_timestamp v) (view_labels v ++ ls).

(** Adding the labels [ls] one after the other, as a caller does, up to
    the first failure. *)
Fixpoint add_each_label (p : loc) (ls : list (string * string))
  : M logflux_error_t :=
  match ls with
  | [] => ret LOGFLUX_OK
  | (k, x) :: rest =>
    r <- logflux_entry_add_label (Some p) (Some k) (Some x) ;;
    if is_ok r then add_each_label p rest else ret r
  end.

Lemma add_each_label_run frame (p : loc) (ls : list (string * string)) :
  forall (v : entry_view) (lay : entry_layout) (w : world),
    entry_repr frame (heap w) p v lay ->
    never_fails w ->
    exists (w' : world) (lay' : entry_layout),
      add_each_label p ls w = Ret LOGFLUX_OK w'
      /\ entry_repr frame (heap w') p (with_labels v ls) lay'
      /\ never_fails w'
      /\ trace w' = trace w /\ uuids w' = uuids w
      /\ syscalls w' = syscalls w.
Proof.
  induction ls as [|[k x] ls IH]; intros v lay w H Hnf.
  - exists w, lay. split_and!; try done.
    unfold with_labels. rewrite app_nil_r. by destruct v.
  - cbn [add_each_label].
    pose proof (add_label_run frame p v lay k x w H) as Hrun.
    cbv zeta in Hrun.
    assert (forall i, alloc_ok i w = true) as Hok.
    { intros i. eapply (allocs_succeed_alloc_ok (S i)); [|lia].
      by apply never_fails_succeed. }
    assert (exists n h2 lay2,
              entry_repr frame h2 p (with_label v k x) lay2
              /\ logflux_entry_add_label (Some p) (Some k) (Some x) w
                 = Ret LOGFLUX_OK (after_allocs n h2 w))
      as (n & h2 & lay2 & Hrepr & Hadd).
    { destruct (decide (capacity lay <= length (view_labels v))).
      - destruct Hrun as [_ Hrun].
        destruct (Hrun (Hok 0) (Hok 1)) as (h1 & lay1 & _ & _ & Hrun').
        destruct (Hrun' (Hok 2) (Hok 3)) as (h2 & lay2 & ? & ?).
        by exists 4, h2, lay2.
      - destruct Hrun as [_ Hrun].
        destruct (Hrun (Hok 0) (Hok 1)) as (h2 & lay2 & ? & ?).
        by exists 2, h2, lay2. }
    erewrite bind_ret; [| exact Hadd]. cbn [is_ok].
    destruct (IH (with_label v k x) lay2 (after_allocs n h2 w))
      as (w' & lay' & Hrun' & Hrepr' & Hnf' & Ht & Hu & Hs).
    + done.
    + by apply never_fails_after.
    + exists w', lay'. split_and!; try done.
      unfold with_labels, with_label in *. simpl in *.
      by rewrite <- (assoc_L (++)) in Hrepr'.
Qed.

(** X15. With an allocator that does not fail, an entry made by
    [logflux_entry_new] and given any labels by [add_label] holds the
    message, the source c-sdk, level Info, type Log and exactly those
    labels in the order given; [logflux_entry_free] then faults on
    nothing and leaves the heap exactly as it was before the entry was
    made: nothing leaks and nothing is released twice. *)
Theorem entry_lifecycle_restores_heap (msg : string)
  (ls : list (string * string)) (w : world) :
  never_fails w ->
  exists (p : loc) (w1 w2 w3 : world),
    logflux_entry_new (Some msg) w = Ret (Some p) w1
    /\ add_each_label p ls w1 = Ret LOGFLUX_OK w2
    /\ read_entry (heap w2) p
       = Some (View (hd nil_uuid (uuids w)) msg "c-sdk" LOGFLUX_LEVEL_INFO
                    LOGFLUX_TYPE_LOG (clock w) ls)
    /\ logflux_entry_free (Some p) w2 = Ret tt w3
    /\ heap w3 = heap w
    /\ trace w3 = trace w.
Proof.
  intros Hnf.
  destruct (entry_new_repr msg w (never_fails_succeed 4 w Hnf))
    as (p & lay & h1 & Hnew & Hrepr).
  destruct (add_each_label_run (heap w) p ls (new_view msg w) lay
              (after_new h1 w))
    as (w2 & lay2 & Hadd & Hrepr2 & _ & Ht & _ & _).
  { done. }
  { unfold never_fails, after_new. norm_world. by apply Forall_drop. }
  exists p, (after_new h1 w), w2, (set_heap (heap w) w2).
  split_and!; try done.
  - by apply (entry_repr_read _ _ _ _ _ Hrepr2).
  - by eapply entry_free_run.
Qed.

Lemma entry_lifecycle_restores_heap_witness :
  exists (p : loc) (w1 w2 w3 : world),
    logflux_entry_new (Some "hello") empty_world = Ret (Some p) w1
    /\ add_each_label p [("a", "1"); ("a", "2")] w1 = Ret LOGFLUX_OK w2
    /\ read_entry (heap w2) p
       = Some (View (hd nil_uuid (uuids empty_world)) "hello" "c-sdk"
                    LOGFLUX_LEVEL_INFO LOGFLUX_TYPE_LOG (clock empty_world)
                    [("a", "1"); ("a", "2")])
    /\ logflux_entry_free (Some p) w2 = Ret tt w3
    /\ heap w3 = heap empty_world
    /\ trace w3 = trace empty_world.
Proof.
  apply (entry_lifecycle_restores_heap "hello" [("a", "1"); ("a", "2")]
           empty_world).
  constructor.
Defined.

(** ** [logflux_client_send_log] *)

Lemma frame_lookup frame h p v lay (l : loc) (b : block) :
  entry_repr frame h p v lay -> frame !! l = Some b -> h !! l = Some b.
Proof.
  intros H Hl. rewrite (repr_rest _ _ _ _ _ H); [done|].
  intros Hin. by rewrite (repr_frame _ _ _ _ _ H l Hin) in Hl.
Qed.

(** X16. [send_log] makes a temporary entry, sends it and frees it.  When
    the entry cannot be allocated it answers [LOGFLUX_ERROR_MEMORY].  On a
    client that is not connected it answers [LOGFLUX_ERROR_NOT_CONNECTED]
    only after making the entry (an identifier and four allocations are
    used) and freeing it again.  On a connected client it sends, in one
    [send], the payload of an entry with the message, source c-sdk, level
    Info, type Log and no labels, followed by a newline.  In all three
    cases the heap is afterwards what it was before the call. *)
Theorem send_log_sends_and_releases (pc : loc) (c : logflux_client)
  (msg : string) (w : world) :
  heap w !! pc = Some (BClient c) ->
  (~ allocs_succeed 4 w ->
   exists w',
     logflux_client_send_log (Some pc) (Some msg) w
     = Ret LOGFLUX_ERROR_MEMORY w'
     /\ heap w' = heap w)
  /\ (allocs_succeed 4 w -> connected c = false ->
      logflux_client_send_log (Some pc) (Some msg) w
      = Ret LOGFLUX_ERROR_NOT_CONNECTED (after_new (heap w) w))
  /\ (allocs_succeed 4 w -> connected c = true ->
      alloc_ok 4 w = true -> alloc_ok 5 w = true ->
      String.length (json_text (new_view msg w) (client_secret c)) <= 4097 ->
      let payload := trunc (json_text (new_view msg w) (client_secret c)) in
      let total_len := (Z.of_nat (String.length payload) + 1)%Z in
      let sent := send_result total_len w in
      logflux_client_send_log (Some pc) (Some msg) w
      = Ret (send_status sent total_len)
            (set_trace
               (trace w ++ [EvSend (socket_fd c) (payload +:+ newline) sent])
               (set_syscalls (tail (syscalls w))
                  (set_uuids (tail (uuids w))
                     (set_allocs (drop 6 (allocs w)) w))))).
Proof.
  intros Hpc. unfold logflux_client_send_log. split_and!.
  - intros Hnot.
    destruct (entry_new_failure msg w Hnot) as (w' & Hnew & Hheap).
    exists w'. split; [|done].
    by run_step ltac:(exact Hnew).
  - intros Hall Hc.
    destruct (entry_new_repr msg w Hall) as (p & lay & h1 & Hnew & Hrepr).
    run_step ltac:(exact Hnew).
    unfold logflux_client_send_entry.
    run_step ltac:(apply (load_client_at pc c); unfold after_new; norm_world;
                   by eapply frame_lookup).
    rewrite Hc. cbn [negb].
    run_step ltac:(reflexivity).
    run_step ltac:(apply (entry_free_run (heap w) p (new_view msg w) lay);
                   unfold after_new; norm_world; exact Hrepr).
    reflexivity.
  - intros Hall Hc H4 H5 Hlen. cbv zeta.
    destruct (entry_new_repr msg w Hall) as (p & lay & h1 & Hnew & Hrepr).
    run_step ltac:(exact Hnew).
    run_step ltac:(apply (send_entry_run pc p c (new_view msg w));
                   [ unfold after_new; norm_world; by eapply frame_lookup
                   | done
                   | unfold after_new; norm_world; by eapply entry_repr_read
                   | unfold after_new; norm_world; by rewrite hd_drop
                   | unfold after_new; norm_world;
                     by rewrite tail_drop, hd_drop
                   | done ]).
    run_step ltac:(apply (entry_free_run (heap w) p (new_view msg w) lay);
                   unfold after_new; norm_world; exact Hrepr).
    unfold ret. f_equal. unfold after_new.
    apply world_eq; norm_world; try done.
    by rewrite !tail_drop.
Qed.

Lemma send_log_sends_and_releases_witness :
  exists (r : logflux_error_t) (w' : world),
    logflux_client_send_log (Some sample_client) (Some "hi") sample_world
    = Ret r w'
    /\ heap w' = heap sample_world.
Proof.
  eexists _, _. split.
  - apply (proj2 (proj2 (send_log_sends_and_releases sample_client
                           sample_client_state "hi" sample_world
                           ltac:(vm_compute; reflexivity)))).
    + vm_compute. constructor.
    + reflexivity.
    + vm_compute. reflexivity.
    + vm_compute. reflexivity.
    + apply Nat.leb_le. vm_compute. reflexivity.
  - reflexivity.
Defined.
